(** * keyteki premium card renderer: particle system and card scene

    A shallow embedding of the particle system for premium card effects
    (Particle, ParticleEmitter, createHouseEmitter, lerpColor) and of
    the pure parts of [PremiumCard.jsx] (size and house-colour lookup,
    the layer composition of [loadCard], the token overlay, the pointer
    handlers), with the properties the specification states about them.

    JavaScript numbers are kept abstract behind the interface [JsNumber],
    which lists the operations the sources use.  Two models are given:
    exact rationals ([Q]), and IEEE-754 binary64 ([float], the numbers a
    JavaScript engine computes with).  The code is embedded once, over
    the interface, and run on either model.

    An object literal used as a lookup table ([PARTICLE_PRESETS],
    [HOUSE_PARTICLES], [CARD_SIZES], [HOUSE_COLORS], [tokenColors],
    [validTargets]) is a finite map over the keys it is written with.
    Indexing it with a name goes through [read], which also finds the
    names every object inherits from [Object.prototype]: there the
    value is a function (or the prototype itself), truthy, so that a
    default written with [||] is not taken.

    A call that throws returns [None]. The calls of the drawing library
    are taken not to throw, except a fill or stroke style whose colour
    is no colour value ([undefined], a function), which does. *)

From Stdlib Require Import ZArith QArith Qround Qabs Qminmax Lia Lqa.
From Stdlib Require Import PrimFloat FloatOps Uint63.
From stdpp Require Import gmap strings list pretty.

Set Default Proof Using "Type".
#[local] Open Scope Z_scope.

(** ** JavaScript numbers *)

Declare Scope js_scope.
Delimit Scope js_scope with js.

Class JsNumber (num : Type) := {
  num_add : num → num → num;
  num_sub : num → num → num;
  num_mul : num → num → num;
  num_div : num → num → num;
  (** [a <= b] *)
  num_le : num → num → bool;
  (** an integer literal, or an integer used as a number *)
  num_of_Z : Z → num;
  (** truthiness, as [||] tests it: neither zero nor NaN *)
  num_truthy : num → bool;
  (** [Math.round], read as the integer the bit operators then see
      (they turn NaN and the infinities into 0) *)
  num_round : num → Z;
}.

Notation "a + b" := (num_add a b) : js_scope.
Notation "a - b" := (num_sub a b) : js_scope.
Notation "a * b" := (num_mul a b) : js_scope.
Notation "a / b" := (num_div a b) : js_scope.
Notation "a <= b" := (num_le a b) : js_scope.
Notation "a >= b" := (num_le b a) : js_scope.

(** The literal [n] and the decimal literal [n/d] (for [d] a power of ten:
    a correctly rounded quotient of two exact integers is the double
    nearest to the decimal, which is what the literal denotes). *)
Definition int {num : Type} `{!JsNumber num} (n : Z) : num := num_of_Z n.
Definition dec {num : Type} `{!JsNumber num} (n d : Z) : num := (num_of_Z n / num_of_Z d)%js.

(** *** Exact model: rationals

    Arithmetic without rounding. A quotient by zero is 0 here, where a
    double is an infinity or NaN: what is proved on this model divides
    by quantities that are not zero. *)

#[export] Instance Q_number : JsNumber Q := {|
  num_add := Qplus;
  num_sub := Qminus;
  num_mul := Qmult;
  num_div := Qdiv;
  num_le := Qle_bool;
  num_of_Z := inject_Z;
  num_truthy := λ x, negb (Qeq_bool x 0);
  num_round := λ x, Qfloor (x + (1 # 2));
|}.

(** *** IEEE-754 binary64 *)

Definition float_of_Z (z : Z) : float :=
  if (z <? 0)%Z
  then PrimFloat.opp (PrimFloat.of_uint63 (Uint63.of_Z (- z)))
  else PrimFloat.of_uint63 (Uint63.of_Z z).

(** [Math.round] rounds to the nearest integer, ties towards +infinity:
    the floor of the exact value plus one half. *)
Definition float_round (x : float) : Z :=
  match Prim2SF x with
  | SpecFloat.S754_finite s m e =>
      let n := (if s then Z.neg m else Z.pos m) in
      if (0 <=? e)%Z then (n * 2 ^ e)%Z
      else ((2 * n + 2 ^ (- e)) / (2 * 2 ^ (- e)))%Z
  | _ => 0%Z
  end.

#[export] Instance float_number : JsNumber float := {|
  num_add := PrimFloat.add;
  num_sub := PrimFloat.sub;
  num_mul := PrimFloat.mul;
  num_div := PrimFloat.div;
  num_le := PrimFloat.leb;
  num_of_Z := float_of_Z;
  num_truthy := λ x, negb (PrimFloat.is_zero x) && negb (PrimFloat.is_nan x);
  num_round := float_round;
|}.

(** [a || d] on an optional field: the default replaces [undefined] and
    every falsy value. *)
Definition or_default {A : Type} (truthy : A → bool) (v : option A) (d : A) : A :=
  match v with
  | Some a => if truthy a then a else d
  | None => d
  end.

Definition Z_truthy (z : Z) : bool := negb (z =? 0)%Z.

(** *** Numbers that may be missing

    A field read where a number is expected may be [undefined];
    arithmetic on [undefined] gives NaN, and every further operation
    keeps it. [None] stands for both: no number. *)

#[export] Instance maybe_number {num : Type} `{!JsNumber num} : JsNumber (option num) := {|
  num_add := λ a b, x ← a; y ← b; Some (x + y)%js;
  num_sub := λ a b, x ← a; y ← b; Some (x - y)%js;
  num_mul := λ a b, x ← a; y ← b; Some (x * y)%js;
  num_div := λ a b, x ← a; y ← b; Some (x / y)%js;
  num_le := λ a b, match a, b with Some x, Some y => (x <= y)%js | _, _ => false end;
  num_of_Z := λ z, Some (num_of_Z z);
  num_truthy := λ a, match a with Some x => num_truthy x | None => false end;
  num_round := λ a, match a with Some x => num_round x | None => 0%Z end;
|}.

(** ** Property lookup

    The names [Object.prototype] defines, which every object literal
    inherits. *)
Definition Object_prototype : list string :=
  [ "constructor"; "__defineGetter__"; "__defineSetter__"; "hasOwnProperty";
    "__lookupGetter__"; "__lookupSetter__"; "isPrototypeOf";
    "propertyIsEnumerable"; "toString"; "valueOf"; "__proto__";
    "toLocaleString" ].

(** What [o[key]] reads when it is not [undefined]: the value the
    literal gives the key, or the value inherited under that name. An
    inherited value is a function, or [Object.prototype] itself for
    [__proto__]: it is truthy, it is no number, string or colour, it has
    no method [some] and none of the fields [width], [height], [scale],
    [primary], [secondary]. *)
Inductive Read (A : Type) :=
  | Own (a : A)
  | Inherited (key : string).
Arguments Own {A} a.
Arguments Inherited {A} key.

(** [o[key]]; [None] is [undefined]. *)
Definition read {A : Type} (o : gmap string A) (key : string) : option (Read A) :=
  match o !! key with
  | Some a => Some (Own a)
  | None => if bool_decide (key ∈ Object_prototype) then Some (Inherited key) else None
  end.

(** ** Colours: 32-bit integer operators *)

(** ToInt32: the value modulo 2^32, read as a signed 32-bit integer. *)
Definition to_int32 (z : Z) : Z := ((z + 2 ^ 31) mod 2 ^ 32 - 2 ^ 31)%Z.

Definition js_shl (a n : Z) : Z := to_int32 (Z.shiftl (to_int32 a) n).
Definition js_shr (a n : Z) : Z := Z.shiftr (to_int32 a) n.
Definition js_and (a b : Z) : Z := Z.land (to_int32 a) (to_int32 b).
Definition js_or (a b : Z) : Z := Z.lor (to_int32 a) (to_int32 b).

Section Colour.
Context {num : Type} `{!JsNumber num}.

(** One channel of [lerpColor]: [Math.round(a + (b - a) * ratio)]. *)
Definition lerpChannel (a b : Z) (ratio : num) : Z :=
  num_round (int a + int (b - a)%Z * ratio)%js.

Definition lerpColor (color1 color2 : Z) (ratio : num) : Z :=
  let r1 := js_and (js_shr color1 16) 255 in
  let g1 := js_and (js_shr color1 8) 255 in
  let b1 := js_and color1 255 in
  let r2 := js_and (js_shr color2 16) 255 in
  let g2 := js_and (js_shr color2 8) 255 in
  let b2 := js_and color2 255 in
  let r := lerpChannel r1 r2 ratio in
  let g := lerpChannel g1 g2 ratio in
  let b := lerpChannel b1 b2 ratio in
  js_or (js_or (js_shl r 16) (js_shl g 8)) b.

End Colour.

(** The channels of a packed colour, and the packing, as [lerpColor]
    writes them. *)
Definition red (c : Z) : Z := js_and (js_shr c 16) 255.
Definition green (c : Z) : Z := js_and (js_shr c 8) 255.
Definition blue (c : Z) : Z := js_and c 255.
Definition pack (r g b : Z) : Z := js_or (js_or (js_shl r 16) (js_shl g 8)) b.

(** The linear interpolation of the specification, and what it is for
    an integer to be nearest to a rational. *)
Definition lerp (a b : Z) (ratio : Q) : Q :=
  (inject_Z a + inject_Z (b - a) * ratio)%Q.
Definition nearest (z : Z) (x : Q) : Prop := (Qabs (inject_Z z - x) <= 1 # 2)%Q.

(** The rational a double is, when it is finite. *)
Definition float_value (x : float) : option Q :=
  match Prim2SF x with
  | SpecFloat.S754_zero _ => Some 0%Q
  | SpecFloat.S754_finite s m e =>
      let n := if s then Z.neg m else Z.pos m in
      Some (if (0 <=? e)%Z then inject_Z (n * 2 ^ e) else n # Z.to_pos (2 ^ (- e)))
  | _ => None
  end.

(** Both endpoints of one channel, on doubles. *)
Definition endpoints_ok (a b : Z) : bool :=
  (lerpChannel a b (int 1 : float) =? b) && (lerpChannel a b (int 0 : float) =? a).

(** ** Particle *)

Module Particle.
Section Defs.
Context {num : Type} `{!JsNumber num}.

(** The object handed to [new Particle] and to [reset]; [None] is a key
    that is absent (it reads as [undefined]). *)
Record Config := {
  cfg_x : option num;
  cfg_y : option num;
  cfg_vx : option num;
  cfg_vy : option num;
  cfg_size : option num;
  cfg_color : option Z;
  cfg_colorEnd : option Z;
  cfg_alpha : option num;
  cfg_alphaStart : option num;
  cfg_alphaEnd : option num;
  cfg_lifetime : option num;
  cfg_gravity : option num;
  cfg_active : option bool;
}.

(** What [updateGraphics] last drew: a filled circle of the particle's
    colour and alpha, at its position. *)
Record Graphics := {
  g_color : Z;
  g_alpha : num;
  g_radius : num;
  g_x : num;
  g_y : num;
}.

Record t := {
  x : num;
  y : num;
  vx : num;
  vy : num;
  size : num;
  color : Z;
  colorEnd : option Z;
  alpha : num;
  alphaStart : num;
  alphaEnd : num;
  lifetime : num;
  maxLifetime : num;
  gravity : num;
  active : bool;
  graphics : Graphics;
}.

Definition draw (p : t) : Graphics :=
  {| g_color := color p; g_alpha := alpha p; g_radius := size p;
     g_x := x p; g_y := y p |}.

Definition updateGraphics (p : t) : t :=
  {| x := x p; y := y p; vx := vx p; vy := vy p; size := size p;
     color := color p; colorEnd := colorEnd p; alpha := alpha p;
     alphaStart := alphaStart p; alphaEnd := alphaEnd p;
     lifetime := lifetime p; maxLifetime := maxLifetime p;
     gravity := gravity p; active := active p;
     graphics := draw p |}.

Definition num_or (v : option num) (d : num) : num := or_default num_truthy v d.

(** [constructor(config)].  The [active] key of [config] is not read: the
    flag is set to [true]. *)
Definition new (config : Config) : t :=
  let life := num_or (cfg_lifetime config) (int 1) in
  updateGraphics
    {| x := num_or (cfg_x config) (int 0);
       y := num_or (cfg_y config) (int 0);
       vx := num_or (cfg_vx config) (int 0);
       vy := num_or (cfg_vy config) (int 0);
       size := num_or (cfg_size config) (int 2);
       color := or_default Z_truthy (cfg_color config) 0xffffff;
       colorEnd := cfg_colorEnd config;
       alpha := num_or (cfg_alpha config) (int 1);
       alphaStart := num_or (cfg_alphaStart config) (int 1);
       alphaEnd := num_or (cfg_alphaEnd config) (int 0);
       lifetime := life;
       maxLifetime := life;
       gravity := num_or (cfg_gravity config) (int 0);
       active := true;
       graphics := {| g_color := 0; g_alpha := int 0; g_radius := int 0;
                      g_x := int 0; g_y := int 0 |} |}.

(** [reset(config)]: as the constructor, but [alpha] starts from
    [alphaStart], and [colorEnd] is left as it was. *)
Definition reset (p : t) (config : Config) : t :=
  let life := num_or (cfg_lifetime config) (int 1) in
  updateGraphics
    {| x := num_or (cfg_x config) (int 0);
       y := num_or (cfg_y config) (int 0);
       vx := num_or (cfg_vx config) (int 0);
       vy := num_or (cfg_vy config) (int 0);
       size := num_or (cfg_size config) (int 2);
       color := or_default Z_truthy (cfg_color config) 0xffffff;
       colorEnd := colorEnd p;
       alpha := num_or (cfg_alphaStart config) (int 1);
       alphaStart := num_or (cfg_alphaStart config) (int 1);
       alphaEnd := num_or (cfg_alphaEnd config) (int 0);
       lifetime := life;
       maxLifetime := life;
       gravity := num_or (cfg_gravity config) (int 0);
       active := true;
       graphics := graphics p |}.

(** The kinematic part of [update]: position, velocity and remaining
    lifetime advanced by [delta]. *)
Definition advance (p : t) (delta : num) : t :=
  {| x := (x p + vx p * delta)%js;
     y := (y p + vy p * delta)%js;
     vx := vx p;
     vy := (vy p + gravity p * delta)%js;
     size := size p; color := color p; colorEnd := colorEnd p;
     alpha := alpha p; alphaStart := alphaStart p; alphaEnd := alphaEnd p;
     lifetime := (lifetime p - delta)%js;
     maxLifetime := maxLifetime p; gravity := gravity p;
     active := active p; graphics := graphics p |}.

Definition deactivate (p : t) : t :=
  {| x := x p; y := y p; vx := vx p; vy := vy p; size := size p;
     color := color p; colorEnd := colorEnd p; alpha := alpha p;
     alphaStart := alphaStart p; alphaEnd := alphaEnd p;
     lifetime := lifetime p; maxLifetime := maxLifetime p;
     gravity := gravity p; active := false; graphics := graphics p |}.

(** The fading part of [update], for a particle that stays alive. *)
Definition fade (p : t) : t :=
  let lifeRatio := (lifetime p / maxLifetime p)%js in
  updateGraphics
    {| x := x p; y := y p; vx := vx p; vy := vy p;
       size := (size p * dec 99 100)%js;
       color := match colorEnd p with
                | Some ce => lerpColor ce (color p) lifeRatio
                | None => color p
                end;
       colorEnd := colorEnd p;
       alpha := (alphaEnd p + (alphaStart p - alphaEnd p) * lifeRatio)%js;
       alphaStart := alphaStart p; alphaEnd := alphaEnd p;
       lifetime := lifetime p; maxLifetime := maxLifetime p;
       gravity := gravity p; active := active p; graphics := graphics p |}.

(** [update(delta)] *)
Definition update (p : t) (delta : num) : t :=
  if negb (active p) then p
  else
    let p1 := advance p delta in
    if (lifetime p1 <= int 0)%js then deactivate p1
    else fade p1.

End Defs.
Arguments Config : clear implicits.
Arguments Graphics : clear implicits.
Arguments t : clear implicits.
End Particle.

(** ** The [Math] object and the sequence of [Math.random()] results *)

Record MathLib (num : Type) := {
  Math_PI : num;
  Math_cos : num → num;
  Math_sin : num → num;
  (** the value the [i]-th call of [Math.random()] returns *)
  Math_random : nat → num;
}.
Arguments Math_PI {num}.
Arguments Math_cos {num}.
Arguments Math_sin {num}.
Arguments Math_random {num}.

(** Code that draws random numbers threads the number of calls made so
    far. *)
Definition Rand (A : Type) : Type := nat → A * nat.

Definition rand_ret {A : Type} (a : A) : Rand A := λ i, (a, i).
Definition rand_bind {A B : Type} (m : Rand A) (f : A → Rand B) : Rand B :=
  λ i, let '(a, j) := m i in f a j.

Notation "'let*' x := m 'in' k" := (rand_bind m (λ x, k))
  (at level 10, x name, m at level 100, k at level 200).

(** ** ParticleEmitter *)

Module ParticleEmitter.
Section Defs.
Context {num : Type} `{!JsNumber num}.
Variable Math : MathLib num.

Record Range := { range_min : num; range_max : num }.
Record Alpha := { alpha_start : num; alpha_end : num }.
Record Point := { pt_x : num; pt_y : num }.
Record Bounds := { width : num; height : num }.

(** An emitter configuration with every key of a preset. *)
Record Config := {
  count : Z;
  lifetime : Range;
  speed : Range;
  size : Range;
  color : Z;
  colorEnd : option Z;
  alpha : Alpha;
  gravity : num;
  spread : num;
  emitRate : num;
}.

(** An object with some of these keys, as [setConfig] and the
    constructor accept it. *)
Record Override := {
  o_count : option Z;
  o_lifetime : option Range;
  o_speed : option Range;
  o_size : option Range;
  o_color : option Z;
  o_colorEnd : option Z;
  o_alpha : option Alpha;
  o_gravity : option num;
  o_spread : option num;
  o_emitRate : option num;
}.

(** [{ ...base, ...over }]: a key of [over] replaces the key of [base]. *)
Definition merge (base : Config) (over : Override) : Config :=
  {| count := default (count base) (o_count over);
     lifetime := default (lifetime base) (o_lifetime over);
     speed := default (speed base) (o_speed over);
     size := default (size base) (o_size over);
     color := default (color base) (o_color over);
     colorEnd := match o_colorEnd over with
                 | Some c => Some c
                 | None => colorEnd base
                 end;
     alpha := default (alpha base) (o_alpha over);
     gravity := default (gravity base) (o_gravity over);
     spread := default (spread base) (o_spread over);
     emitRate := default (emitRate base) (o_emitRate over) |}.

(** A preset passed where an object of overrides is expected. *)
Definition as_override (c : Config) : Override :=
  {| o_count := Some (count c);
     o_lifetime := Some (lifetime c);
     o_speed := Some (speed c);
     o_size := Some (size c);
     o_color := Some (color c);
     o_colorEnd := colorEnd c;
     o_alpha := Some (alpha c);
     o_gravity := Some (gravity c);
     o_spread := Some (spread c);
     o_emitRate := Some (emitRate c) |}.

(** An object without own enumerable properties where an object of
    overrides is expected: [{}], or a function. *)
Definition no_keys : Override :=
  {| o_count := None; o_lifetime := None; o_speed := None; o_size := None;
     o_color := None; o_colorEnd := None; o_alpha := None; o_gravity := None;
     o_spread := None; o_emitRate := None |}.

(** [PARTICLE_PRESETS] *)
Definition sparkle : Config :=
  {| count := 15;
     lifetime := {| range_min := dec 5 10; range_max := dec 15 10 |};
     speed := {| range_min := int 20; range_max := int 50 |};
     size := {| range_min := int 1; range_max := int 3 |};
     color := 0xffd700;
     colorEnd := None;
     alpha := {| alpha_start := int 1; alpha_end := int 0 |};
     gravity := int (-10);
     spread := (Math_PI Math * int 2)%js;
     emitRate := int 5 |}.

Definition fire : Config :=
  {| count := 20;
     lifetime := {| range_min := dec 3 10; range_max := dec 8 10 |};
     speed := {| range_min := int 30; range_max := int 60 |};
     size := {| range_min := int 2; range_max := int 5 |};
     color := 0xff6600;
     colorEnd := Some 0xff0000;
     alpha := {| alpha_start := dec 8 10; alpha_end := int 0 |};
     gravity := int (-50);
     spread := (Math_PI Math / int 4)%js;
     emitRate := int 10 |}.

Definition ice : Config :=
  {| count := 12;
     lifetime := {| range_min := int 1; range_max := int 2 |};
     speed := {| range_min := int 10; range_max := int 30 |};
     size := {| range_min := int 2; range_max := int 4 |};
     color := 0x00ffff;
     colorEnd := None;
     alpha := {| alpha_start := dec 6 10; alpha_end := int 0 |};
     gravity := int 5;
     spread := (Math_PI Math * int 2)%js;
     emitRate := int 3 |}.

Definition shadow : Config :=
  {| count := 10;
     lifetime := {| range_min := int 1; range_max := int 2 |};
     speed := {| range_min := int 5; range_max := int 15 |};
     size := {| range_min := int 3; range_max := int 6 |};
     color := 0x330066;
     colorEnd := None;
     alpha := {| alpha_start := dec 4 10; alpha_end := int 0 |};
     gravity := int (-5);
     spread := (Math_PI Math * int 2)%js;
     emitRate := int 2 |}.

Definition holy : Config :=
  {| count := 8;
     lifetime := {| range_min := dec 15 10; range_max := int 3 |};
     speed := {| range_min := int 15; range_max := int 25 |};
     size := {| range_min := int 2; range_max := int 4 |};
     color := 0xffffcc;
     colorEnd := None;
     alpha := {| alpha_start := dec 7 10; alpha_end := int 0 |};
     gravity := int (-20);
     spread := (Math_PI Math / int 6)%js;
     emitRate := int 2 |}.

Definition nature : Config :=
  {| count := 12;
     lifetime := {| range_min := int 2; range_max := int 4 |};
     speed := {| range_min := int 10; range_max := int 20 |};
     size := {| range_min := int 2; range_max := int 3 |};
     color := 0x00ff00;
     colorEnd := None;
     alpha := {| alpha_start := dec 5 10; alpha_end := int 0 |};
     gravity := int 10;
     spread := Math_PI Math;
     emitRate := int 2 |}.

Definition PARTICLE_PRESETS : gmap string Config :=
  list_to_map
    [ ("sparkle", sparkle); ("fire", fire); ("ice", ice);
      ("shadow", shadow); ("holy", holy); ("nature", nature) ].

(** [HOUSE_PARTICLES] *)
Definition HOUSE_PARTICLES : gmap string string :=
  list_to_map
    [ ("brobnar", "fire"); ("dis", "shadow"); ("logos", "sparkle");
      ("mars", "fire"); ("sanctum", "holy"); ("shadows", "shadow");
      ("untamed", "nature"); ("saurian", "fire");
      ("staralliance", "sparkle"); ("unfathomable", "ice");
      ("ekwidon", "sparkle"); ("geistoid", "ice"); ("skyborn", "sparkle");
      ("redemption", "holy") ].

(** The emitter.  Its ticker is the caller of [update]; the display
    children are the [graphics] of the pooled particles, in pool order. *)
Record t := {
  config : Config;
  particles : list (Particle.t num);
  emitTimer : num;
  emitPosition : Point;
  bounds : Bounds;
  active : bool;
}.

Definition set_particles (e : t) (ps : list (Particle.t num)) : t :=
  {| config := config e; particles := ps; emitTimer := emitTimer e;
     emitPosition := emitPosition e; bounds := bounds e; active := active e |}.

Definition set_emitTimer (e : t) (timer : num) : t :=
  {| config := config e; particles := particles e; emitTimer := timer;
     emitPosition := emitPosition e; bounds := bounds e; active := active e |}.

Definition set_active (e : t) (b : bool) : t :=
  {| config := config e; particles := particles e; emitTimer := emitTimer e;
     emitPosition := emitPosition e; bounds := bounds e; active := b |}.

Definition random : Rand num := λ i, (Math_random Math i, S i).

(** [randomRange(min, max)] *)
Definition randomRange (min max : num) : Rand num :=
  let* r := random in rand_ret (r * (max - min) + min)%js.

(** [getRandomParticleConfig()] *)
Definition getRandomParticleConfig (e : t) : Rand (Particle.Config num) :=
  let c := config e in
  let* r := random in
  let angle := (r * spread c - spread c / int 2 - Math_PI Math / int 2)%js in
  let* speed := randomRange (range_min (speed c)) (range_max (speed c)) in
  let* dx := randomRange (int (-10)) (int 10) in
  let* dy := randomRange (int (-10)) (int 10) in
  let* size := randomRange (range_min (size c)) (range_max (size c)) in
  let* lifetime := randomRange (range_min (lifetime c)) (range_max (lifetime c)) in
  rand_ret
    {| Particle.cfg_x := Some (pt_x (emitPosition e) + dx)%js;
       Particle.cfg_y := Some (pt_y (emitPosition e) + dy)%js;
       Particle.cfg_vx := Some (Math_cos Math angle * speed)%js;
       Particle.cfg_vy := Some (Math_sin Math angle * speed)%js;
       Particle.cfg_size := Some size;
       Particle.cfg_color := Some (color c);
       Particle.cfg_colorEnd := colorEnd c;
       Particle.cfg_alpha := None;
       Particle.cfg_alphaStart := Some (alpha_start (alpha c));
       Particle.cfg_alphaEnd := Some (alpha_end (alpha c));
       Particle.cfg_lifetime := Some lifetime;
       Particle.cfg_gravity := Some (gravity c);
       Particle.cfg_active := None |}.

(** [{ ...config, active: false }] *)
Definition with_active (c : Particle.Config num) (b : bool) : Particle.Config num :=
  {| Particle.cfg_x := Particle.cfg_x c; Particle.cfg_y := Particle.cfg_y c;
     Particle.cfg_vx := Particle.cfg_vx c; Particle.cfg_vy := Particle.cfg_vy c;
     Particle.cfg_size := Particle.cfg_size c;
     Particle.cfg_color := Particle.cfg_color c;
     Particle.cfg_colorEnd := Particle.cfg_colorEnd c;
     Particle.cfg_alpha := Particle.cfg_alpha c;
     Particle.cfg_alphaStart := Particle.cfg_alphaStart c;
     Particle.cfg_alphaEnd := Particle.cfg_alphaEnd c;
     Particle.cfg_lifetime := Particle.cfg_lifetime c;
     Particle.cfg_gravity := Particle.cfg_gravity c;
     Particle.cfg_active := Some b |}.

(** The body of the loop of [initParticlePool], run [n] times. *)
Fixpoint initParticlePool_loop (n : nat) (e : t) : Rand t :=
  match n with
  | O => rand_ret e
  | S n' =>
      let* c := getRandomParticleConfig e in
      let particle := Particle.new (with_active c false) in
      initParticlePool_loop n' (set_particles e (particles e ++ [particle]))
  end.

(** [initParticlePool()]: [for (let i = 0; i < this.config.count; i++)] *)
Definition initParticlePool (e : t) : Rand t :=
  initParticlePool_loop (Z.to_nat (count (config e))) e.

(** [constructor(config = PARTICLE_PRESETS.sparkle)] *)
Definition new (cfg : option Override) : Rand t :=
  initParticlePool
    {| config := merge sparkle (default (as_override sparkle) cfg);
       particles := [];
       emitTimer := int 0;
       emitPosition := {| pt_x := int 0; pt_y := int 0 |};
       bounds := {| width := int 100; height := int 100 |};
       active := true |}.

(** One turn of the loop of [emit]: the first inactive particle of the
    pool, if there is one, is reset in place. *)
Definition emit_one (e : t) : Rand t :=
  match list_find (λ p, Particle.active p = false) (particles e) with
  | Some (i, particle) =>
      let* c := getRandomParticleConfig e in
      rand_ret (set_particles e (<[i := Particle.reset particle c]> (particles e)))
  | None => rand_ret e
  end.

Fixpoint emit_loop (n : nat) (e : t) : Rand t :=
  match n with
  | O => rand_ret e
  | S n' => let* e' := emit_one e in emit_loop n' e'
  end.

(** [emit(count = 1)] *)
Definition emit (e : t) (count : option Z) : Rand t :=
  emit_loop (Z.to_nat (default 1 count)) e.

(** [burst(count = 10)] *)
Definition burst (e : t) (count : option Z) : Rand t :=
  emit e (Some (default 10 count)).

(** The [while (this.emitTimer >= emitInterval)] loop of [update], with
    the number of turns it has made, each one [emit(1)], which activates
    a particle when the pool has an inactive one; [None] when [fuel]
    turns were not enough to leave the loop. *)
Fixpoint update_loop (fuel : nat) (emitInterval : num) (e : t) (turns : nat)
  : Rand (option (t * nat)) :=
  if (emitTimer e >= emitInterval)%js then
    match fuel with
    | O => rand_ret None
    | S fuel' =>
        let* e1 := emit e (Some 1) in
        update_loop fuel' emitInterval
          (set_emitTimer e1 (emitTimer e1 - emitInterval)%js) (S turns)
    end
  else rand_ret (Some (e, turns)).

(** [update(ticker)], with the number of timed emissions it made. *)
Definition update (fuel : nat) (e : t) (deltaMS : num) : Rand (option (t * nat)) :=
  if negb (active e) then rand_ret (Some (e, O))
  else
    let delta := (deltaMS / int 1000)%js in
    let e1 := set_emitTimer e (emitTimer e + delta)%js in
    let emitInterval := (int 1 / emitRate (config e1))%js in
    let* r := update_loop fuel emitInterval e1 O in
    rand_ret
      (match r with
       | Some (e2, turns) =>
           Some (set_particles e2 ((λ p, Particle.update p delta) <$> particles e2),
                 turns)
       | None => None
       end).

Definition setEmitPosition (e : t) (x y : num) : t :=
  {| config := config e; particles := particles e; emitTimer := emitTimer e;
     emitPosition := {| pt_x := x; pt_y := y |}; bounds := bounds e;
     active := active e |}.

Definition setBounds (e : t) (w h : num) : t :=
  {| config := config e; particles := particles e; emitTimer := emitTimer e;
     emitPosition := emitPosition e; bounds := {| width := w; height := h |};
     active := active e |}.

Definition setConfig (e : t) (over : Override) : t :=
  {| config := merge (config e) over; particles := particles e;
     emitTimer := emitTimer e; emitPosition := emitPosition e;
     bounds := bounds e; active := active e |}.

Definition start (e : t) : t := set_active e true.
Definition stop (e : t) : t := set_active e false.

(** [createHouseEmitter(house, bounds)]. A preset name inherited from
    [Object.prototype] is truthy; as a key it is the text of a function
    (or [[object Object]]), which [PARTICLE_PRESETS] neither has nor
    inherits, so that the preset is [undefined]. A preset that is itself
    an inherited value has no property for the constructor to spread. *)
Definition createHouseEmitter (house : string) (b : Bounds) : Rand t :=
  let presetName :=
    match read HOUSE_PARTICLES house with
    | Some (Own name) => Own (if negb (String.eqb name "") then name else "sparkle")
    | Some (Inherited key) => Inherited key
    | None => Own "sparkle"
    end in
  let preset :=
    match presetName with
    | Own name => read PARTICLE_PRESETS name
    | Inherited _ => None
    end in
  let* emitter :=
    new (match preset with
         | Some (Own preset) => Some (as_override preset)
         | Some (Inherited _) => Some no_keys
         | None => None
         end) in
  let emitter := setBounds emitter (width b) (height b) in
  rand_ret (setEmitPosition emitter (width b / int 2)%js (height b / int 2)%js).

End Defs.
Arguments Range : clear implicits.
Arguments Alpha : clear implicits.
Arguments Point : clear implicits.
Arguments Bounds : clear implicits.
Arguments Config : clear implicits.
Arguments Override : clear implicits.
Arguments t : clear implicits.
End ParticleEmitter.

(** ** PremiumCard *)

Module PremiumCard.
Section Defs.
Context {num : Type} `{!JsNumber num}.

Record CardSize := { width : num; height : num; scale : num }.

Definition size_small : CardSize :=
  {| width := int 39; height := int 55; scale := dec 6 10 |}.
Definition size_normal : CardSize :=
  {| width := int 65; height := int 91; scale := int 1 |}.
Definition size_large : CardSize :=
  {| width := int 91; height := int 127; scale := dec 14 10 |}.
Definition size_x_large : CardSize :=
  {| width := int 130; height := int 182; scale := int 2 |}.

(** [CARD_SIZES] *)
Definition CARD_SIZES : gmap string CardSize :=
  list_to_map
    [ ("small", size_small); ("normal", size_normal);
      ("large", size_large); ("x-large", size_x_large) ].

Record Theme := { primary : Z; secondary : Z }.

Definition theme_shadows : Theme := {| primary := 0x4a4a4a; secondary := 0x808080 |}.

(** [HOUSE_COLORS] *)
Definition HOUSE_COLORS : gmap string Theme :=
  list_to_map
    [ ("brobnar", {| primary := 0xff6b35; secondary := 0xffa366 |});
      ("dis", {| primary := 0x9933ff; secondary := 0xcc99ff |});
      ("logos", {| primary := 0x00bfff; secondary := 0x66d9ff |});
      ("mars", {| primary := 0xff3333; secondary := 0xff6666 |});
      ("sanctum", {| primary := 0xffd700; secondary := 0xffeb99 |});
      ("shadows", theme_shadows);
      ("untamed", {| primary := 0x33cc33; secondary := 0x66ff66 |});
      ("saurian", {| primary := 0xcc9900; secondary := 0xffcc33 |});
      ("staralliance", {| primary := 0x6699ff; secondary := 0x99ccff |});
      ("unfathomable", {| primary := 0x006699; secondary := 0x3399cc |});
      ("ekwidon", {| primary := 0x996633; secondary := 0xcc9966 |});
      ("geistoid", {| primary := 0x99cccc; secondary := 0xccffff |});
      ("skyborn", {| primary := 0x66ccff; secondary := 0x99e6ff |});
      ("redemption", {| primary := 0xff9900; secondary := 0xffcc66 |}) ].

(** The card record the game state supplies. [tokens] lists the entries
    of the token object in the order [Object.entries] yields them. *)
Record Card := {
  id : string;
  name : string;
  house : option string;
  type : option string;
  power : option Z;
  modifiedPower : option Z;
  armor : option Z;
  tokens : option (list (string * Z));
  facedown : bool;
}.

(** The props of the component; a callback is recorded by whether the
    host passed one. *)
Record Props := {
  card : option Card;
  size : option string;
  isPremium : bool;
  onMouseOver : bool;
  onMouseOut : bool;
  onClick : bool;
}.

(** A property key built from a value that may be [undefined]. *)
Definition key_of (k : option string) : string := default "undefined" k.

(** *** The display tree *)

Record StatText := {
  st_text : string;
  st_fill : Z;
  st_fontSize : num;
  st_x : num;
  st_y : num;
}.

Record TokenDisc := {
  td_color : Z;
  td_radius : num;
  td_text : string;
  td_fontSize : num;
  td_x : num;
  td_y : num;
}.

Inductive Node :=
  | Shadow (w h : num)
  | Sprite (w h : num) (holographic : bool)
  | Frame (glow : option Z) (w h : num)
  | Stats (texts : list StatText)
  | Tokens (discs : list TokenDisc)
  | FallbackPanel (w h : num)
  | FallbackGlyph (x y : num).

(** A child of the stage: the card container with its children, or a
    display object added to the stage itself. *)
Inductive StageChild :=
  | CardContainer (children : list Node)
  | OnStage (n : Node).

(** [createCardFrame(card, size, colors)]. The outer glow of a premium
    card is stroked in [colors.primary]; an inherited value has no
    [primary], the colour is [undefined] and the stroke throws. *)
Definition createCardFrame (p : Props) (sz : CardSize) (colors : Read Theme) : option Node :=
  if isPremium p then
    match colors with
    | Own theme => Some (Frame (Some (primary theme)) (width sz) (height sz))
    | Inherited _ => None
    end
  else Some (Frame None (width sz) (height sz)).

(** [createStatsOverlay(card, size)] *)
Definition createStatsOverlay (c : Card) (sz : CardSize) : Node :=
  let scale := scale sz in
  let powerText :=
    match power c with
    | Some pw =>
        [ {| st_text := match modifiedPower c with
                        | Some mp => pretty mp
                        | None => pretty pw
                        end;
             st_fill := 0xffffff;
             st_fontSize := (int 14 * scale)%js;
             st_x := (int 12 * scale)%js;
             st_y := (height sz - int 12 * scale)%js |} ]
    | None => []
    end in
  let armorText :=
    match armor c with
    | Some a =>
        if 0 <? a then
          [ {| st_text := pretty a;
               st_fill := 0xffd700;
               st_fontSize := (int 14 * scale)%js;
               st_x := (width sz - int 12 * scale)%js;
               st_y := (height sz - int 12 * scale)%js |} ]
        else []
    | None => []
    end in
  Stats (powerText ++ armorText).

(** [tokenColors] *)
Definition tokenColors : gmap string Z :=
  list_to_map
    [ ("damage", 0xff0000); ("amber", 0xffd700); ("power", 0x00ff00);
      ("armor", 0x808080); ("stun", 0xffff00); ("ward", 0x00ffff);
      ("enrage", 0xff6600) ].

(** The disc drawn for an entry when [index] discs were drawn before. *)
Definition tokenDisc (sz : CardSize) (index : nat) (colour count : Z) : TokenDisc :=
  let scale := scale sz in
  let col := Z.of_nat index mod 3 in
  let row := Z.of_nat index / 3 in
  {| td_color := colour;
     td_radius := (int 10 * scale)%js;
     td_text := pretty count;
     td_fontSize := (int 10 * scale)%js;
     td_x := (int 15 * scale + int col * int 22 * scale)%js;
     td_y := (height sz / int 2 + int row * int 22 * scale)%js |}.

(** The loop of [createTokenOverlay] over the remaining entries, with
    the running [index]. For an entry with a positive count whose type
    is a name [tokenColors] inherits, [tokenColors[tokenType]] is truthy
    and the disc is filled with it: the fill throws. *)
Fixpoint tokenLoop (sz : CardSize) (entries : list (string * Z)) (index : nat)
  : option (list TokenDisc) :=
  match entries with
  | [] => Some []
  | (tokenType, count) :: rest =>
      if 0 <? count then
        match read tokenColors tokenType with
        | Some (Own colour) =>
            if Z_truthy colour
            then discs ← tokenLoop sz rest (S index);
                 Some (tokenDisc sz index colour count :: discs)
            else tokenLoop sz rest index
        | Some (Inherited _) => None
        | None => tokenLoop sz rest index
        end
      else tokenLoop sz rest index
  end.

(** [createTokenOverlay(card, size)] *)
Definition createTokenOverlay (c : Card) (sz : CardSize) : option Node :=
  Tokens <$> tokenLoop sz (default [] (tokens c)) O.

(** *** Pointer handlers *)

Record Hover := { isHovered : bool; mousePos : num * num }.

(** A value passed to the host: a plain value, or an object literal with
    its fields in the order they are written. *)
Inductive JsValue :=
  | VCard (c : option Card)
  | VString (s : string).

Inductive Arg :=
  | Plain (v : JsValue)
  | Object (fields : list (string * JsValue)).

Inductive Callback := OnMouseOver | OnMouseOut | OnClick.

(** A call of a host callback with its arguments. *)
Record HostCall := { callback : Callback; args : list Arg }.

Definition handleMouseEnter (p : Props) (h : Hover) : Hover * list HostCall :=
  ({| isHovered := true; mousePos := mousePos h |},
   if onMouseOver p
   then [ {| callback := OnMouseOver;
             args := [Object [("image", VCard (card p)); ("size", VString "normal")]] |} ]
   else []).

Definition handleMouseLeave (p : Props) (h : Hover) : Hover * list HostCall :=
  ({| isHovered := false; mousePos := (dec 5 10, dec 5 10) |},
   if onMouseOut p then [ {| callback := OnMouseOut; args := [] |} ] else []).

(** The bounding rectangle of the container, when it is mounted. *)
Record Rect := { rect_left : num; rect_top : num; rect_width : num; rect_height : num }.

Definition handleMouseMove (container : option Rect) (clientX clientY : num) (h : Hover)
  : Hover * list HostCall :=
  match container with
  | None => (h, [])
  | Some rect =>
      let x := ((clientX - rect_left rect) / rect_width rect)%js in
      let y := ((clientY - rect_top rect) / rect_height rect)%js in
      ({| isHovered := isHovered h; mousePos := (x, y) |}, [])
  end.

Definition handleClick (p : Props) (h : Hover) : Hover * list HostCall :=
  (h, if onClick p then [ {| callback := OnClick; args := [Plain (VCard (card p))] |} ] else []).

End Defs.
Arguments CardSize : clear implicits.
Arguments StatText : clear implicits.
Arguments TokenDisc : clear implicits.
Arguments Node : clear implicits.
Arguments StageChild : clear implicits.
Arguments Hover : clear implicits.
Arguments Rect : clear implicits.

(** *** The component

    What the component computes from its props. The numbers of its
    scene may be missing: a size read from an inherited value has no
    [width], [height] or [scale]. *)

Section Component.
Context {num : Type} `{!JsNumber num}.

(** [CARD_SIZES[size] || CARD_SIZES.normal], with [size = 'normal'] when
    the prop is not given. *)
Definition cardSize (p : Props) : CardSize (option num) :=
  match read CARD_SIZES (default "normal" (size p)) with
  | Some (Own sz) => sz
  | Some (Inherited _) => {| width := None; height := None; scale := None |}
  | None => size_normal
  end.

(** [HOUSE_COLORS[card?.house] || HOUSE_COLORS.shadows] *)
Definition houseColors (p : Props) : Read Theme :=
  default (Own theme_shadows) (read HOUSE_COLORS (key_of (card p ≫= house))).

(** The element the component renders, and the canvas [app.init] makes:
    both take the width and height of [cardSize]. *)
Definition surface (p : Props) : option num * option num :=
  (width (cardSize p), height (cardSize p)).

(** [createFallbackCard(app)]: a panel and a glyph added to the stage. *)
Definition createFallbackCard (p : Props) (stage : list (StageChild (option num)))
  : list (StageChild (option num)) :=
  let sz := cardSize p in
  stage ++ [ OnStage (FallbackPanel (width sz) (height sz));
             OnStage (FallbackGlyph (width sz / int 2)%js (height sz / int 2)%js) ].

(** What happens to the two operations of [loadCard] whose success the
    environment decides: [Assets.load] and the construction of the
    shader filter. *)
Record Outcome := { textureLoads : bool; filterBuilds : bool }.

(** The statements of the [try] block after [app.stage.removeChildren()]:
    the children of the stage they leave, or [None] when one of them
    throws (the filter, the frame or the token overlay). *)
Definition buildScene (p : Props) (o : Outcome) (c : Card)
  : option (list (StageChild (option num))) :=
  let sz := cardSize p in
  let shadow := Shadow (width sz) (height sz) in
  let holo := isPremium p && negb (facedown c) in
  if holo && negb (filterBuilds o) then None
  else
    let sprite := Sprite (width sz) (height sz) holo in
    frame ← createCardFrame p sz (houseColors p);
    let stats :=
      if bool_decide (type c = Some "creature") && negb (facedown c)
      then [createStatsOverlay c sz] else [] in
    toks ← match tokens c with
           | Some (_ :: _) => tokens ← createTokenOverlay c sz; Some [tokens]
           | _ => Some []
           end;
    Some [CardContainer ([shadow; sprite; frame] ++ stats ++ toks)].

(** [loadCard(app)], as the children of [app.stage] after it. An
    exception of [Assets.load] leaves the stage as it was, one of a
    later statement finds it cleared; either way the [catch] adds the
    fallback card to it. *)
Definition loadCard (p : Props) (o : Outcome) (stage : list (StageChild (option num)))
  : list (StageChild (option num)) :=
  match card p with
  | None => stage
  | Some c =>
      if negb (textureLoads o) then createFallbackCard p stage
      else default (createFallbackCard p []) (buildScene p o c)
  end.

End Component.
End PremiumCard.

(** ** Runs of an emitter, and the vocabulary of the specification *)

Section Runs.
Context {num : Type} `{!JsNumber num}.
Variable Math : MathLib num.

(** The particles of the pool that are active. *)
Definition activeCount (e : ParticleEmitter.t num) : nat :=
  length (filter (λ p, Particle.active p = true) (ParticleEmitter.particles e)).

(** The ticker: [update] once per frame, with the frames' [deltaMS]; the
    result carries the timed emissions of all frames together. *)
Fixpoint frames (fuel : nat) (e : ParticleEmitter.t num) (deltasMS : list num) (emitted : nat)
  : Rand (option (ParticleEmitter.t num * nat)) :=
  match deltasMS with
  | [] => rand_ret (Some (e, emitted))
  | d :: rest =>
      let* r := ParticleEmitter.update Math fuel e d in
      match r with
      | Some (e', n) => frames fuel e' rest (emitted + n)%nat
      | None => rand_ret None
      end
  end.

(** A particle's life: [update] once per frame. *)
Definition steps (p : Particle.t num) (deltas : list num) : Particle.t num :=
  foldl Particle.update p deltas.

(** What a pool operation leaves alone. *)
Definition same_frame (e e' : ParticleEmitter.t num) : Prop :=
  ParticleEmitter.config e' = ParticleEmitter.config e ∧
  ParticleEmitter.emitTimer e' = ParticleEmitter.emitTimer e ∧
  ParticleEmitter.emitPosition e' = ParticleEmitter.emitPosition e ∧
  ParticleEmitter.bounds e' = ParticleEmitter.bounds e ∧
  ParticleEmitter.active e' = ParticleEmitter.active e.

(** The timed emissions of a run of frames. *)
Definition timed_emissions (fuel : nat) (e : ParticleEmitter.t num) (deltasMS : list num)
    (i : nat) : option nat :=
  snd <$> (frames fuel e deltasMS O i).1.

End Runs.

(** Seconds elapsed over frames given by their [deltaMS]. *)
Definition elapsed (deltasMS : list Q) : Q :=
  foldr Qplus 0%Q ((λ d, d / inject_Z 1000)%Q <$> deltasMS).

(** [alpha] lies between [alphaStart] and [alphaEnd]. *)
Definition alpha_in_range (p : Particle.t Q) : Prop :=
  (Qmin (Particle.alphaStart p) (Particle.alphaEnd p) <= Particle.alpha p)%Q ∧
  (Particle.alpha p <= Qmax (Particle.alphaStart p) (Particle.alphaEnd p))%Q.

(** What [reset] establishes and [update] keeps. *)
Definition fading (p : Particle.t Q) : Prop :=
  alpha_in_range p ∧
  (Particle.active p = true → (Particle.lifetime p <= Particle.maxLifetime p)%Q).

(** The names of the size presets, of the houses and of the token types
    the tables list. *)
Definition size_names : list string := ["small"; "normal"; "large"; "x-large"].

Definition known_houses : list string :=
  [ "brobnar"; "dis"; "logos"; "mars"; "sanctum"; "shadows"; "untamed";
    "saurian"; "staralliance"; "unfathomable"; "ekwidon"; "geistoid";
    "skyborn"; "redemption" ].

Definition token_types : list string :=
  ["damage"; "amber"; "power"; "armor"; "stun"; "ward"; "enrage"].

(** The layers of the specification, in its z-order. *)
Inductive Layer :=
  | LShadow | LBaseFrame | LArt | LMask | LOverlay
  | LText | LStats | LEffect | LToken | LHighlight.

Definition z_order : list Layer :=
  [LShadow; LBaseFrame; LArt; LMask; LOverlay; LText; LStats; LEffect; LToken; LHighlight].

(** The order in which [loadCard] composes the layers it has. *)
Definition composition_order : list Layer :=
  [LShadow; LArt; LBaseFrame; LStats; LToken].

Section Scene.
Context {num : Type} `{!JsNumber num}.

(** The layer a display object is; the placeholders of the fallback
    card are none of the ten. *)
Definition layer_of (n : PremiumCard.Node num) : option Layer :=
  match n with
  | PremiumCard.Shadow _ _ => Some LShadow
  | PremiumCard.Sprite _ _ _ => Some LArt
  | PremiumCard.Frame _ _ _ => Some LBaseFrame
  | PremiumCard.Stats _ => Some LStats
  | PremiumCard.Tokens _ => Some LToken
  | PremiumCard.FallbackPanel _ _ => None
  | PremiumCard.FallbackGlyph _ _ => None
  end.

(** The layers of a scene, in composition order. *)
Definition scene_layers (stage : list (PremiumCard.StageChild num)) : list Layer :=
  stage ≫= λ child,
    match child with
    | PremiumCard.CardContainer children => omap layer_of children
    | PremiumCard.OnStage n => omap layer_of [n]
    end.

(** The entries of a token map that get a disc: a positive count and a
    colour that [tokenColors] lists. *)
Definition recognized (entry : string * Z) : option (Z * Z) :=
  match PremiumCard.tokenColors !! entry.1 with
  | Some colour => if (0 <? entry.2) && Z_truthy colour then Some (colour, entry.2) else None
  | None => None
  end.

(** An entry with a positive count whose type is a name that
    [tokenColors] inherits. *)
Definition inherits (entry : string * Z) : bool :=
  (0 <? entry.2) && bool_decide (entry.1 ∈ Object_prototype).

(** Where the disc at column [col] and row [row] of the grid goes. *)
Definition grid_position (sz : PremiumCard.CardSize num) (col row : Z) : num * num :=
  ((int 15 * PremiumCard.scale sz + int col * int 22 * PremiumCard.scale sz)%js,
   (PremiumCard.height sz / int 2 + int row * int 22 * PremiumCard.scale sz)%js).

(** The overlay in the words of the specification: disc [i] of the
    recognized entries at column [i mod 3], row [i / 3]. *)
Definition tokenGrid (sz : PremiumCard.CardSize num) (entries : list (string * Z))
  : list (PremiumCard.TokenDisc num) :=
  imap (λ i cc, PremiumCard.tokenDisc sz i cc.1 cc.2) (omap recognized entries).

End Scene.

(** The argument the specification gives the hover callbacks:
    [{ card, size }]. *)
Definition hover_shape (c : option PremiumCard.Card) (size : string) (a : PremiumCard.Arg) : Prop :=
  a = PremiumCard.Object [("card", PremiumCard.VCard c); ("size", PremiumCard.VString size)].

(** ** Sample environments *)

(** [Math] for the two number models. The cosine and sine stand for the
    library functions; they feed particle velocities only. *)
Definition Math_float : MathLib float :=
  {| Math_PI := 0x1.921fb54442d18p+1%float;
     Math_cos := λ a, (1 - a * a / 2)%float;
     Math_sin := λ a, (a - a * a * a / 6)%float;
     Math_random := λ i, (PrimFloat.of_uint63 (Uint63.of_Z (Z.of_nat i mod 8)) / 8)%float |}.

Definition Math_Q : MathLib Q :=
  {| Math_PI := 355 # 113;
     Math_cos := λ a, (1 - a * a / 2)%Q;
     Math_sin := λ a, (a - a * a * a / 6)%Q;
     Math_random := λ i, (inject_Z (Z.of_nat i mod 8) / 8)%Q |}.

(** Cards of the demo page, and one with a token the overlay does not
    know. *)
Definition ember_imp : PremiumCard.Card :=
  {| PremiumCard.id := "test-1"; PremiumCard.name := "Ember Imp";
     PremiumCard.house := Some "dis"; PremiumCard.type := Some "creature";
     PremiumCard.power := Some 2; PremiumCard.modifiedPower := None;
     PremiumCard.armor := Some 0;
     PremiumCard.tokens := Some [("damage", 1); ("amber", 2)];
     PremiumCard.facedown := false |}.

Definition bait_and_switch : PremiumCard.Card :=
  {| PremiumCard.id := "test-3"; PremiumCard.name := "Bait and Switch";
     PremiumCard.house := Some "shadows"; PremiumCard.type := Some "action";
     PremiumCard.power := None; PremiumCard.modifiedPower := None;
     PremiumCard.armor := None;
     PremiumCard.tokens := Some [];
     PremiumCard.facedown := false |}.

Definition with_tokens (c : PremiumCard.Card) (tokens : list (string * Z)) : PremiumCard.Card :=
  {| PremiumCard.id := PremiumCard.id c; PremiumCard.name := PremiumCard.name c;
     PremiumCard.house := PremiumCard.house c; PremiumCard.type := PremiumCard.type c;
     PremiumCard.power := PremiumCard.power c;
     PremiumCard.modifiedPower := PremiumCard.modifiedPower c;
     PremiumCard.armor := PremiumCard.armor c;
     PremiumCard.tokens := Some tokens;
     PremiumCard.facedown := PremiumCard.facedown c |}.

Definition with_house (c : PremiumCard.Card) (house : string) : PremiumCard.Card :=
  {| PremiumCard.id := PremiumCard.id c; PremiumCard.name := PremiumCard.name c;
     PremiumCard.house := Some house; PremiumCard.type := PremiumCard.type c;
     PremiumCard.power := PremiumCard.power c;
     PremiumCard.modifiedPower := PremiumCard.modifiedPower c;
     PremiumCard.armor := PremiumCard.armor c;
     PremiumCard.tokens := PremiumCard.tokens c;
     PremiumCard.facedown := PremiumCard.facedown c |}.

(** The props of a card shown at [size], with every callback given. *)
Definition show (c : PremiumCard.Card) (size : option string) (premium : bool)
  : PremiumCard.Props :=
  {| PremiumCard.card := Some c; PremiumCard.size := size;
     PremiumCard.isPremium := premium; PremiumCard.onMouseOver := true;
     PremiumCard.onMouseOut := true; PremiumCard.onClick := true |}.

Definition loaded : PremiumCard.Outcome :=
  {| PremiumCard.textureLoads := true; PremiumCard.filterBuilds := true |}.

Definition at_rest : PremiumCard.Hover Q :=
  {| PremiumCard.isHovered := false; PremiumCard.mousePos := (1 # 2, 1 # 2)%Q |}.

(** A particle configuration as an emitter with the sparkle preset
    samples it, with a lifetime of half a second. *)
Definition sparkle_sample : Particle.Config Q :=
  {| Particle.cfg_x := Some 3%Q; Particle.cfg_y := Some (-4)%Q;
     Particle.cfg_vx := Some 12%Q; Particle.cfg_vy := Some (-30)%Q;
     Particle.cfg_size := Some 2%Q;
     Particle.cfg_color := Some 0xffd700; Particle.cfg_colorEnd := None;
     Particle.cfg_alpha := None;
     Particle.cfg_alphaStart := Some 1%Q; Particle.cfg_alphaEnd := Some 0%Q;
     Particle.cfg_lifetime := Some (1 # 2)%Q;
     Particle.cfg_gravity := Some (-10)%Q;
     Particle.cfg_active := None |}.

(** The same for the fire preset, whose alpha starts at 0.8, with a
    lifetime of 0.3 seconds. *)
Definition fire_sample : Particle.Config Q :=
  {| Particle.cfg_x := Some 3%Q; Particle.cfg_y := Some (-4)%Q;
     Particle.cfg_vx := Some 12%Q; Particle.cfg_vy := Some (-30)%Q;
     Particle.cfg_size := Some 2%Q;
     Particle.cfg_color := Some 0xff6600; Particle.cfg_colorEnd := Some 0xff0000;
     Particle.cfg_alpha := None;
     Particle.cfg_alphaStart := Some (8 # 10)%Q; Particle.cfg_alphaEnd := Some 0%Q;
     Particle.cfg_lifetime := Some (3 # 10)%Q;
     Particle.cfg_gravity := Some (-50)%Q;
     Particle.cfg_active := None |}.

Definition card_bounds {num : Type} `{!JsNumber num} : ParticleEmitter.Bounds num :=
  {| ParticleEmitter.width := int 65; ParticleEmitter.height := int 91 |}.

(** ** Operations on an emitter, in any order *)

Section Operations.
Context {num : Type} `{!JsNumber num}.
Variable Math : MathLib num.

(** Everything a client or the ticker does to an emitter. *)
Inductive Op :=
  | OEmit (count : option Z)
  | OBurst (count : option Z)
  | OFrame (deltaMS : num)
  | OSetEmitPosition (x y : num)
  | OSetBounds (w h : num)
  | OSetConfig (over : ParticleEmitter.Override num)
  | OStart
  | OStop.

Definition op (fuel : nat) (e : ParticleEmitter.t num) (o : Op)
  : Rand (option (ParticleEmitter.t num)) :=
  match o with
  | OEmit n => let* e' := ParticleEmitter.emit Math e n in rand_ret (Some e')
  | OBurst n => let* e' := ParticleEmitter.burst Math e n in rand_ret (Some e')
  | OFrame d => let* r := ParticleEmitter.update Math fuel e d in rand_ret (fst <$> r)
  | OSetEmitPosition x y => rand_ret (Some (ParticleEmitter.setEmitPosition e x y))
  | OSetBounds w h => rand_ret (Some (ParticleEmitter.setBounds e w h))
  | OSetConfig over => rand_ret (Some (ParticleEmitter.setConfig e over))
  | OStart => rand_ret (Some (ParticleEmitter.start e))
  | OStop => rand_ret (Some (ParticleEmitter.stop e))
  end.

Fixpoint ops (fuel : nat) (e : ParticleEmitter.t num) (os : list Op)
  : Rand (option (ParticleEmitter.t num)) :=
  match os with
  | [] => rand_ret (Some e)
  | o :: rest =>
      let* r := op fuel e o in
      match r with
      | Some e' => ops fuel e' rest
      | None => rand_ret None
      end
  end.

(** The operations that are no frame of the ticker, and those that
    leave the configuration alone. *)
Definition frameless (o : Op) : Prop :=
  match o with OFrame _ => False | _ => True end.

Definition keeps_config (o : Op) : Prop :=
  match o with OSetConfig _ => False | _ => True end.

End Operations.

(** The override that names no key: [{}]. *)
Definition no_override {num : Type} : ParticleEmitter.Override num :=
  ParticleEmitter.no_keys.


(** The time a run of frames adds up to, and what it is for an integer
    to lie between two others. *)
Definition total (deltas : list Q) : Q := foldr Qplus 0%Q deltas.

Definition between (a b x : Z) : Prop := Z.min a b ≤ x ≤ Z.max a b.

(** [Math.random()] returns numbers from 0 up to, not including, 1. *)
Definition unit_random (Math : MathLib Q) : Prop :=
  ∀ k, (0 <= Math_random Math k)%Q ∧ (Math_random Math k < 1)%Q.

(** A particle on its way from the colour [c0] to its end colour [ce]:
    each channel of its colour lies between those of the two. *)
Definition fading_colour (ce c0 : Z) (p : Particle.t Q) : Prop :=
  Particle.colorEnd p = Some ce ∧
  0 ≤ Particle.color p < 2 ^ 24 ∧
  between (red ce) (red c0) (red (Particle.color p)) ∧
  between (green ce) (green c0) (green (Particle.color p)) ∧
  between (blue ce) (blue c0) (blue (Particle.color p)) ∧
  (Particle.active p = true → (Particle.lifetime p <= Particle.maxLifetime p)%Q).

(** ** Pointer events of the rendered element *)

Section Pointer.
Context {num : Type} `{!JsNumber num}.

(** The events the element binds a handler to; a mouse move comes with
    the bounding rectangle the container has at that moment, when it is
    mounted. *)
Inductive Event :=
  | MouseMove (container : option (PremiumCard.Rect num)) (clientX clientY : num)
  | MouseEnter
  | MouseLeave
  | Click.

(** [onMouseMove], [onMouseEnter], [onMouseLeave] and [onClick] of the
    element. *)
Definition handle (p : PremiumCard.Props) (h : PremiumCard.Hover num) (ev : Event)
  : PremiumCard.Hover num * list PremiumCard.HostCall :=
  match ev with
  | MouseMove container clientX clientY =>
      PremiumCard.handleMouseMove container clientX clientY h
  | MouseEnter => PremiumCard.handleMouseEnter p h
  | MouseLeave => PremiumCard.handleMouseLeave p h
  | Click => PremiumCard.handleClick p h
  end.

(** Events one after the other, with the calls the host receives. *)
Fixpoint handle_all (p : PremiumCard.Props) (h : PremiumCard.Hover num) (evs : list Event)
  : PremiumCard.Hover num * list PremiumCard.HostCall :=
  match evs with
  | [] => (h, [])
  | ev :: rest =>
      let r := handle p h ev in
      let r' := handle_all p r.1 rest in
      (r'.1, r.2 ++ r'.2)
  end.

(** The events that are about the pointer's position or button only. *)
Definition stays (ev : Event) : Prop :=
  match ev with
  | MouseMove _ _ _ | Click => True
  | MouseEnter | MouseLeave => False
  end.

End Pointer.

(** ** The animation loop of a premium card *)

Module Animation.
Section Defs.
Context {num : Type} `{!JsNumber num}.
Variable Math : MathLib num.

(** An element of a [Float32Array]: what is stored is the number
    written, rounded to single precision. *)
Inductive Float32 := fround (x : num).

(** The uniforms of the holographic filter; [uMouse] is a
    [Float32Array] of two elements. *)
Record Uniforms := { uTime : num; uIntensity : num; uMouse : Float32 * Float32 }.

(** [createHolographicFilter()] *)
Definition createHolographicFilter : Uniforms :=
  {| uTime := int 0; uIntensity := dec 5 10;
     uMouse := (fround (dec 5 10), fround (dec 5 10)) |}.

(** What [animate] writes of the card container. *)
Record Transform := { rotation : num; skew : num * num }.

(** What [animate] reads and writes: [timeRef.current], the filters of
    [spriteRef.current] (none when there is no sprite or it has no
    filter) and [app.stage.cardContainer], when [loadCard] stored one. *)
Record t := {
  time : num;
  filters : list Uniforms;
  cardContainer : option Transform;
}.

(** One run of [animate]. [h] is the hover state the closure sees. *)
Definition animate (h : PremiumCard.Hover num) (a : t) : t :=
  let time := (time a + dec 16 1000)%js in
  let mousePos := PremiumCard.mousePos h in
  {| time := time;
     filters :=
       (λ u, {| uTime := time; uIntensity := uIntensity u;
                uMouse := (fround mousePos.1, fround mousePos.2) |})
         <$> filters a;
     cardContainer :=
       match cardContainer a with
       | Some c =>
           if PremiumCard.isHovered h then
             let tiltX := ((mousePos.2 - dec 5 10) * int (-15))%js in
             let tiltY := ((mousePos.1 - dec 5 10) * int 15)%js in
             Some {| rotation := (tiltY * dec 1 100)%js;
                     skew := ((tiltY * dec 5 1000)%js, (tiltX * dec 5 1000)%js) |}
           else
             let idle := (Math_sin Math (time * int 2) * dec 5 10)%js in
             Some {| rotation := (idle * dec 1 100)%js; skew := skew c |}
       | None => None
       end |}.

(** [startAnimationLoop(app)]: [animate] runs at once and then once per
    animation frame; [frames] counts the frames granted so far. *)
Definition startAnimationLoop (h : PremiumCard.Hover num) (frames : nat) (a : t) : t :=
  Nat.iter (S frames) (animate h) a.

End Defs.
Arguments Float32 : clear implicits.
Arguments Uniforms : clear implicits.
Arguments Transform : clear implicits.
Arguments t : clear implicits.
End Animation.

(** ** The image a card is drawn from *)

Module CardImage.
Import Stdlib.Strings.Ascii.

(** [s.replace(/\*/g, '_')] *)
Fixpoint replace_stars (s : string) : string :=
  match s with
  | EmptyString => EmptyString
  | String a rest =>
      String (if Ascii.eqb a "*" then "_"%char else a) (replace_stars rest)
  end.

(** [imageUrl] of [loadCard]. [image] is the card's [image] field and
    [cardBack] the prop of that name; either may be [undefined], which a
    template literal prints by name. *)
Definition imageUrl (c : PremiumCard.Card) (image cardBack : option string) (halfSize : bool)
  : option string :=
  if PremiumCard.facedown c then cardBack
  else Some ("/img/cards/" +:+ (if halfSize then "halfSize/" else "") +:+
             default "undefined" (replace_stars <$> image) +:+ "." +:+
             (if halfSize then "jpg" else "png")).

End CardImage.

(** ** Droppable *)

Module Droppable.

(** [validTargets] *)
Definition validTargets : gmap string (list string) :=
  list_to_map
    [ ("hand", ["play area"; "discard"; "deck"; "archives"; "purged"]);
      ("play area", ["discard"; "hand"; "deck"; "archives"; "purged"]);
      ("discard", ["archives"; "hand"; "deck"; "play area"; "purged"]);
      ("archives", ["hand"; "deck"; "play area"; "discard"; "purged"]);
      ("deck", ["hand"; "discard"; "archives"; "play area"; "purged"]);
      ("purged", ["deck"; "play area"; "discard"; "hand"; "archives"]) ].

(** The dragged item: [item.source] and the truthiness of
    [item.card.canPlay]. *)
Record Item := { item_source : string; item_canPlay : bool }.

(** [canDrop], as the truthiness of what it returns; [None] when it
    throws. [source] is the zone of the drop target. In manual mode
    [validTargets[item.source]] is read through the prototype: under an
    inherited name it is a truthy value without a [some] method, and
    calling it is a [TypeError]. *)
Definition canDrop (manualMode : bool) (source : string) (item : Item) : option bool :=
  if manualMode then
    match read validTargets (item_source item) with
    | Some (Own targets) => Some (existsb (λ target, bool_decide (target = source)) targets)
    | Some (Inherited _) => None
    | None => Some false
    end
  else if (bool_decide (item_source item = "hand") && bool_decide (source = "play area"))
          || (bool_decide (item_source item = "hand") && bool_decide (source = "discard"))
  then Some (item_canPlay item)
  else Some false.

(** The zones cards lie in. *)
Definition zones : list string :=
  ["hand"; "play area"; "discard"; "archives"; "deck"; "purged"].

End Droppable.

(** ** Vocabulary of the further properties *)

(** A frame that [fuel] turns of the loop of [update] cover at emission
    rate [rate]: its time is not negative and holds at most [fuel]
    emission intervals. The other operations have no loop. *)
Definition within_fuel (fuel : nat) (rate : Q) (o : Op (num := Q)) : Prop :=
  match o with
  | OFrame deltaMS =>
      (0 <= deltaMS)%Q ∧ (deltaMS / inject_Z 1000 * rate <= inject_Z (Z.of_nat fuel))%Q
  | _ => True
  end.

(** The pointer position lies in the unit square. *)
Definition in_unit_square (pos : Q * Q) : Prop :=
  (0 <= pos.1)%Q ∧ (pos.1 <= 1)%Q ∧ (0 <= pos.2)%Q ∧ (pos.2 <= 1)%Q.

(** A mouse move inside the rectangle of the container, when there is
    one. *)
Definition inside (ev : Event (num := Q)) : Prop :=
  match ev with
  | MouseMove (Some rect) clientX clientY =>
      (0 < PremiumCard.rect_width rect)%Q ∧ (0 < PremiumCard.rect_height rect)%Q ∧
      (PremiumCard.rect_left rect <= clientX)%Q ∧
      (clientX <= PremiumCard.rect_left rect + PremiumCard.rect_width rect)%Q ∧
      (PremiumCard.rect_top rect <= clientY)%Q ∧
      (clientY <= PremiumCard.rect_top rect + PremiumCard.rect_height rect)%Q
  | _ => True
  end.

(** A particle as the constructor and [reset] leave it: nothing that
    [||] guards is left falsy, and it is active at its full lifetime. *)
Definition well_started {num : Type} `{!JsNumber num} (p : Particle.t num) : Prop :=
  num_truthy (Particle.size p) = true ∧ num_truthy (Particle.lifetime p) = true ∧
  num_truthy (Particle.alpha p) = true ∧ num_truthy (Particle.alphaStart p) = true ∧
  Z_truthy (Particle.color p) = true ∧
  Particle.maxLifetime p = Particle.lifetime p ∧ Particle.active p = true.

(** ** Further sample environments *)

(** An emitter with a pool of two, the first particle alive and the
    second idle. *)
Definition two_particles : ParticleEmitter.t Q :=
  {| ParticleEmitter.config := ParticleEmitter.sparkle Math_Q;
     ParticleEmitter.particles :=
       [ Particle.new sparkle_sample;
         Particle.deactivate (Particle.new sparkle_sample) ];
     ParticleEmitter.emitTimer := 0%Q;
     ParticleEmitter.emitPosition :=
       {| ParticleEmitter.pt_x := 0%Q; ParticleEmitter.pt_y := 0%Q |};
     ParticleEmitter.bounds := card_bounds;
     ParticleEmitter.active := true |}.

(** The rectangle of a card container on the page, and a pointer that
    has entered it and moved. *)
Definition card_rect : PremiumCard.Rect Q :=
  {| PremiumCard.rect_left := 10%Q; PremiumCard.rect_top := 20%Q;
     PremiumCard.rect_width := 65%Q; PremiumCard.rect_height := 91%Q |}.

Definition hovering : PremiumCard.Hover Q :=
  {| PremiumCard.isHovered := true; PremiumCard.mousePos := (1 # 4, 3 # 4)%Q |}.

(** The animation state after [loadCard] drew a premium card. *)
Definition drawn : Animation.t Q :=
  {| Animation.time := 0%Q;
     Animation.filters := [Animation.createHolographicFilter];
     Animation.cardContainer :=
       Some {| Animation.rotation := 0%Q; Animation.skew := (0%Q, 0%Q) |} |}.

(** The tilt [animate] gives a card hovered at [hovering]. *)
Definition tilted : Animation.Transform Q :=
  {| Animation.rotation := (((1 # 4)%Q - dec 5 10) * int 15 * dec 1 100)%js;
     Animation.skew :=
       ((((1 # 4)%Q - dec 5 10) * int 15 * dec 5 1000)%js,
        (((3 # 4)%Q - dec 5 10) * int (-15) * dec 5 1000)%js) |}.

(** A configuration that names no key, and one whose size, lifetime and
    colour are zero. *)
Definition no_config {num : Type} : Particle.Config num :=
  {| Particle.cfg_x := None; Particle.cfg_y := None;
     Particle.cfg_vx := None; Particle.cfg_vy := None;
     Particle.cfg_size := None;
     Particle.cfg_color := None; Particle.cfg_colorEnd := None;
     Particle.cfg_alpha := None;
     Particle.cfg_alphaStart := None; Particle.cfg_alphaEnd := None;
     Particle.cfg_lifetime := None;
     Particle.cfg_gravity := None;
     Particle.cfg_active := None |}.

Definition zero_config : Particle.Config float :=
  {| Particle.cfg_x := None; Particle.cfg_y := None;
     Particle.cfg_vx := None; Particle.cfg_vy := None;
     Particle.cfg_size := Some 0%float;
     Particle.cfg_color := Some 0; Particle.cfg_colorEnd := None;
     Particle.cfg_alpha := None;
     Particle.cfg_alphaStart := Some 0%float; Particle.cfg_alphaEnd := None;
     Particle.cfg_lifetime := Some 0%float;
     Particle.cfg_gravity := None;
     Particle.cfg_active := None |}.

(** * Properties *)

(** ** The pool *)

Section Pool.
Context {num : Type} `{!JsNumber num}.
Variable Math : MathLib num.

Import ParticleEmitter.

Lemma new_particle_active (c : Particle.Config num) :
  Particle.active (Particle.new c) = true.
Proof. reflexivity. Qed.

Lemma reset_particle_active (p : Particle.t num) (c : Particle.Config num) :
  Particle.active (Particle.reset p c) = true.
Proof. reflexivity. Qed.

Lemma same_frame_refl (e : t num) : same_frame e e.
Proof. by repeat split. Qed.

Lemma same_frame_trans (e1 e2 e3 : t num) :
  same_frame e1 e2 → same_frame e2 e3 → same_frame e1 e3.
Proof.
  intros (?&?&?&?&?) (?&?&?&?&?). repeat split; congruence.
Qed.

Lemma initParticlePool_loop_spec (n : nat) :
  ∀ (e : t num) (i : nat),
    let e' := (initParticlePool_loop Math n e i).1 in
    same_frame e e' ∧
    length (particles e') = (length (particles e) + n)%nat ∧
    (Forall (λ p, ∃ c, p = Particle.new (with_active c false)) (particles e) →
     Forall (λ p, ∃ c, p = Particle.new (with_active c false)) (particles e')).
Proof.
  induction n as [|n IH]; intros e i; cbn [initParticlePool_loop].
  - cbn. split; [apply same_frame_refl|]. split; [lia | done].
  - unfold rand_bind.
    destruct (getRandomParticleConfig Math e i) as [c j].
    specialize (IH (set_particles e (particles e ++ [Particle.new (with_active c false)])) j).
    cbn [particles set_particles] in IH. destruct IH as (Hf & Hlen & Hact).
    split; [exact Hf|]. split.
    + rewrite Hlen, length_app. cbn. lia.
    + intros Hall. apply Hact. apply Forall_app. split; [done|].
      apply Forall_singleton. by exists c.
Qed.

Lemma emit_one_spec (e : t num) (i : nat) :
  let e' := (emit_one Math e i).1 in
  same_frame e e' ∧ length (particles e') = length (particles e).
Proof.
  unfold emit_one.
  destruct (list_find _ (particles e)) as [[k p]|].
  - unfold rand_bind. destruct (getRandomParticleConfig Math e i) as [c j].
    cbn [rand_ret fst particles set_particles].
    split; [by repeat split|]. by rewrite length_insert.
  - cbn. split; [apply same_frame_refl | done].
Qed.

Lemma emit_loop_spec (n : nat) :
  ∀ (e : t num) (i : nat),
    let e' := (emit_loop Math n e i).1 in
    same_frame e e' ∧ length (particles e') = length (particles e).
Proof.
  induction n as [|n IH]; intros e i; cbn [emit_loop].
  - cbn. split; [apply same_frame_refl | done].
  - unfold rand_bind. pose proof (emit_one_spec e i) as H1.
    destruct (emit_one Math e i) as [e1 j]. cbn in H1.
    destruct H1 as [Hf1 Hl1]. destruct (IH e1 j) as [Hf2 Hl2].
    split; [by eapply same_frame_trans | congruence].
Qed.

Lemma emit_spec (e : t num) (n : option Z) (i : nat) :
  let e' := (emit Math e n i).1 in
  same_frame e e' ∧ length (particles e') = length (particles e).
Proof. apply emit_loop_spec. Qed.

Lemma new_spec (cfg : option (Override num)) (i : nat) :
  let e := (new Math cfg i).1 in
  config e = merge (sparkle Math) (default (as_override (sparkle Math)) cfg) ∧
  length (particles e) = Z.to_nat (count (config e)) ∧
  Forall (λ p, ∃ c, p = Particle.new (with_active c false)) (particles e).
Proof.
  unfold new, initParticlePool.
  match goal with |- context [initParticlePool_loop Math ?n ?e0 i] =>
    destruct (initParticlePool_loop_spec n e0 i) as ((Hc&_) & Hlen & Hact)
  end.
  cbn in *. split; [exact Hc|]. split.
  - rewrite Hlen, Hc. cbn. done.
  - apply Hact. constructor.
Qed.

Lemma activeCount_all (e : t num) :
  Forall (λ p, Particle.active p = true) (particles e) →
  activeCount e = length (particles e).
Proof.
  unfold activeCount. induction 1 as [|p ps Hp _ IH]; [done|].
  rewrite filter_cons_True by done. cbn. by rewrite IH.
Qed.

Lemma activeCount_le (e : t num) : (activeCount e ≤ length (particles e))%nat.
Proof. apply length_filter. Qed.

Lemma update_loop_length (fuel : nat) (interval : num) :
  ∀ (e : t num) (turns i : nat),
    match (update_loop Math fuel interval e turns i).1 with
    | Some (e', _) => length (particles e') = length (particles e)
    | None => True
    end.
Proof.
  induction fuel as [|fuel IH]; intros e turns i; cbn [update_loop].
  - by destruct (emitTimer e >= interval)%js.
  - destruct (emitTimer e >= interval)%js; [|done].
    unfold rand_bind. pose proof (emit_spec e (Some 1) i) as [_ Hlen].
    destruct (emit Math e (Some 1) i) as [e1 j]. cbn [fst] in Hlen.
    specialize (IH (set_emitTimer e1 (emitTimer e1 - interval)%js) (S turns) j).
    destruct (update_loop Math fuel interval _ (S turns) j) as [[[e' n]|] j'];
      cbn in *; congruence.
Qed.

Lemma update_length (fuel : nat) (e : t num) (d : num) (i : nat) :
  match (update Math fuel e d i).1 with
  | Some (e', _) => length (particles e') = length (particles e)
  | None => True
  end.
Proof.
  unfold update. destruct (active e); cbn [negb]; [|done].
  unfold rand_bind.
  pose proof (update_loop_length fuel (int 1 / emitRate (config e))%js
                (set_emitTimer e (emitTimer e + d / int 1000)%js) O i) as H.
  cbn [config set_emitTimer] in *.
  destruct (update_loop Math fuel _ _ O i) as [[[e' n]|] j]; cbn in *; [|done].
  by rewrite length_fmap.
Qed.

Lemma op_length (fuel : nat) (e : t num) (o : Op) (i : nat) :
  match (op Math fuel e o i).1 with
  | Some e' => length (particles e') = length (particles e)
  | None => True
  end.
Proof.
  destruct o as [n|n|d|x y|w h|over| |]; cbn [op]; try done.
  - unfold rand_bind. pose proof (emit_spec e n i) as [_ H].
    by destruct (emit Math e n i).
  - unfold rand_bind, burst. pose proof (emit_spec e (Some (default 10 n)) i) as [_ H].
    by destruct (emit Math e _ i).
  - unfold rand_bind. pose proof (update_length fuel e d i) as H.
    by destruct (update Math fuel e d i) as [[[e' n]|] j].
Qed.

Lemma update_loop_config (fuel : nat) (interval : num) :
  ∀ (e : t num) (turns i : nat),
    match (update_loop Math fuel interval e turns i).1 with
    | Some (e', _) => config e' = config e
    | None => True
    end.
Proof.
  induction fuel as [|fuel IH]; intros e turns i; cbn [update_loop].
  - by destruct (emitTimer e >= interval)%js.
  - destruct (emitTimer e >= interval)%js; [|done].
    unfold rand_bind. pose proof (emit_spec e (Some 1) i) as [[Hc _] _].
    destruct (emit Math e (Some 1) i) as [e1 j]. cbn [fst] in Hc.
    specialize (IH (set_emitTimer e1 (emitTimer e1 - interval)%js) (S turns) j).
    destruct (update_loop Math fuel interval _ (S turns) j) as [[[e' n]|] j'];
      cbn in *; congruence.
Qed.

Lemma update_config (fuel : nat) (e : t num) (d : num) (i : nat) :
  match (update Math fuel e d i).1 with
  | Some (e', _) => config e' = config e
  | None => True
  end.
Proof.
  unfold update. destruct (active e); cbn [negb]; [|done].
  unfold rand_bind.
  pose proof (update_loop_config fuel (int 1 / emitRate (config e))%js
                (set_emitTimer e (emitTimer e + d / int 1000)%js) O i) as H.
  cbn [config set_emitTimer] in *.
  by destruct (update_loop Math fuel _ _ O i) as [[[e' n]|] j].
Qed.

Lemma op_config (fuel : nat) (e : t num) (o : Op) (i : nat) :
  keeps_config o →
  match (op Math fuel e o i).1 with
  | Some e' => config e' = config e
  | None => True
  end.
Proof.
  destruct o as [n|n|d|x y|w h|over| |]; cbn [op keeps_config]; try done.
  - intros _. unfold rand_bind. pose proof (emit_spec e n i) as [[H _] _].
    by destruct (emit Math e n i).
  - intros _. unfold rand_bind, burst.
    pose proof (emit_spec e (Some (default 10 n)) i) as [[H _] _].
    by destruct (emit Math e _ i).
  - intros _. unfold rand_bind. pose proof (update_config fuel e d i) as H.
    by destruct (update Math fuel e d i) as [[[e' n]|] j].
Qed.

Lemma op_returns (fuel : nat) (e : t num) (o : Op) (i : nat) :
  frameless o → is_Some (op Math fuel e o i).1.
Proof.
  destruct o as [n|n|d|x y|w h|over| |]; cbn [op frameless]; try done;
    intros _; unfold rand_bind; try by eexists.
  - by destruct (emit Math e n i).
  - by destruct (burst Math e n i).
Qed.

(** What a sequence of operations keeps of an emitter. *)
Lemma ops_pool (fuel : nat) (os : list Op) :
  ∀ (e : t num) (i : nat),
    (Forall frameless os → is_Some (ops Math fuel e os i).1) ∧
    match (ops Math fuel e os i).1 with
    | Some e' =>
        length (particles e') = length (particles e) ∧
        (Forall keeps_config os → config e' = config e)
    | None => True
    end.
Proof.
  induction os as [|o rest IH]; intros e i; cbn [ops].
  - cbn. split; [by eexists | done].
  - unfold rand_bind.
    pose proof (op_length fuel e o i) as Hl.
    pose proof (op_config fuel e o i) as Hc.
    pose proof (op_returns fuel e o i) as Hr.
    destruct (op Math fuel e o i) as [[e1|] j]; cbn [fst] in *.
    + destruct (IH e1 j) as [IHr IH']. split.
      * intros Hos. apply Forall_cons in Hos as [_ Hos]. by apply IHr.
      * destruct (ops Math fuel e1 rest j) as [[e'|] j']; cbn [fst] in *; [|done].
        destruct IH' as [IHl IHc]. split; [congruence|].
        intros Hos. apply Forall_cons in Hos as [Ho Hos].
        rewrite IHc by done. by apply Hc.
    + split; [|done]. intros Hos. apply Forall_cons in Hos as [Ho _].
      by destruct (Hr Ho).
Qed.

(** C1. Pool bound, over the emitter's whole life. For an emitter
    constructed with a count that is a count (not negative), after any
    sequence of operations ([emit] and [burst] with any arguments,
    frames of the ticker that age and retire particles, the setters,
    [start] and [stop]) the pool holds exactly the [count] particles it
    was constructed with and at most [count] of them are active: no
    operation adds a particle to the pool. A sequence without frames
    always returns (a frame returns when its loop has fuel enough), and
    unless [setConfig] is among the operations the configured count is
    still the one of the construction. *)
Theorem pool_bound (cfg : option (Override num)) (fuel : nat) (os : list Op) (i i' : nat) :
  let e0 := (new Math cfg i).1 in
  0 ≤ count (config e0) →
  (Forall frameless os → is_Some (ops Math fuel e0 os i').1) ∧
  match (ops Math fuel e0 os i').1 with
  | Some e =>
      Z.of_nat (length (particles e)) = count (config e0) ∧
      Z.of_nat (activeCount e) ≤ count (config e0) ∧
      (Forall keeps_config os → config e = config e0)
  | None => True
  end.
Proof.
  intros e0 Hcount.
  destruct (new_spec cfg i) as (_ & Hlen & _). fold e0 in Hlen.
  destruct (ops_pool fuel os e0 i') as [Hr H]. split; [exact Hr|].
  destruct (ops Math fuel e0 os i') as [[e|] j]; cbn [fst] in *; [|done].
  destruct H as [Hl Hc]. pose proof (activeCount_le e) as Hle.
  split; [|split; [|exact Hc]]; clearbody e0; lia.
Qed.

(** C4, as the code has it: after the constructor has run
    [initParticlePool], the pool holds [count] particles and every one
    of them is active and drawn: [new Particle] sets [active] to [true]
    whatever the [active: false] of its argument. *)
Theorem initParticlePool_all_active (cfg : option (Override num)) (i : nat) :
  let e := (new Math cfg i).1 in
  length (particles e) = Z.to_nat (count (config e)) ∧
  Forall (λ p, Particle.active p = true ∧ Particle.graphics p = Particle.draw p) (particles e) ∧
  activeCount e = length (particles e).
Proof.
  intros e. destruct (new_spec cfg i) as (_ & Hlen & Hact). fold e in Hlen, Hact.
  split; [exact Hlen|]. split.
  - eapply Forall_impl; [exact Hact|]. by intros p [c ->].
  - apply activeCount_all. eapply Forall_impl; [exact Hact|]. by intros p [c ->].
Qed.

End Pool.

(** ** Emission cadence, in exact arithmetic *)

Section CadenceExact.
Variable Math : MathLib Q.

Import ParticleEmitter.

Lemma Qfloor_unique (x : Q) (n : Z) :
  (inject_Z n <= x)%Q → (x < inject_Z (n + 1))%Q → Qfloor x = n.
Proof.
  intros Hlo Hhi.
  pose proof (Qfloor_le x) as H1. pose proof (Qlt_floor x) as H2.
  assert (Qfloor x < n + 1)%Z.
  { rewrite Zlt_Qlt. eapply Qle_lt_trans; eauto. }
  assert (n < Qfloor x + 1)%Z.
  { rewrite Zlt_Qlt. eapply Qle_lt_trans; eauto. }
  lia.
Qed.

Lemma inject_nat_S (k : nat) :
  (inject_Z (Z.of_nat (S k)) == inject_Z (Z.of_nat k) + 1)%Q.
Proof. rewrite Nat2Z.inj_succ. unfold Z.succ. by rewrite inject_Z_plus. Qed.

(** The loop of [update] leaves after [k] turns when the timer holds [k]
    whole intervals, and takes them off the timer. *)
Lemma update_loop_exact (interval : Q) (k : nat) :
  (0 < interval)%Q →
  ∀ (fuel : nat) (e : t Q) (turns i : nat),
    (inject_Z (Z.of_nat k) * interval <= emitTimer e)%Q →
    (emitTimer e < (inject_Z (Z.of_nat k) + 1) * interval)%Q →
    (k ≤ fuel)%nat →
    ∃ e' i',
      update_loop Math fuel interval e turns i = (Some (e', (turns + k)%nat), i') ∧
      config e' = config e ∧ active e' = active e ∧
      (emitTimer e' == emitTimer e - inject_Z (Z.of_nat k) * interval)%Q.
Proof.
  intros Hpos. induction k as [|k IH]; intros fuel e turns i Hlo Hhi Hfuel.
  - change (inject_Z (Z.of_nat 0)) with 0%Q in *.
    assert (Hc : (emitTimer e >= interval)%js = false).
    { cbn. apply not_true_is_false. rewrite Qle_bool_iff. lra. }
    exists e, i. split.
    + destruct fuel; cbn [update_loop]; rewrite Hc; cbn; by rewrite Nat.add_0_r.
    + repeat split; try done. cbn. lra.
  - rewrite inject_nat_S in Hlo, Hhi.
    assert (Hc : (emitTimer e >= interval)%js = true).
    { cbn. rewrite Qle_bool_iff.
      assert (0 <= inject_Z (Z.of_nat k) * interval)%Q.
      { apply Qmult_le_0_compat; [|lra].
        change 0%Q with (inject_Z 0). rewrite <- Zle_Qle. lia. }
      lra. }
    destruct fuel as [|fuel]; [lia|].
    cbn [update_loop]. rewrite Hc. unfold rand_bind.
    pose proof (emit_spec Math e (Some 1) i) as Hemit.
    destruct (emit Math e (Some 1) i) as [e1 j]. cbn [fst] in Hemit.
    destruct Hemit as ((Hcfg & Htimer & _ & _ & Hact) & _).
    destruct (IH fuel (set_emitTimer e1 (emitTimer e1 - interval)%js) (S turns) j)
      as (e' & i' & Hrun & Hcfg' & Hact' & Htimer').
    + cbn. rewrite Htimer. lra.
    + cbn. rewrite Htimer. lra.
    + lia.
    + exists e', i'. split; [|split; [|split]].
      * rewrite Hrun. do 3 f_equal. lia.
      * by rewrite Hcfg'.
      * by rewrite Hact'.
      * rewrite Htimer'. cbn. rewrite Htimer, inject_nat_S. lra.
Qed.

(** A non-negative time holds a whole number of intervals. *)
Lemma whole_intervals (interval t : Q) :
  (0 < interval)%Q → (0 <= t)%Q →
  ∃ k : nat,
    (inject_Z (Z.of_nat k) * interval <= t)%Q ∧
    (t < (inject_Z (Z.of_nat k) + 1) * interval)%Q.
Proof.
  intros Hpos Ht.
  assert (Hx : (t / interval * interval == t)%Q) by (field; lra).
  assert (H0 : (0 <= Qfloor (t / interval))%Z).
  { change 0%Z with (Qfloor 0). apply Qfloor_resp_le.
    apply Qle_shift_div_l; lra. }
  exists (Z.to_nat (Qfloor (t / interval))). rewrite Z2Nat.id by done.
  pose proof (Qfloor_le (t / interval)) as Hlo.
  pose proof (Qlt_floor (t / interval)) as Hhi.
  rewrite inject_Z_plus in Hhi. change (inject_Z 1) with 1%Q in Hhi.
  split.
  - rewrite <- Hx at 2. apply Qmult_le_compat_r; lra.
  - rewrite <- Hx at 1. apply Qmult_lt_compat_r; lra.
Qed.

Lemma intervals_lt (interval : Q) (k fuel : nat) (t : Q) :
  (0 < interval)%Q →
  (inject_Z (Z.of_nat k) * interval <= t)%Q →
  (t < (inject_Z (Z.of_nat fuel) + 1) * interval)%Q →
  (k ≤ fuel)%nat.
Proof.
  intros Hpos Hlo Hhi.
  assert (H : (inject_Z (Z.of_nat k) * interval
               < (inject_Z (Z.of_nat fuel) + 1) * interval)%Q) by lra.
  apply Qmult_lt_r in H; [|done].
  change 1%Q with (inject_Z 1) in H. rewrite <- inject_Z_plus in H.
  rewrite <- Zlt_Qlt in H. lia.
Qed.

(** One frame: the timed emissions are the whole intervals the timer
    holds after [delta] has been added, and the rest stays on the
    timer. *)
Lemma update_exact (fuel : nat) (e : t Q) (d : Q) (i : nat) :
  active e = true →
  (0 < 1 / emitRate (config e))%Q →
  (0 <= emitTimer e)%Q → (0 <= d)%Q →
  (emitTimer e + d / inject_Z 1000
   < (inject_Z (Z.of_nat fuel) + 1) * (1 / emitRate (config e)))%Q →
  ∃ (k : nat) e' i',
    update Math fuel e d i = (Some (e', k), i') ∧
    config e' = config e ∧ active e' = true ∧
    (emitTimer e' == emitTimer e + d / inject_Z 1000
                     - inject_Z (Z.of_nat k) * (1 / emitRate (config e)))%Q ∧
    (0 <= emitTimer e')%Q ∧
    (emitTimer e' < 1 / emitRate (config e))%Q.
Proof.
  intros Hact Hpos Ht Hd Hfuel.
  set (interval := (1 / emitRate (config e))%Q) in *.
  assert (Hdelta : (0 <= d / inject_Z 1000)%Q).
  { apply Qle_shift_div_l; [reflexivity | lra]. }
  destruct (whole_intervals interval (emitTimer e + d / inject_Z 1000)%Q)
    as (k & Hlo & Hhi); [done | lra |].
  pose proof (intervals_lt interval k fuel _ Hpos Hlo Hfuel) as Hk.
  unfold update. rewrite Hact. cbn [negb]. unfold rand_bind.
  destruct (update_loop_exact interval k Hpos fuel
              (set_emitTimer e (emitTimer e + d / int 1000)%js) O i)
    as (e2 & i2 & Hrun & Hcfg & Hact2 & Htimer); [exact Hlo | exact Hhi | exact Hk |].
  cbn [config set_emitTimer].
  change (int 1 / emitRate (config e))%js with interval. rewrite Hrun.
  eexists k, _, i2. split; [reflexivity|].
  cbn [config active emitTimer set_particles set_emitTimer] in *.
  change (int 1000) with (inject_Z 1000) in *.
  change (@num_add Q _) with Qplus in *. change (@num_div Q _) with Qdiv in *.
  repeat split; [done | congruence | rewrite Htimer; reflexivity
                | rewrite Htimer; lra | rewrite Htimer; lra].
Qed.

(** A run of frames: the timed emissions of all frames together are the
    whole intervals in the time on the timer plus the time elapsed. *)
Lemma frames_exact (fuel : nat) (deltasMS : list Q) :
  ∀ (e : t Q) (acc i : nat),
    active e = true →
    (0 < 1 / emitRate (config e))%Q →
    (0 <= emitTimer e)%Q →
    (emitTimer e < 1 / emitRate (config e))%Q →
    Forall (λ d, 0 <= d)%Q deltasMS →
    (emitTimer e + elapsed deltasMS
     < (inject_Z (Z.of_nat fuel) + 1) * (1 / emitRate (config e)))%Q →
    ∃ (n : nat) e' i',
      frames Math fuel e deltasMS acc i = (Some (e', (acc + n)%nat), i') ∧
      (inject_Z (Z.of_nat n) * (1 / emitRate (config e))
       <= emitTimer e + elapsed deltasMS)%Q ∧
      (emitTimer e + elapsed deltasMS
       < (inject_Z (Z.of_nat n) + 1) * (1 / emitRate (config e)))%Q.
Proof.
  induction deltasMS as [|d rest IH]; intros e acc i Hact Hpos Ht Hlt Hds Hfuel.
  - change (elapsed []) with 0%Q in *.
    exists O, e, i. change (inject_Z (Z.of_nat 0)) with 0%Q.
    split; [cbn; by rewrite Nat.add_0_r|]. split; lra.
  - apply Forall_cons in Hds as [Hd Hrest].
    change (elapsed (d :: rest)) with (d / inject_Z 1000 + elapsed rest)%Q in *.
    assert (Hel : (0 <= elapsed rest)%Q).
    { clear -Hrest. induction Hrest as [|x l Hx _ IHl]; [discriminate|].
      change (elapsed (x :: l)) with (x / inject_Z 1000 + elapsed l)%Q.
      assert (0 <= x / inject_Z 1000)%Q by (apply Qle_shift_div_l; [reflexivity | lra]).
      lra. }
    destruct (update_exact fuel e d i Hact Hpos Ht Hd)
      as (k & e1 & i1 & Hup & Hcfg & Hact1 & Htimer & Ht1 & Hlt1); [lra|].
    destruct (IH e1 (acc + k)%nat i1) as (n & e' & i' & Hrun & Hlo & Hhi);
      rewrite ?Hcfg; try done.
    { rewrite Htimer.
      assert (0 <= inject_Z (Z.of_nat k) * (1 / emitRate (config e)))%Q.
      { apply Qmult_le_0_compat; [|lra].
        change 0%Q with (inject_Z 0). rewrite <- Zle_Qle. lia. }
      lra. }
    rewrite Hcfg in Hlo, Hhi.
    exists (k + n)%nat, e', i'. split.
    + cbn [frames]. unfold rand_bind. rewrite Hup, Hrun. do 3 f_equal. lia.
    + rewrite Nat2Z.inj_add, inject_Z_plus. rewrite Htimer in Hlo, Hhi.
      split; lra.
Qed.

(** C2, in exact arithmetic: for an emitter that is running, with an
    empty timer and emission rate [r > 0], fed frames of arbitrary
    non-negative lengths that add up to [T] seconds, [update] returns on
    every frame (given fuel for the longest catch-up) and the timed
    emissions of all frames together are [floor (T * r)], however [T] is
    cut into frames. *)
Theorem emission_cadence_exact (e : t Q) (deltasMS : list Q) (fuel i : nat) :
  active e = true →
  (emitTimer e == 0)%Q →
  (0 < emitRate (config e))%Q →
  Forall (λ d, 0 <= d)%Q deltasMS →
  let n := Z.to_nat (Qfloor (elapsed deltasMS * emitRate (config e))) in
  (n ≤ fuel)%nat →
  ∃ e' i', frames Math fuel e deltasMS O i = (Some (e', n), i').
Proof.
  intros Hact Ht0 Hr Hds n Hfuel.
  set (r := emitRate (config e)) in *. set (T := elapsed deltasMS) in *.
  assert (Hpos : (0 < 1 / r)%Q) by (apply Qlt_shift_div_l; lra).
  assert (HIr : ∀ q, (q * (1 / r) * r == q)%Q) by (intros q; field; lra).
  assert (HrI : ∀ q, (q * r * (1 / r) == q)%Q) by (intros q; field; lra).
  assert (HT : (0 <= T)%Q).
  { subst T. clear -Hds. induction Hds as [|x l Hx _ IHl]; [discriminate|].
    change (elapsed (x :: l)) with (x / inject_Z 1000 + elapsed l)%Q.
    assert (0 <= x / inject_Z 1000)%Q by (apply Qle_shift_div_l; [reflexivity | lra]).
    lra. }
  assert (H0 : (0 <= Qfloor (T * r))%Z).
  { change 0%Z with (Qfloor 0). apply Qfloor_resp_le.
    apply Qmult_le_0_compat; lra. }
  destruct (frames_exact fuel deltasMS e O i) as (m & e' & i' & Hrun & Hlo & Hhi);
    try done; fold r; fold T.
  - lra.
  - lra.
  - rewrite Ht0, Qplus_0_l.
    pose proof (Qlt_floor (T * r)) as Hfl.
    assert (Hle : (inject_Z (Qfloor (T * r) + 1) <= inject_Z (Z.of_nat fuel) + 1)%Q).
    { change 1%Q with (inject_Z 1). rewrite <- inject_Z_plus, <- Zle_Qle. lia. }
    rewrite <- (HrI T). apply Qmult_lt_compat_r; [done | lra].
  - fold r T in Hlo, Hhi. rewrite Ht0, Qplus_0_l in Hlo, Hhi.
    exists e', i'. rewrite Hrun. do 3 f_equal. cbn [Nat.add].
    assert (Qfloor (T * r) = Z.of_nat m) as Hm; [|subst n; rewrite Hm; lia].
    apply Qfloor_unique.
    + rewrite <- (HIr (inject_Z (Z.of_nat m))). apply Qmult_le_compat_r; lra.
    + rewrite inject_Z_plus. change (inject_Z 1) with 1%Q.
      rewrite <- (HIr (inject_Z (Z.of_nat m) + 1)%Q). apply Qmult_lt_compat_r; lra.
Qed.

End CadenceExact.

(** ** Fading, in exact arithmetic *)

Section FadeExact.
Import Particle.

Lemma between_in_range (a b x : Q) :
  ((a <= x ∧ x <= b) ∨ (b <= x ∧ x <= a))%Q →
  (Qmin a b <= x)%Q ∧ (x <= Qmax a b)%Q.
Proof.
  intros Hx. destruct (Qlt_le_dec a b) as [Hab|Hab].
  - rewrite Q.min_l, Q.max_r by lra. lra.
  - rewrite Q.min_r, Q.max_l by lra. lra.
Qed.

Lemma interpolation_in_range (aS aE ratio : Q) :
  (0 <= ratio)%Q → (ratio <= 1)%Q →
  (Qmin aS aE <= aE + (aS - aE) * ratio)%Q ∧
  (aE + (aS - aE) * ratio <= Qmax aS aE)%Q.
Proof.
  intros H0 H1. apply between_in_range.
  destruct (Qlt_le_dec aS aE) as [Hab|Hab]; [left | right]; nra.
Qed.

Lemma fading_reset (p : Particle.t Q) (c : Particle.Config Q) :
  fading (reset p c).
Proof.
  split; [|intros _; apply Qle_refl].
  apply between_in_range. cbn [reset updateGraphics alpha alphaStart alphaEnd].
  destruct (Qlt_le_dec (num_or (cfg_alphaStart c) (int 1)) (num_or (cfg_alphaEnd c) (int 0)));
    [left | right]; lra.
Qed.

Lemma fading_update (p : Particle.t Q) (d : Q) :
  (0 <= d)%Q → fading p → fading (update p d).
Proof.
  intros Hd [Hrange Hlife]. unfold update.
  destruct (active p) eqn:Hact; cbn [negb]; [|by split; [|rewrite Hact]].
  specialize (Hlife eq_refl).
  destruct (lifetime (advance p d) <= int 0)%js eqn:Hdead.
  - split; [exact Hrange | by cbn].
  - cbn in Hdead. apply not_true_iff_false in Hdead. rewrite Qle_bool_iff in Hdead.
    change (inject_Z 0) with 0%Q in Hdead.
    assert (Hl : (0 < lifetime p - d)%Q) by lra.
    assert (Hm : (0 < maxLifetime p)%Q) by lra.
    split; [|intros _; cbn; lra].
    unfold alpha_in_range. cbn.
    apply interpolation_in_range.
    + apply Qle_shift_div_l; lra.
    + apply Qle_shift_div_r; lra.
Qed.

Lemma fading_steps (deltas : list Q) :
  ∀ p : Particle.t Q,
    Forall (λ d, 0 <= d)%Q deltas → fading p → fading (steps p deltas).
Proof.
  induction deltas as [|d ds IH]; intros p Hds Hp; [done|].
  apply Forall_cons in Hds as [Hd Hds].
  cbn. apply IH; [done|]. by apply fading_update.
Qed.

(** C3, as the code has it, in exact arithmetic: a particle activated by
    [reset] and advanced by frames of non-negative length has, after
    every step, its alpha between [alphaStart] and [alphaEnd]; a step
    that leaves it active sets alpha to the interpolation at the new
    life ratio; the step that ends its life (and every later one) leaves
    alpha as it was. *)
Theorem alpha_within_bounds (p0 : Particle.t Q) (c : Particle.Config Q)
    (deltas : list Q) (d : Q) :
  Forall (λ d, 0 <= d)%Q deltas → (0 <= d)%Q →
  let p := steps (reset p0 c) deltas in
  let p' := update p d in
  alpha_in_range p' ∧
  (active p' = true →
   (alpha p' == alphaEnd p' + (alphaStart p' - alphaEnd p') * (lifetime p' / maxLifetime p'))%Q) ∧
  (active p' = false → alpha p' = alpha p).
Proof.
  intros Hds Hd p p'.
  assert (Hp : fading p) by (apply fading_steps; [done | apply fading_reset]).
  split; [apply (fading_update p d Hd Hp)|].
  subst p'. unfold update.
  destruct (active p) eqn:Hact; cbn [negb]; [|split; [congruence | done]].
  destruct (lifetime (advance p d) <= int 0)%js; split; intros H.
  - cbn in H. discriminate.
  - reflexivity.
  - cbn. reflexivity.
  - cbn in H. congruence.
Qed.
End FadeExact.

(** ** Colour interpolation *)

Section ColourFacts.

Lemma to_int32_small (z : Z) : - 2 ^ 31 ≤ z < 2 ^ 31 → to_int32 z = z.
Proof. intros Hz. unfold to_int32. rewrite Z.mod_small; lia. Qed.

Lemma testbit_small (b n m : Z) : 0 ≤ b < 2 ^ n → 0 ≤ n ≤ m → Z.testbit b m = false.
Proof.
  intros Hb Hn. rewrite <- (Z.mod_small b (2 ^ n)) by lia.
  apply Z.mod_pow2_bits_high. lia.
Qed.

(** Bits that do not overlap add up. *)
Lemma lor_disjoint (a b n : Z) :
  0 ≤ n → 0 ≤ b < 2 ^ n → Z.lor (a * 2 ^ n) b = a * 2 ^ n + b.
Proof.
  intros Hn Hb.
  assert (Hland : Z.land (a * 2 ^ n) b = 0).
  { apply Z.bits_inj'. intros m Hm. rewrite Z.land_spec, Z.bits_0.
    destruct (Z.lt_ge_cases m n).
    - rewrite Z.mul_pow2_bits_low by lia. reflexivity.
    - rewrite (testbit_small b n m) by lia. apply andb_false_r. }
  rewrite <- Z.lxor_lor by exact Hland. symmetry. by apply Z.add_nocarry_lxor.
Qed.

Lemma js_and_255 (a : Z) : - 2 ^ 31 ≤ a < 2 ^ 31 → js_and a 255 = a mod 256.
Proof.
  intros Ha. unfold js_and. rewrite !to_int32_small by lia.
  change 255 with (Z.ones 8). rewrite Z.land_ones by lia. reflexivity.
Qed.

Lemma js_shr_div (c n : Z) : - 2 ^ 31 ≤ c < 2 ^ 31 → 0 ≤ n → js_shr c n = c / 2 ^ n.
Proof.
  intros Hc Hn. unfold js_shr. rewrite to_int32_small by lia.
  by rewrite Z.shiftr_div_pow2.
Qed.

Lemma pack_channels (r g b : Z) :
  0 ≤ r < 256 → 0 ≤ g < 256 → 0 ≤ b < 256 →
  pack r g b = r * 65536 + g * 256 + b.
Proof.
  intros Hr Hg Hb. unfold pack, js_or, js_shl.
  rewrite (to_int32_small r), (to_int32_small g), (to_int32_small b) by lia.
  rewrite !Z.shiftl_mul_pow2 by lia.
  change (2 ^ 16) with 65536. change (2 ^ 8) with 256.
  rewrite (to_int32_small (r * 65536)) by lia.
  rewrite (to_int32_small (g * 256)) by lia.
  rewrite (to_int32_small (r * 65536)) by lia.
  rewrite (to_int32_small (g * 256)) by lia.
  change (r * 65536) with (r * 2 ^ 16) at 1.
  rewrite (lor_disjoint r (g * 256) 16) by lia.
  rewrite (to_int32_small (r * 2 ^ 16 + g * 256)) by lia.
  replace (r * 2 ^ 16 + g * 256) with ((r * 256 + g) * 2 ^ 8) by lia.
  rewrite (lor_disjoint _ b 8) by lia. lia.
Qed.

Ltac div_lia := Z.to_euclidean_division_equations; lia.

Lemma channels_of_colour (c : Z) :
  0 ≤ c < 2 ^ 24 →
  red c = c / 65536 ∧ green c = c / 256 mod 256 ∧ blue c = c mod 256.
Proof.
  intros Hc. unfold red, green, blue.
  rewrite (js_shr_div c 16), (js_shr_div c 8) by lia.
  change (2 ^ 16) with 65536. change (2 ^ 8) with 256.
  change (2 ^ 24) with 16777216 in Hc.
  rewrite (js_and_255 (c / 65536)), (js_and_255 (c / 256)), (js_and_255 c)
    by (change (2 ^ 31) with 2147483648; div_lia).
  repeat split. div_lia.
Qed.

Lemma channels_range (c : Z) :
  0 ≤ c < 2 ^ 24 → 0 ≤ red c < 256 ∧ 0 ≤ green c < 256 ∧ 0 ≤ blue c < 256.
Proof.
  intros Hc. destruct (channels_of_colour c Hc) as (-> & -> & ->).
  change (2 ^ 24) with 16777216 in Hc. div_lia.
Qed.

Lemma pack_of_channels (c : Z) :
  0 ≤ c < 2 ^ 24 → pack (red c) (green c) (blue c) = c.
Proof.
  intros Hc. destruct (channels_range c Hc) as (Hr & Hg & Hb).
  rewrite pack_channels by done.
  destruct (channels_of_colour c Hc) as (-> & -> & ->).
  change (2 ^ 24) with 16777216 in Hc. div_lia.
Qed.

Lemma channels_of_pack (r g b : Z) :
  0 ≤ r < 256 → 0 ≤ g < 256 → 0 ≤ b < 256 →
  0 ≤ pack r g b < 2 ^ 24 ∧
  red (pack r g b) = r ∧ green (pack r g b) = g ∧ blue (pack r g b) = b.
Proof.
  intros Hr Hg Hb. rewrite pack_channels by done.
  assert (Hc : 0 ≤ r * 65536 + g * 256 + b < 2 ^ 24) by lia.
  split; [exact Hc|].
  destruct (channels_of_colour _ Hc) as (-> & -> & ->). div_lia.
Qed.

(** [lerpColor] interpolates channel by channel and packs the results in
    the order red, green, blue: in any number model, at any ratio. *)
Lemma lerpColor_pack {num : Type} `{!JsNumber num} (c1 c2 : Z) (ratio : num) :
  lerpColor c1 c2 ratio =
  pack (lerpChannel (red c1) (red c2) ratio)
       (lerpChannel (green c1) (green c2) ratio)
       (lerpChannel (blue c1) (blue c2) ratio).
Proof. unfold lerpColor, pack, red, green, blue. reflexivity. Qed.

Lemma inject_Z_minus (a b : Z) : inject_Z (a - b) = (inject_Z a - inject_Z b)%Q.
Proof. unfold Z.sub. by rewrite inject_Z_plus, inject_Z_opp. Qed.

Lemma lerpChannel_exact (a b : Z) (ratio : Q) :
  lerpChannel a b ratio = Qfloor (lerp a b ratio + (1 # 2)).
Proof. reflexivity. Qed.

Lemma lerpChannel_exact_nearest (a b : Z) (ratio : Q) :
  nearest (lerpChannel a b ratio) (lerp a b ratio).
Proof.
  rewrite lerpChannel_exact. set (x := lerp a b ratio). unfold nearest.
  pose proof (Qfloor_le (x + (1#2))) as H1. pose proof (Qlt_floor (x + (1#2))) as H2.
  rewrite inject_Z_plus in H2. change (inject_Z 1) with 1%Q in H2.
  apply Qabs_Qle_condition. split; lra.
Qed.

Lemma lerpChannel_exact_range (a b : Z) (ratio : Q) :
  0 ≤ a < 256 → 0 ≤ b < 256 → (0 <= ratio)%Q → (ratio <= 1)%Q →
  0 ≤ lerpChannel a b ratio < 256.
Proof.
  intros Ha Hb H0 H1. rewrite lerpChannel_exact.
  set (x := lerp a b ratio).
  assert (Hx : (0 <= x)%Q ∧ (x <= 255)%Q).
  { subst x. unfold lerp. rewrite inject_Z_minus.
    assert (0 <= inject_Z a)%Q by (change 0%Q with (inject_Z 0); rewrite <- Zle_Qle; lia).
    assert (inject_Z a <= 255)%Q by (change 255%Q with (inject_Z 255); rewrite <- Zle_Qle; lia).
    assert (0 <= inject_Z b)%Q by (change 0%Q with (inject_Z 0); rewrite <- Zle_Qle; lia).
    assert (inject_Z b <= 255)%Q by (change 255%Q with (inject_Z 255); rewrite <- Zle_Qle; lia).
    split; nra. }
  split.
  - change 0 with (Qfloor 0). apply Qfloor_resp_le. lra.
  - assert (Qfloor (x + (1#2)) ≤ Qfloor (255 + (1#2))%Q) by (apply Qfloor_resp_le; lra).
    change (Qfloor (255 + (1#2))%Q) with 255 in *. lia.
Qed.

Lemma lerpChannel_exact_one (a b : Z) : lerpChannel a b (int 1 : Q) = b.
Proof.
  rewrite lerpChannel_exact. unfold lerp. change (int 1 : Q) with 1%Q.
  apply Qfloor_unique; rewrite ?inject_Z_plus, inject_Z_minus;
    change (inject_Z 1) with 1%Q; lra.
Qed.

Lemma lerpChannel_exact_zero (a b : Z) : lerpChannel a b (int 0 : Q) = a.
Proof.
  rewrite lerpChannel_exact. unfold lerp. change (int 0 : Q) with 0%Q.
  apply Qfloor_unique; rewrite ?inject_Z_plus, inject_Z_minus;
    change (inject_Z 1) with 1%Q; lra.
Qed.

Lemma forallb_seqZ (f : Z → bool) (lo n : Z) :
  forallb f (seqZ lo n) = true → ∀ z, lo ≤ z < lo + n → f z = true.
Proof.
  rewrite forallb_forall. intros H z Hz. apply H.
  apply list_elem_of_In, elem_of_seqZ. lia.
Qed.

(** On doubles the endpoints are checked by running the code on all
    pairs of channel values. *)
Lemma float_endpoints_checked :
  forallb (λ a, forallb (endpoints_ok a) (seqZ 0 256)) (seqZ 0 256) = true.
Proof. vm_compute. reflexivity. Qed.

Lemma lerpChannel_float_endpoints (a b : Z) :
  0 ≤ a < 256 → 0 ≤ b < 256 →
  lerpChannel a b (int 1 : float) = b ∧ lerpChannel a b (int 0 : float) = a.
Proof.
  intros Ha Hb.
  pose proof (forallb_seqZ _ 0 256 float_endpoints_checked a ltac:(lia)) as H.
  cbv beta in H.
  pose proof (forallb_seqZ _ 0 256 H b ltac:(lia)) as H'.
  unfold endpoints_ok in H'. apply andb_true_iff in H' as [H1 H0].
  split; by apply Z.eqb_eq.
Qed.

(** [Math.round] on doubles: the floor of the double plus one half,
    taken exactly, which is an integer nearest to the double. *)
Lemma Qfloor_plus_half (n : Z) (d : positive) :
  Qfloor ((n # d) + (1 # 2)) = (2 * n + Zpos d) / (2 * Zpos d).
Proof. unfold Qfloor, Qplus. cbn [Qnum Qden]. f_equal; lia. Qed.

Lemma nearest_floor_half (n : Z) (d : positive) :
  nearest ((2 * n + Zpos d) / (2 * Zpos d)) (n # d).
Proof.
  unfold nearest. apply Qabs_Qle_condition.
  pose proof (Z.div_mod (2 * n + Zpos d) (2 * Zpos d) ltac:(lia)) as Hdm.
  pose proof (Z.mod_pos_bound (2 * n + Zpos d) (2 * Zpos d) ltac:(lia)) as Hb.
  set (r := (2 * n + Zpos d) / (2 * Zpos d)) in *.
  set (m := (2 * n + Zpos d) mod (2 * Zpos d)) in *.
  unfold Qle, Qminus, Qplus, Qopp, inject_Z. cbn [Qnum Qden].
  split; nia.
Qed.

Lemma float_round_nearest (x : float) (v : Q) :
  float_value x = Some v →
  float_round x = Qfloor (v + (1 # 2)) ∧ nearest (float_round x) v.
Proof.
  unfold float_value, float_round.
  destruct (Prim2SF x) as [s| | |s m e]; try done.
  - intros [= <-]. split; [reflexivity|]. unfold nearest. cbn. discriminate.
  - intros [= <-]. destruct (0 <=? e) eqn:He.
    + set (N := (if s then Z.neg m else Z.pos m) * 2 ^ e).
      pose proof (Qfloor_plus_half N 1) as H1. pose proof (nearest_floor_half N 1) as H2.
      assert (HN : (2 * N + 1) / (2 * 1) = N).
      { symmetry. apply (Z.div_unique _ _ _ 1); lia. }
      change (Z.pos 1) with 1 in *. rewrite HN in H1, H2. by split.
    + set (n := if s then Z.neg m else Z.pos m).
      assert (Hp : 0 < 2 ^ (- e)) by (apply Z.pow_pos_nonneg; lia).
      pose proof (Qfloor_plus_half n (Z.to_pos (2 ^ (- e)))) as H1.
      pose proof (nearest_floor_half n (Z.to_pos (2 ^ (- e)))) as H2.
      rewrite Z2Pos.id in H1, H2 by done. by split.
Qed.

(** C9, as the code has it. For 24-bit colours [c1] and [c2],
    [lerpColor] returns [c2] at ratio 1 and [c1] at ratio 0, on doubles
    as in exact arithmetic; and at every ratio between 0 and 1, computed
    in exact arithmetic, the result is a 24-bit colour whose red, green
    and blue channels are each the integer nearest to the linear
    interpolation of the same channel of [c1] and [c2], whatever the
    other channels and whichever of the two is larger. On doubles, at
    every ratio, the result packs the three channels in the order red,
    green, blue, and a channel is the integer nearest to the double that
    its interpolation computes (the floor of that double plus one
    half), when that double is finite. *)
Theorem lerpColor_endpoints_and_channels (c1 c2 : Z) :
  0 ≤ c1 < 2 ^ 24 → 0 ≤ c2 < 2 ^ 24 →
  (lerpColor c1 c2 (int 1 : float) = c2 ∧ lerpColor c1 c2 (int 0 : float) = c1) ∧
  (lerpColor c1 c2 (int 1 : Q) = c2 ∧ lerpColor c1 c2 (int 0 : Q) = c1) ∧
  (∀ ratio : Q, (0 <= ratio)%Q → (ratio <= 1)%Q →
    let c := lerpColor c1 c2 ratio in
    0 ≤ c < 2 ^ 24 ∧
    (red c = lerpChannel (red c1) (red c2) ratio ∧
     nearest (red c) (lerp (red c1) (red c2) ratio)) ∧
    (green c = lerpChannel (green c1) (green c2) ratio ∧
     nearest (green c) (lerp (green c1) (green c2) ratio)) ∧
    (blue c = lerpChannel (blue c1) (blue c2) ratio ∧
     nearest (blue c) (lerp (blue c1) (blue c2) ratio))) ∧
  (∀ ratio : float,
    lerpColor c1 c2 ratio =
      pack (lerpChannel (red c1) (red c2) ratio)
           (lerpChannel (green c1) (green c2) ratio)
           (lerpChannel (blue c1) (blue c2) ratio) ∧
    ∀ (a b : Z) (v : Q),
      float_value (int a + int (b - a) * ratio)%js = Some v →
      lerpChannel a b ratio = Qfloor (v + (1 # 2)) ∧ nearest (lerpChannel a b ratio) v).
Proof.
  intros H1 H2.
  destruct (channels_range c1 H1) as (Hr1 & Hg1 & Hb1).
  destruct (channels_range c2 H2) as (Hr2 & Hg2 & Hb2).
  split; [|split; [|split]]; cycle 3.
  { intros ratio. split; [apply lerpColor_pack|].
    intros a b v Hv. by apply float_round_nearest. }
  - rewrite !lerpColor_pack.
    destruct (lerpChannel_float_endpoints _ _ Hr1 Hr2) as [-> ->].
    destruct (lerpChannel_float_endpoints _ _ Hg1 Hg2) as [-> ->].
    destruct (lerpChannel_float_endpoints _ _ Hb1 Hb2) as [-> ->].
    by rewrite !pack_of_channels.
  - rewrite !lerpColor_pack, !lerpChannel_exact_one, !lerpChannel_exact_zero.
    by rewrite !pack_of_channels.
  - intros ratio Hlo Hhi c. subst c. rewrite lerpColor_pack.
    pose proof (lerpChannel_exact_range _ _ ratio Hr1 Hr2 Hlo Hhi) as Hr.
    pose proof (lerpChannel_exact_range _ _ ratio Hg1 Hg2 Hlo Hhi) as Hg.
    pose proof (lerpChannel_exact_range _ _ ratio Hb1 Hb2 Hlo Hhi) as Hb.
    destruct (channels_of_pack _ _ _ Hr Hg Hb) as (Hc & -> & -> & ->).
    split; [exact Hc|].
    repeat split; apply lerpChannel_exact_nearest.
Qed.

End ColourFacts.

(** ** The house catalogue *)

Section HouseFacts.
Context {num : Type} `{!JsNumber num}.
Variable Math : MathLib num.

Import ParticleEmitter.

(** A preset passed to the constructor is the configuration: the
    sparkle preset it is merged over has no key the preset lacks. *)
Lemma merge_preset (p : Config num) : merge (sparkle Math) (as_override p) = p.
Proof. destruct p as [? ? ? ? ? [c|] ? ? ? ?]; reflexivity. Qed.

Lemma read_own {A : Type} (o : gmap string A) (key : string) (a : A) :
  o !! key = Some a → read o key = Some (Own a).
Proof. intros H. unfold read. by rewrite H. Qed.

Lemma read_inherited {A : Type} (o : gmap string A) (key : string) :
  o !! key = None → key ∈ Object_prototype → read o key = Some (Inherited key).
Proof. intros H Hk. unfold read. by rewrite H, bool_decide_eq_true_2. Qed.

Lemma read_undefined {A : Type} (o : gmap string A) (key : string) :
  o !! key = None → key ∉ Object_prototype → read o key = None.
Proof. intros H Hk. unfold read. by rewrite H, bool_decide_eq_false_2. Qed.

(** The configuration of a house emitter: the preset the house is
    mapped to, and the sparkle preset for every other name. *)
Lemma config_createHouseEmitter (house : string) (b : Bounds num) (i : nat) :
  config (createHouseEmitter Math house b i).1 =
  default (sparkle Math) (HOUSE_PARTICLES !! house ≫= λ name,
    PARTICLE_PRESETS Math !! (if negb (String.eqb name "") then name else "sparkle")).
Proof.
  unfold createHouseEmitter. unfold rand_bind.
  match goal with |- context [new Math ?cfg i] =>
    destruct (new_spec Math cfg i) as (Hc & _); destruct (new Math cfg i) as [e j]
  end.
  cbn [fst rand_ret setBounds setEmitPosition config] in Hc |- *. rewrite Hc. clear Hc.
  unfold read.
  destruct (HOUSE_PARTICLES !! house) as [name|]; cbn [mbind option_bind default].
  - destruct (PARTICLE_PRESETS Math !! _) as [preset|]; cbn [default]; [apply merge_preset|].
    by destruct (bool_decide _).
  - destruct (bool_decide (house ∈ Object_prototype)); reflexivity.
Qed.

Lemma HOUSE_PARTICLES_unknown (house : string) :
  house ∉ known_houses → HOUSE_PARTICLES !! house = None.
Proof. intros Hh. by apply not_elem_of_list_to_map_1. Qed.

Lemma HOUSE_COLORS_unknown (house : string) :
  house ∉ known_houses → PremiumCard.HOUSE_COLORS !! house = None.
Proof. intros Hh. by apply not_elem_of_list_to_map_1. Qed.

Lemma HOUSE_PARTICLES_known (house : string) :
  house ∈ known_houses →
  ∃ name preset,
    HOUSE_PARTICLES !! house = Some name ∧
    PARTICLE_PRESETS Math !! name = Some preset ∧
    (if negb (String.eqb name "") then name else "sparkle") = name.
Proof.
  intros Hh. unfold known_houses in Hh.
  repeat (apply elem_of_cons in Hh as [->|Hh];
    [eexists _, _; split; [reflexivity|]; split; reflexivity|]).
  by apply elem_of_nil in Hh.
Qed.

Lemma HOUSE_COLORS_known (house : string) :
  house ∈ known_houses → is_Some (PremiumCard.HOUSE_COLORS !! house).
Proof.
  intros Hh. unfold known_houses in Hh.
  repeat (apply elem_of_cons in Hh as [->|Hh]; [eexists; reflexivity|]).
  by apply elem_of_nil in Hh.
Qed.

(** C7, as the code has it. For a card of house [house]: when the house
    is in the known set, the emitter made for it has the preset and the
    card the theme the tables map it to. When it is outside, the emitter
    has the sparkle preset; the card's colours are the theme of shadows,
    unless the house is a name [Object.prototype] defines: then
    [HOUSE_COLORS[house]] is the inherited value, the [||] does not
    replace it, and the frame of a premium card, stroked in its
    [primary], throws. *)
Theorem house_fallback (house : string) (p : PremiumCard.Props)
    (b : Bounds num) (i : nat) :
  PremiumCard.card p ≫= PremiumCard.house = Some house →
  let e := (createHouseEmitter Math house b i).1 in
  (house ∉ known_houses →
   config e = sparkle Math ∧
   (house ∉ Object_prototype →
    PremiumCard.houseColors p = Own PremiumCard.theme_shadows) ∧
   (house ∈ Object_prototype →
    PremiumCard.houseColors p = Inherited house ∧
    (PremiumCard.isPremium p = true →
     ∀ sz : PremiumCard.CardSize num,
       PremiumCard.createCardFrame p sz (PremiumCard.houseColors p) = None))) ∧
  (house ∈ known_houses →
   ∃ name preset theme,
     HOUSE_PARTICLES !! house = Some name ∧
     PARTICLE_PRESETS Math !! name = Some preset ∧
     config e = preset ∧
     PremiumCard.HOUSE_COLORS !! house = Some theme ∧
     PremiumCard.houseColors p = Own theme).
Proof.
  intros Hp e. subst e. rewrite config_createHouseEmitter.
  unfold PremiumCard.houseColors. rewrite Hp.
  change (PremiumCard.key_of (Some house)) with house.
  split.
  - intros Hh. rewrite HOUSE_PARTICLES_unknown by done.
    split; [reflexivity|]. split.
    + intros Hk. by rewrite read_undefined by auto using HOUSE_COLORS_unknown.
    + intros Hk. rewrite read_inherited by auto using HOUSE_COLORS_unknown.
      split; [reflexivity|]. intros Hprem sz.
      unfold PremiumCard.createCardFrame. by rewrite Hprem.
  - intros Hh.
    destruct (HOUSE_PARTICLES_known house Hh) as (name & preset & H1 & H2 & H3).
    destruct (HOUSE_COLORS_known house Hh) as [theme Ht].
    exists name, preset, theme. rewrite H1. cbn [mbind option_bind].
    rewrite H3, H2, (read_own _ _ _ Ht). by repeat split.
Qed.

End HouseFacts.

(** ** The card surface *)

Section CardFacts.
Context {num : Type} `{!JsNumber num}.

Import PremiumCard.

(** Reads [default d v] at a known [v]. *)
Ltac simpl_default :=
  repeat match goal with
  | |- context [default ?d (Some ?x)] => change (default d (Some x)) with x
  | |- context [default ?d None] => change (default d None) with d
  end.

Lemma CARD_SIZES_unknown {A : Type} `{!JsNumber A} (s : string) :
  s ∉ size_names → (CARD_SIZES (num:=A)) !! s = None.
Proof. intros Hs. by apply not_elem_of_list_to_map_1. Qed.

(** No table lists a name that [Object.prototype] defines. *)
Lemma inherited_names_unlisted :
  Forall (λ key, (key ∉ size_names) ∧ (key ∉ known_houses) ∧ (key ∉ token_types))
         Object_prototype.
Proof.
  unfold Object_prototype, size_names, known_houses, token_types.
  repeat constructor; rewrite ?elem_of_cons, elem_of_nil; intros H;
    repeat (destruct H as [H|H]; [discriminate H|]); exact H.
Qed.

Lemma inherited_not_size (s : string) : s ∈ Object_prototype → s ∉ size_names.
Proof.
  intros Hs. pose proof inherited_names_unlisted as H.
  rewrite Forall_forall in H. by destruct (H s Hs).
Qed.

Lemma inherited_not_token (s : string) : s ∈ Object_prototype → s ∉ token_types.
Proof.
  intros Hs. pose proof inherited_names_unlisted as H.
  rewrite Forall_forall in H. by destruct (H s Hs) as (_ & _ & ?).
Qed.

(** C10, as the code has it. A size prop that is not given, or names
    neither a preset nor a property of [Object.prototype], resolves to
    the normal profile: the surface is 65 by 91 at scale 1. A size prop
    that names a property of [Object.prototype] resolves to the value
    inherited under that name, which [||] does not replace: the surface
    has no width and no height, and the scale is missing. *)
Theorem cardSize_fallback (p : Props) :
  ((∀ s, size p = Some s → (s ∉ size_names) ∧ (s ∉ Object_prototype)) →
   cardSize (num:=num) p = size_normal ∧
   surface (num:=num) p = (Some (int 65), Some (int 91)) ∧
   scale (cardSize (num:=num) p) = Some (int 1)) ∧
  (∀ s, size p = Some s → s ∈ Object_prototype →
   surface (num:=num) p = (None, None) ∧
   scale (cardSize (num:=num) p) = None).
Proof.
  split.
  - intros Hs.
    assert (H : cardSize (num:=num) p = size_normal).
    { unfold cardSize. destruct (size p) as [s|] eqn:E; cbn [default]; [|reflexivity].
      destruct (Hs s eq_refl) as [H1 H2].
      by rewrite (read_undefined _ _ (CARD_SIZES_unknown s H1) H2). }
    unfold surface. by rewrite H.
  - intros s Hs Hk. unfold surface, cardSize. rewrite Hs. cbn [default].
    by rewrite (read_inherited _ _
                  (CARD_SIZES_unknown s (inherited_not_size s Hk)) Hk).
Qed.

(** *** Tokens *)

Lemma tokenColors_truthy (ty : string) (colour : Z) :
  tokenColors !! ty = Some colour → Z_truthy colour = true ∧ ty ∈ token_types.
Proof.
  intros H. apply elem_of_list_to_map_2 in H.
  repeat (apply elem_of_cons in H as [H|H];
    [injection H as -> ->; split; [reflexivity | set_solver]|]).
  by apply elem_of_nil in H.
Qed.

(** The loop either throws, at an entry with a positive count under an
    inherited name, or lays the recognized entries out by their index. *)
Lemma tokenLoop_spec {A : Type} `{!JsNumber A} (sz : CardSize A)
    (entries : list (string * Z)) :
  ∀ index : nat,
    tokenLoop sz entries index =
    if existsb inherits entries then None
    else Some (imap (λ i cc, tokenDisc sz (index + i) cc.1 cc.2) (omap recognized entries)).
Proof.
  induction entries as [|[ty n] rest IH]; intros index; [done|].
  cbn [tokenLoop omap list_omap existsb]. unfold recognized at 1, inherits at 1.
  cbn [fst snd]. unfold read.
  destruct (0 <? n) eqn:Hn; cbn [andb].
  - destruct (tokenColors !! ty) as [colour|] eqn:E.
    + destruct (tokenColors_truthy _ _ E) as [-> Hty].
      rewrite bool_decide_eq_false_2 by (intros Hk; by apply (inherited_not_token ty)).
      cbn [orb]. rewrite IH. destruct (existsb inherits rest); [done|].
      cbn [mbind option_bind imap fst snd]. rewrite Nat.add_0_r. do 2 f_equal.
      apply imap_ext. intros i cc _. cbn. f_equal. lia.
    + destruct (bool_decide (ty ∈ Object_prototype)); [done|]. cbn [orb]. apply IH.
  - destruct (tokenColors !! ty); apply IH.
Qed.

Lemma existsb_inherits (entries : list (string * Z)) :
  existsb inherits entries = true ↔
  ∃ ty n, (ty, n) ∈ entries ∧ 0 < n ∧ ty ∈ Object_prototype.
Proof.
  rewrite existsb_exists. unfold inherits. split.
  - intros ([ty n] & Hin & H). apply andb_true_iff in H as [Hn Hk]. cbn in Hn, Hk.
    exists ty, n. rewrite list_elem_of_In. split; [done|].
    split; [lia | by apply bool_decide_eq_true in Hk].
  - intros (ty & n & Hin & Hn & Hk). exists (ty, n). rewrite <- list_elem_of_In.
    split; [done|]. cbn. apply andb_true_iff. split; [lia | by apply bool_decide_eq_true].
Qed.

Lemma existsb_inherits_false (entries : list (string * Z)) :
  (∀ ty n, (ty, n) ∈ entries → 0 < n → ty ∉ Object_prototype) →
  existsb inherits entries = false.
Proof.
  intros H. apply not_true_is_false. rewrite existsb_inherits.
  intros (ty & n & Hin & Hn & Hk). by apply (H ty n).
Qed.

(** An entry gets a disc exactly when its count is positive and its
    type is one of the seven that have a colour. *)
Lemma recognized_iff (ty : string) (n : Z) :
  is_Some (recognized (ty, n)) ↔ 0 < n ∧ ty ∈ token_types.
Proof.
  unfold recognized. cbn [fst snd]. split.
  - destruct (tokenColors !! ty) as [colour|] eqn:E; [|by intros [? ?]].
    destruct (tokenColors_truthy _ _ E) as [-> Hty]. rewrite andb_true_r.
    destruct (0 <? n) eqn:En; [|by intros [? ?]]. intros _. split; [lia | done].
  - intros [Hn Hty].
    assert (∃ colour, tokenColors !! ty = Some colour) as [colour E].
    { unfold token_types in Hty.
      repeat (apply elem_of_cons in Hty as [->|Hty]; [eexists; reflexivity|]).
      by apply elem_of_nil in Hty. }
    rewrite E. destruct (tokenColors_truthy _ _ E) as [-> _].
    assert ((0 <? n) = true) as -> by lia. by eexists.
Qed.

(** C8, as the code has it. An entry of the token map is recognized
    when its count is positive and its type is one of the seven that
    have a colour. When no entry with a positive count is filed under a
    name of [Object.prototype], the token overlay holds one disc for
    each recognized entry, in the order of the entries, and nothing
    else; disc [i] shows the count on the colour of its type and sits at
    column [i mod 3], row [i / 3] of the grid. For
    [{ damage: 2, amber: 3, unknownType: 5 }] these are two discs, at
    column 0 and column 1 of row 0. An entry with a positive count
    under a name of [Object.prototype] is not skipped: drawing its disc
    throws, as for [{ damage: 2, constructor: 5 }]. *)
Theorem token_overlay_grid (c : Card) (sz : CardSize num) :
  let entries := default [] (tokens c) in
  (∀ ty n, is_Some (recognized (ty, n)) ↔ 0 < n ∧ ty ∈ token_types) ∧
  ((∀ ty n, (ty, n) ∈ entries → 0 < n → ty ∉ Object_prototype) →
   createTokenOverlay c sz = Some (Tokens (tokenGrid sz entries))) ∧
  ((∃ ty n, (ty, n) ∈ entries ∧ 0 < n ∧ ty ∈ Object_prototype) →
   createTokenOverlay c sz = None) ∧
  length (tokenGrid sz entries) = length (omap recognized entries) ∧
  (∀ (i : nat) colour count,
     omap recognized entries !! i = Some (colour, count) →
     ∃ d, tokenGrid sz entries !! i = Some d ∧
          td_color d = colour ∧ td_text d = pretty count ∧
          (td_x d, td_y d) = grid_position sz (Z.of_nat i mod 3) (Z.of_nat i / 3)) ∧
  (∃ d0 d1,
    createTokenOverlay (with_tokens c [("damage", 2); ("amber", 3); ("unknownType", 5)]) sz
      = Some (Tokens [d0; d1]) ∧
    (td_color d0 = 0xff0000 ∧ td_text d0 = "2" ∧ (td_x d0, td_y d0) = grid_position sz 0 0) ∧
    (td_color d1 = 0xffd700 ∧ td_text d1 = "3" ∧ (td_x d1, td_y d1) = grid_position sz 1 0)) ∧
  createTokenOverlay (with_tokens c [("damage", 2); ("constructor", 5)]) sz = None.
Proof.
  intros entries. split; [apply recognized_iff|].
  split; [|split; [|split; [|split; [|split]]]].
  - intros H. unfold createTokenOverlay, tokenGrid. fold entries.
    by rewrite tokenLoop_spec, existsb_inherits_false.
  - intros H. apply existsb_inherits in H.
    unfold createTokenOverlay. fold entries. by rewrite tokenLoop_spec, H.
  - unfold tokenGrid. by rewrite length_imap.
  - intros i colour count Hi. unfold tokenGrid.
    rewrite list_lookup_imap, Hi. eexists. split; [reflexivity|]. by cbn.
  - eexists _, _. unfold createTokenOverlay. split; [reflexivity|]. by cbn.
  - reflexivity.
Qed.

(** *** Layers *)

(** The scene of a card whose texture loads: the fallback card when a
    statement of the [try] block throws, the card container
    otherwise. *)
Lemma buildScene_layers (p : Props) (o : Outcome) (c : Card) :
  match buildScene (num:=num) p o c with
  | Some stage =>
      scene_layers stage =
        [LShadow; LArt; LBaseFrame]
        ++ (if bool_decide (type c = Some "creature") && negb (facedown c)
            then [LStats] else [])
        ++ (if bool_decide (default [] (tokens c) ≠ []) then [LToken] else [])
  | None => True
  end.
Proof.
  unfold buildScene.
  destruct (isPremium p && negb (facedown c) && negb (filterBuilds o)); [done|].
  destruct (createCardFrame p (cardSize p) (houseColors p)) as [frame|] eqn:Hframe;
    cbn [mbind option_bind]; [|done].
  assert (layer_of frame = Some LBaseFrame) as Hlayer.
  { unfold createCardFrame in Hframe.
    destruct (isPremium p); [destruct (houseColors p); [|done]|];
      by injection Hframe as <-. }
  destruct (tokens c) as [[|t ts]|]; cbn [default mbind option_bind].
  - unfold scene_layers. cbn [mbind list_bind app omap list_omap layer_of].
    rewrite Hlayer.
    rewrite (bool_decide_eq_false_2 (@nil (string * Z) ≠ [])) by (by intros H; apply H).
    destruct (bool_decide (type c = Some "creature") && negb (facedown c));
      reflexivity.
  - destruct (createTokenOverlay c (cardSize p)) as [overlay|] eqn:Hover;
      cbn [mbind option_bind]; [|done].
    assert (layer_of overlay = Some LToken) as Hlayer'.
    { unfold createTokenOverlay in Hover.
      destruct (tokenLoop _ _ _); [|done]. by injection Hover as <-. }
    unfold scene_layers. cbn [mbind list_bind app omap list_omap layer_of].
    rewrite Hlayer. rewrite (bool_decide_eq_true_2 (t :: ts ≠ [])) by done.
    destruct (bool_decide (type c = Some "creature") && negb (facedown c));
      cbn [app omap list_omap layer_of createStatsOverlay]; rewrite ?Hlayer';
      reflexivity.
  - unfold scene_layers. cbn [mbind list_bind app omap list_omap layer_of].
    rewrite Hlayer.
    rewrite (bool_decide_eq_false_2 (@nil (string * Z) ≠ [])) by (by intros H; apply H).
    destruct (bool_decide (type c = Some "creature") && negb (facedown c));
      reflexivity.
Qed.

Lemma houseColors_inherited (p : Props) (c : Card) :
  card p = Some c →
  (∃ key, houseColors p = Inherited key) ↔
  (∃ h, house c = Some h ∧ h ∈ Object_prototype).
Proof.
  intros Hc. unfold houseColors. rewrite Hc. cbn [mbind option_bind].
  destruct (house c) as [h|].
  - change (key_of (Some h)) with h. unfold read. destruct (HOUSE_COLORS !! h) as [theme|] eqn:E; cbn [default].
    + split; [by intros [? ?]|]. intros (h' & [= <-] & Hk).
      exfalso. destruct (decide (h ∈ known_houses)) as [Hh|Hh].
      * pose proof inherited_names_unlisted as H. rewrite Forall_forall in H.
        by destruct (H h Hk) as (_ & ? & _).
      * by rewrite HOUSE_COLORS_unknown in E.
    + destruct (bool_decide (h ∈ Object_prototype)) eqn:Hk; cbn [default].
      * apply bool_decide_eq_true in Hk. split; [by exists h | by exists h].
      * apply bool_decide_eq_false in Hk.
        split; [by intros [? ?] | by intros (h' & [= <-] & ?)].
  - split; [by intros [? ?] | by intros (? & ? & ?)].
Qed.

(** The statements of the [try] block throw exactly when the shader of
    a premium face-up card cannot be built, or the card is premium and
    its house is a name of [Object.prototype], or a token entry with a
    positive count is filed under such a name. *)
Lemma buildScene_throws (p : Props) (o : Outcome) (c : Card) :
  card p = Some c →
  buildScene (num:=num) p o c = None ↔
  (isPremium p = true ∧ facedown c = false ∧ filterBuilds o = false) ∨
  (isPremium p = true ∧ ∃ h, house c = Some h ∧ h ∈ Object_prototype) ∨
  (∃ ty n, (ty, n) ∈ default [] (tokens c) ∧ 0 < n ∧ ty ∈ Object_prototype).
Proof.
  intros Hc. rewrite <- (houseColors_inherited p c Hc), <- existsb_inherits.
  unfold buildScene, createCardFrame, createTokenOverlay.
  destruct (isPremium p), (facedown c), (filterBuilds o); cbn [andb negb];
    try (split; [intros _; by left | done]).
  all: destruct (houseColors p) as [theme|key]; cbn [mbind option_bind];
    try (split; [intros _; right; left; split; [done | by eexists] | done]).
  all: destruct (tokens c) as [[|t ts]|]; simpl_default;
    cbn [existsb mbind option_bind];
    try (split; [done | by intros [(? & ? & ?)|[(? & ? & ?)|?]]]).
  all: rewrite tokenLoop_spec; change (inherits t || existsb inherits ts)
         with (existsb inherits (t :: ts));
    destruct (existsb inherits (t :: ts)); cbn [fmap option_fmap option_map mbind option_bind];
    try (split; [intros _; by right; right | done]);
    try (split; [done | by intros [(? & ? & ?)|[(? & ? & ?)|?]]]).
Qed.

(** C5, as the code has it: the layers of the scene [loadCard] builds
    are, in composition order, a subsequence of shadow, art, frame,
    stats, token. When the card is there and nothing throws they are
    shadow, art and frame, then stats for a creature that is not face
    down, then tokens when the token map is not empty: the frame is
    composed after the art. When the texture does not load or a
    statement throws, the scene is the fallback card, which has none of
    the layers. *)
Theorem layers_in_composition_order (p : Props) (o : Outcome) :
  scene_layers (loadCard (num:=num) p o []) `sublist_of` composition_order ∧
  ∀ c, card p = Some c →
    let layers :=
      [LShadow; LArt; LBaseFrame]
      ++ (if bool_decide (type c = Some "creature") && negb (facedown c)
          then [LStats] else [])
      ++ (if bool_decide (default [] (tokens c) ≠ []) then [LToken] else []) in
    (scene_layers (loadCard (num:=num) p o []) = layers ∨
     scene_layers (loadCard (num:=num) p o []) = []) ∧
    (textureLoads o = true →
     (isPremium p && negb (facedown c) = true → filterBuilds o = true) →
     (isPremium p = true → ∀ h, house c = Some h → h ∉ Object_prototype) →
     (∀ ty n, (ty, n) ∈ default [] (tokens c) → 0 < n → ty ∉ Object_prototype) →
     scene_layers (loadCard (num:=num) p o []) = layers) ∧
    (textureLoads o = false ∨
     (isPremium p = true ∧ facedown c = false ∧ filterBuilds o = false) ∨
     (isPremium p = true ∧ ∃ h, house c = Some h ∧ h ∈ Object_prototype) ∨
     (∃ ty n, (ty, n) ∈ default [] (tokens c) ∧ 0 < n ∧ ty ∈ Object_prototype) →
     loadCard (num:=num) p o [] = createFallbackCard p [] ∧
     scene_layers (loadCard (num:=num) p o []) = []).
Proof.
  assert (Hcases : ∀ c, card p = Some c →
    let layers :=
      [LShadow; LArt; LBaseFrame]
      ++ (if bool_decide (type c = Some "creature") && negb (facedown c)
          then [LStats] else [])
      ++ (if bool_decide (default [] (tokens c) ≠ []) then [LToken] else []) in
    (scene_layers (loadCard (num:=num) p o []) = layers ∧
     textureLoads o = true ∧ is_Some (buildScene (num:=num) p o c)) ∨
    (scene_layers (loadCard (num:=num) p o []) = [] ∧
     (textureLoads o = false ∨ buildScene (num:=num) p o c = None))).
  { intros c Hc layers. unfold loadCard. rewrite Hc.
    destruct (textureLoads o); cbn [negb]; [|right; split; [reflexivity | by left]].
    pose proof (buildScene_layers p o c) as Hl.
    destruct (buildScene p o c) as [stage|]; cbn [default].
    - left. split; [exact Hl|]. split; [done | by eexists].
    - right. split; [reflexivity | by right]. }
  split.
  - destruct (card p) as [c|] eqn:Hc; [|unfold loadCard; rewrite Hc; apply sublist_nil_l].
    destruct (Hcases c eq_refl) as [(-> & _)|(-> & _)]; [|apply sublist_nil_l].
    unfold composition_order.
    destruct (bool_decide (type c = Some "creature") && negb (facedown c));
      destruct (bool_decide (default [] (tokens c) ≠ [])); cbn [app];
      repeat first [apply sublist_nil | apply sublist_skip | apply sublist_cons].
  - intros c Hc layers. split; [|split].
    + destruct (Hcases c Hc) as [(H & _)|(H & _)]; [by left | by right].
    + intros Hload Hfilter Hhouse Htokens.
      destruct (Hcases c Hc) as [(H & _)|(_ & [H|H])]; [done | congruence |].
      exfalso. apply (buildScene_throws p o c Hc) in H as [(Hp & Hf & Hb)|[(Hp & h & Hh & Hk)|(ty & n & Hin & Hn & Hk)]].
      * rewrite Hfilter in Hb; [done|]. by rewrite Hp, Hf.
      * by apply (Hhouse Hp h Hh).
      * by apply (Htokens ty n Hin Hn).
    + intros H. unfold loadCard. rewrite Hc.
      destruct (textureLoads o); cbn [negb]; [|by split].
      destruct H as [H|H]; [done|].
      apply (buildScene_throws p o c Hc) in H. rewrite H. by split.
Qed.

(** *** Pointer events *)

(** C6, as the code has it: entering sets the hover flag and calls
    [onMouseOver], when the host gave one, with the single argument
    [{ image: card, size: 'normal' }]; leaving clears the flag, centres
    the pointer and calls [onMouseOut], when given, with no argument;
    moving records the pointer, as the fractions of the container's
    width and height it is at, keeps the hover flag and calls nothing
    (and does nothing while the container is not mounted). *)
Theorem hover_callbacks (p : Props) (h : Hover num) (container : option (Rect num))
    (clientX clientY : num) :
  ((handleMouseEnter p h).1 = {| isHovered := true; mousePos := mousePos h |} ∧
   ∀ c, c ∈ (handleMouseEnter p h).2 ↔
        onMouseOver p = true ∧
        c = {| callback := OnMouseOver;
               args := [Object [("image", VCard (card p)); ("size", VString "normal")]] |}) ∧
  ((handleMouseLeave p h).1 = {| isHovered := false; mousePos := (dec 5 10, dec 5 10) |} ∧
   ∀ c, c ∈ (handleMouseLeave p h).2 ↔
        onMouseOut p = true ∧ c = {| callback := OnMouseOut; args := [] |}) ∧
  ((handleMouseMove container clientX clientY h).1 =
     match container with
     | Some rect =>
         {| isHovered := isHovered h;
            mousePos := (((clientX - rect_left rect) / rect_width rect)%js,
                         ((clientY - rect_top rect) / rect_height rect)%js) |}
     | None => h
     end ∧
   isHovered (handleMouseMove container clientX clientY h).1 = isHovered h ∧
   (handleMouseMove container clientX clientY h).2 = []).
Proof.
  split; [|split].
  - split; [reflexivity|]. intros c. cbn.
    destruct (onMouseOver p).
    + rewrite list_elem_of_singleton. split; [by intros -> | by intros [_ ->]].
    + rewrite elem_of_nil. split; [done | by intros [? _]].
  - split; [reflexivity|]. intros c. cbn.
    destruct (onMouseOut p).
    + rewrite list_elem_of_singleton. split; [by intros -> | by intros [_ ->]].
    + rewrite elem_of_nil. split; [done | by intros [? _]].
  - unfold handleMouseMove. by destruct container.
Qed.

End CardFacts.

(** ** The claims at concrete inputs *)

Section Instances.
Import ParticleEmitter.

(** C1 at the sparkle emitter, on doubles. All fifteen particles are
    active at first. Over twenty frames of 100 ms they run out of life
    and the timed emission recycles some: five are active. An emit of
    three makes them eight, a burst of four twelve; a short frame keeps
    them; a burst of ten finds three idle particles to activate and an
    emit of a hundred none. The pool holds fifteen particles
    throughout. *)
Lemma pool_bound_witness :
  let e0 := (new Math_float None O).1 in
  let active os := activeCount <$> (ops Math_float 20 e0 os 90%nat).1 in
  let frames := replicate 20 (OFrame (int 100 : float)) in
  let os := frames ++ [OEmit (Some 3); OBurst (Some 4); OFrame (int 16); OBurst None;
                       OEmit (Some 100)] in
  0 ≤ count (config e0) ∧
  (active [] = Some 15%nat ∧
   active frames = Some 5%nat ∧
   active (frames ++ [OEmit (Some 3)]) = Some 8%nat ∧
   active (frames ++ [OEmit (Some 3); OBurst (Some 4)]) = Some 12%nat ∧
   active (frames ++ [OEmit (Some 3); OBurst (Some 4); OFrame (int 16)]) = Some 12%nat ∧
   active (frames ++ [OEmit (Some 3); OBurst (Some 4); OFrame (int 16); OBurst None])
     = Some 15%nat ∧
   active os = Some 15%nat) ∧
  match (ops Math_float 20 e0 os 90%nat).1 with
  | Some e =>
      Z.of_nat (length (particles e)) = count (config e0) ∧
      Z.of_nat (activeCount e) ≤ count (config e0) ∧
      (Forall keeps_config os → config e = config e0)
  | None => True
  end.
Proof.
  cbv zeta.
  assert (H : 0 ≤ count (config (new Math_float None O).1)) by (by vm_compute).
  split; [exact H|]. split; [by vm_compute|].
  pose proof (pool_bound Math_float None 20
                (replicate 20 (OFrame (int 100 : float))
                 ++ [OEmit (Some 3); OBurst (Some 4); OFrame (int 16); OBurst None;
                     OEmit (Some 100)]) O 90%nat) as P.
  cbv zeta in P. destruct (P H) as [_ P']. exact P'.
Defined.

(** C4 at the sparkle preset: all fifteen particles of a new emitter are
    active. *)
Lemma pool_starts_active :
  Particle.active <$> particles (new Math_float None O).1 = replicate 15%nat true.
Proof. vm_compute. reflexivity. Qed.

(** C2 as stated, on doubles, at the fire emitter (ten emissions a
    second). 0.3 seconds make three timed emissions when they come as
    three frames of 100 ms and two when they come as one frame of
    300 ms, where [0.3 - 0.1 - 0.1] is below [0.1]; 0.4 seconds make
    four when they come as four frames of 100 ms and three when they
    come as twenty-five frames of 16 ms, whose sum on the timer stays
    below the fourth interval. *)
Lemma emission_cadence_float_counterexample :
  let e := (createHouseEmitter Math_float "brobnar" card_bounds O).1 in
  active e = true ∧ emitTimer e = int 0 ∧ emitRate (config e) = int 10 ∧
  timed_emissions Math_float 8%nat e [int 100; int 100; int 100] 120%nat = Some 3%nat ∧
  timed_emissions Math_float 8%nat e [int 300] 120%nat = Some 2%nat ∧
  timed_emissions Math_float 8%nat e (replicate 4 (int 100)) 120%nat = Some 4%nat ∧
  timed_emissions Math_float 8%nat e (replicate 25 (int 16)) 120%nat = Some 3%nat.
Proof. vm_compute. repeat split; reflexivity. Qed.

(** C2 in exact arithmetic, at the fire emitter: frames of 16, 300, 50
    and 34 ms make [floor (0.4 * 10) = 4] timed emissions. *)
Lemma emission_cadence_exact_witness :
  let e := (createHouseEmitter Math_Q "brobnar" card_bounds O).1 in
  let deltasMS := [16; 300; 50; 34]%Q in
  let n := Z.to_nat (Qfloor (elapsed deltasMS * emitRate (config e))) in
  (active e = true ∧ (emitTimer e == 0)%Q ∧ (0 < emitRate (config e))%Q ∧
   Forall (λ d, 0 <= d)%Q deltasMS ∧ n = 4%nat) ∧
  ∃ e' i', frames Math_Q 4%nat e deltasMS O 120%nat = (Some (e', n), i').
Proof.
  assert (Hds : Forall (λ d, 0 <= d)%Q [16; 300; 50; 34]%Q).
  { repeat constructor; discriminate. }
  split; [by repeat split|].
  apply (emission_cadence_exact Math_Q
           (createHouseEmitter Math_Q "brobnar" card_bounds O).1
           [16; 300; 50; 34]%Q 4%nat 120%nat); done.
Defined.

(** C3 at the step that ends a life, in exact arithmetic. A sparkle
    particle reset with half a second to live and advanced by half a
    second is deactivated with its alpha still 1, not the 0 of
    [alphaEnd]. A fire particle fresh from the pool, whose alpha the
    constructor leaves at 1 while [alphaStart] is 0.8, ends its life in
    a frame of 0.3 seconds with alpha 1, above both bounds. *)
Lemma alpha_counterexample :
  let p := Particle.reset (Particle.new sparkle_sample) sparkle_sample in
  let p' := Particle.update p (1 # 2)%Q in
  let q := Particle.new fire_sample in
  let q' := Particle.update q (3 # 10)%Q in
  (Particle.active p = true ∧ Particle.active p' = false ∧
   (Particle.lifetime p' == 0)%Q ∧
   (Particle.alpha p' == 1)%Q ∧ (Particle.alphaEnd p' == 0)%Q ∧
   ¬ (Particle.alpha p' == Particle.alphaEnd p')%Q) ∧
  (Particle.active q = true ∧ Particle.active q' = false ∧
   (Particle.alpha q' == 1)%Q ∧ (Particle.alphaStart q' == 8 # 10)%Q ∧
   (Particle.alphaEnd q' == 0)%Q ∧ ¬ alpha_in_range q').
Proof.
  cbv zeta. split.
  - repeat split; try reflexivity. discriminate.
  - repeat split; try reflexivity. intros [_ H]. revert H. by vm_compute.
Qed.

(** C3 as amended, at a sparkle particle two frames into its life. *)
Lemma alpha_within_bounds_witness :
  let deltas := [1 # 10; 2 # 10]%Q in
  let d := (1 # 10)%Q in
  (Forall (λ d, 0 <= d)%Q deltas ∧ (0 <= d)%Q) ∧
  let p := steps (Particle.reset (Particle.new sparkle_sample) sparkle_sample) deltas in
  let p' := Particle.update p d in
  alpha_in_range p' ∧
  (Particle.active p' = true →
   (Particle.alpha p' ==
    Particle.alphaEnd p' + (Particle.alphaStart p' - Particle.alphaEnd p')
                           * (Particle.lifetime p' / Particle.maxLifetime p'))%Q) ∧
  (Particle.active p' = false → Particle.alpha p' = Particle.alpha p).
Proof.
  assert (Hds : Forall (λ d, 0 <= d)%Q [1 # 10; 2 # 10]%Q).
  { repeat constructor; discriminate. }
  assert (Hd : (0 <= 1 # 10)%Q) by discriminate.
  split; [by split|].
  exact (alpha_within_bounds (Particle.new sparkle_sample) sparkle_sample
           [1 # 10; 2 # 10]%Q (1 # 10)%Q Hds Hd).
Defined.

(** C9 at the colours of the fire preset. *)
Lemma lerpColor_witness :
  (0 ≤ 0xff0000 < 2 ^ 24 ∧ 0 ≤ 0xff6600 < 2 ^ 24) ∧
  (lerpColor 0xff0000 0xff6600 (int 1 : float) = 0xff6600 ∧
   lerpColor 0xff0000 0xff6600 (int 0 : float) = 0xff0000) ∧
  (lerpColor 0xff0000 0xff6600 (int 1 : Q) = 0xff6600 ∧
   lerpColor 0xff0000 0xff6600 (int 0 : Q) = 0xff0000) ∧
  (∀ ratio : Q, (0 <= ratio)%Q → (ratio <= 1)%Q →
    let c := lerpColor 0xff0000 0xff6600 ratio in
    0 ≤ c < 2 ^ 24 ∧
    (red c = lerpChannel (red 0xff0000) (red 0xff6600) ratio ∧
     nearest (red c) (lerp (red 0xff0000) (red 0xff6600) ratio)) ∧
    (green c = lerpChannel (green 0xff0000) (green 0xff6600) ratio ∧
     nearest (green c) (lerp (green 0xff0000) (green 0xff6600) ratio)) ∧
    (blue c = lerpChannel (blue 0xff0000) (blue 0xff6600) ratio ∧
     nearest (blue c) (lerp (blue 0xff0000) (blue 0xff6600) ratio))) ∧
  (∀ ratio : float,
    lerpColor 0xff0000 0xff6600 ratio =
      pack (lerpChannel (red 0xff0000) (red 0xff6600) ratio)
           (lerpChannel (green 0xff0000) (green 0xff6600) ratio)
           (lerpChannel (blue 0xff0000) (blue 0xff6600) ratio) ∧
    ∀ (a b : Z) (v : Q),
      float_value (int a + int (b - a) * ratio)%js = Some v →
      lerpChannel a b ratio = Qfloor (v + (1 # 2)) ∧ nearest (lerpChannel a b ratio) v).
Proof.
  assert (H1 : 0 ≤ 0xff0000 < 2 ^ 24) by lia.
  assert (H2 : 0 ≤ 0xff6600 < 2 ^ 24) by lia.
  split; [by split|].
  exact (lerpColor_endpoints_and_channels 0xff0000 0xff6600 H1 H2).
Defined.

(** C9 as stated, on doubles, at the colours of the fire preset. The
    double nearest to 1/12 is a little below it: the green channel of
    the exact interpolation there is a little below 8.5, and the nearest
    integer is 8. The products and sums of doubles round it to 8.5, which
    [Math.round] takes to 9. And at a ratio above 1 a channel overflows
    into the next: between black and green at ratio 2, the green of 510
    leaves a red of 1, where both colours have none. *)
Lemma lerpColor_float_counterexample :
  let ratio := (1 / 12)%float in
  let exact := (6004799503160661 # 72057594037927936)%Q in
  Prim2SF ratio = SpecFloat.S754_finite false 6004799503160661 (-56) ∧
  72057594037927936 = 2 ^ 56 ∧
  lerpColor 0xff0000 0xff6600 ratio = 0xff0900 ∧
  green (lerpColor 0xff0000 0xff6600 ratio) = 9 ∧
  (∃ v, float_value (int (green 0xff0000)
                     + int (green 0xff6600 - green 0xff0000) * ratio)%js = Some v ∧
        (v == 17 # 2)%Q) ∧
  lerpColor 0xff0000 0xff6600 exact = 0xff0800 ∧
  nearest 8 (lerp (green 0xff0000) (green 0xff6600) exact) ∧
  ¬ nearest (green (lerpColor 0xff0000 0xff6600 ratio))
            (lerp (green 0xff0000) (green 0xff6600) exact) ∧
  red 0x000000 = 0 ∧ red 0x00ff00 = 0 ∧
  lerpChannel (green 0x000000) (green 0x00ff00) (int 2 : Q) = 510 ∧
  red (lerpColor 0x000000 0x00ff00 (int 2 : Q)) = 1 ∧
  red (lerpColor 0x000000 0x00ff00 (int 2 : float)) = 1.
Proof.
  cbv zeta. split; [by vm_compute|]. split; [by vm_compute|].
  split; [by vm_compute|]. split; [by vm_compute|].
  split; [eexists; split; [vm_compute; reflexivity | by vm_compute]|].
  split; [by vm_compute|].
  split; [by vm_compute|]. split; [intros H; revert H; by vm_compute|].
  repeat split; by vm_compute.
Qed.

(** C5 as stated, at an action card without tokens: its scene is
    shadow, art, frame, which is not a subsequence of the z-order of the
    specification, where the frame comes before the art. *)
Lemma layer_order_counterexample :
  let stage := PremiumCard.loadCard (num:=Q) (show bait_and_switch (Some "normal") false)
                 loaded [] in
  scene_layers stage = [LShadow; LArt; LBaseFrame] ∧
  ¬ (scene_layers stage `sublist_of` z_order).
Proof.
  cbv zeta. split; [reflexivity|].
  change (¬ ([LShadow; LArt; LBaseFrame] `sublist_of` z_order)).
  unfold z_order. intros H.
  repeat match goal with
  | H : _ `sublist_of` _ |- _ => inversion_clear H
  end.
Qed.

(** C6 as stated, at a card shown large: entering passes
    [{ image, size: 'normal' }], which has no [card] key and not the
    size of the surface, and leaving passes no argument at all. *)
Lemma hover_callbacks_counterexample :
  let p := show ember_imp (Some "large") true in
  (PremiumCard.handleMouseEnter p at_rest).2 =
    [ {| PremiumCard.callback := PremiumCard.OnMouseOver;
         PremiumCard.args :=
           [PremiumCard.Object [("image", PremiumCard.VCard (Some ember_imp));
                                ("size", PremiumCard.VString "normal")]] |} ] ∧
  (∀ c a size, c ∈ (PremiumCard.handleMouseEnter p at_rest).2 →
     a ∈ PremiumCard.args c → ¬ hover_shape (Some ember_imp) size a) ∧
  (PremiumCard.handleMouseLeave p at_rest).2 =
    [ {| PremiumCard.callback := PremiumCard.OnMouseOut; PremiumCard.args := [] |} ].
Proof.
  cbv zeta. split; [reflexivity|]. split; [|reflexivity].
  intros c a size Hc Ha. cbn in Hc. apply list_elem_of_singleton in Hc as ->.
  cbn in Ha. apply list_elem_of_singleton in Ha as ->.
  unfold hover_shape. intros H. discriminate H.
Qed.

(** C7 at a house named like a property of [Object.prototype]: the
    emitter has the sparkle preset, but the colours are the inherited
    value and not the theme of shadows; the frame of the premium card
    throws and the card is drawn as the fallback. *)
Lemma house_fallback_witness :
  let p := show (with_house ember_imp "constructor") None true in
  let e := (createHouseEmitter Math_float "constructor" card_bounds O).1 in
  PremiumCard.card p ≫= PremiumCard.house = Some "constructor" ∧
  (config e = sparkle Math_float ∧
   PremiumCard.houseColors p = Inherited "constructor" ∧
   PremiumCard.houseColors p ≠ Own PremiumCard.theme_shadows ∧
   PremiumCard.createCardFrame (num:=float) p PremiumCard.size_normal
     (PremiumCard.houseColors p) = None) ∧
  PremiumCard.loadCard (num:=float) p loaded [] =
    PremiumCard.createFallbackCard p [].
Proof.
  assert (Hk : "constructor" ∉ known_houses).
  { unfold known_houses. rewrite !not_elem_of_cons.
    repeat split; [discriminate ..|apply not_elem_of_nil]. }
  assert (Hi : "constructor" ∈ Object_prototype) by apply list_elem_of_here.
  split; [reflexivity|]. split; [|reflexivity].
  destruct (house_fallback Math_float "constructor"
              (show (with_house ember_imp "constructor") None true) card_bounds O eq_refl)
    as [H _].
  destruct (H Hk) as (Hc & _ & Hin). destruct (Hin Hi) as [Hh Hf].
  split; [exact Hc|]. split; [exact Hh|]. split; [by rewrite Hh|].
  by apply Hf.
Defined.

(** C8 at a token map with an entry named like a property of
    [Object.prototype]: the overlay throws, and the card, whose texture
    loaded, is drawn as the fallback. *)
Lemma token_overlay_inherited_name :
  let c := with_tokens ember_imp [("damage", 2); ("constructor", 5)] in
  PremiumCard.createTokenOverlay (num:=float) c PremiumCard.size_normal = None ∧
  PremiumCard.loadCard (num:=float) (show c None false) loaded [] =
    PremiumCard.createFallbackCard (show c None false) [].
Proof. split; reflexivity. Qed.

(** C10 at a size named like a property of [Object.prototype], and at
    one that is not: the first gives a surface without dimensions, the
    second the normal profile. *)
Lemma cardSize_inherited_name :
  PremiumCard.surface (num:=float) (show ember_imp (Some "constructor") false)
    = (None, None) ∧
  PremiumCard.surface (num:=float) (show ember_imp (Some "huge") false)
    = (Some (int 65), Some (int 91)).
Proof. split; reflexivity. Qed.

End Instances.

(** * Further properties of the code *)

(** ** The pool under every operation *)

Section PoolMore.
Context {num : Type} `{!JsNumber num}.
Variable Math : MathLib num.

Import ParticleEmitter.

Lemma activeCount_insert_inactive (ps : list (Particle.t num)) (k : nat)
    (p q : Particle.t num) :
  ps !! k = Some p → Particle.active p = false → Particle.active q = true →
  length (filter (λ p, Particle.active p = true) (<[k := q]> ps)) =
  S (length (filter (λ p, Particle.active p = true) ps)).
Proof.
  intros Hk Hp Hq.
  assert (Hlt : (k < length ps)%nat) by (by eapply lookup_lt_Some).
  rewrite insert_take_drop by done.
  rewrite <- (take_drop_middle ps k p Hk) at 3.
  rewrite !filter_app, !length_app.
  rewrite filter_cons_True by done.
  rewrite (filter_cons_False _ p) by (rewrite Hp; discriminate).
  cbn. lia.
Qed.

Lemma emit_one_count (e : t num) (i : nat) :
  activeCount (emit_one Math e i).1 =
  Nat.min (length (particles e)) (S (activeCount e)).
Proof.
  unfold emit_one.
  destruct (list_find _ (particles e)) as [[k p]|] eqn:Hfind.
  - apply list_find_Some in Hfind as (Hk & Hp & _).
    unfold rand_bind. destruct (getRandomParticleConfig Math e i) as [c j].
    cbn [rand_ret fst]. unfold activeCount. cbn [particles set_particles].
    rewrite (activeCount_insert_inactive _ k p) by done.
    assert ((length (filter (λ p, Particle.active p = true) (particles e))
             < length (particles e))%nat); [|lia].
    rewrite <- (take_drop_middle _ k p Hk).
    rewrite !filter_app, !length_app.
    rewrite (filter_cons_False _ p) by (rewrite Hp; discriminate).
    pose proof (length_filter (λ p, Particle.active p = true) (take k (particles e))).
    pose proof (length_filter (λ p, Particle.active p = true) (drop (S k) (particles e))).
    cbn. lia.
  - apply list_find_None in Hfind. cbn [rand_ret fst].
    rewrite activeCount_all; [lia|].
    eapply Forall_impl; [exact Hfind|]. intros p Hp. cbn in Hp.
    by destruct (Particle.active p).
Qed.

Lemma emit_loop_count (n : nat) :
  ∀ (e : t num) (i : nat),
    activeCount (emit_loop Math n e i).1 =
    Nat.min (length (particles e)) (activeCount e + n).
Proof.
  induction n as [|n IH]; intros e i; cbn [emit_loop].
  - cbn. pose proof (activeCount_le e). lia.
  - unfold rand_bind. pose proof (emit_one_count e i) as H1.
    pose proof (emit_one_spec Math e i) as [_ Hlen].
    destruct (emit_one Math e i) as [e1 j]. cbn [fst] in *.
    rewrite IH, Hlen, H1. pose proof (activeCount_le e). lia.
Qed.

(** X1. [emit(n)] activates as many particles as it is asked for, as far
    as the pool has inactive ones: the active particles go up by [n], or
    to the size of the pool when fewer than [n] were inactive.  [burst]
    is the same with ten for a missing argument where [emit] has one. *)
Theorem emit_activates (e : t num) (n : option Z) (i : nat) :
  activeCount (emit Math e n i).1 =
    Nat.min (length (particles e)) (activeCount e + Z.to_nat (default 1 n)) ∧
  activeCount (burst Math e n i).1 =
    Nat.min (length (particles e)) (activeCount e + Z.to_nat (default 10 n)).
Proof. split; apply emit_loop_count. Qed.

(** X2. No operation on an emitter changes the size of its pool: not
    [emit] or [burst], not a frame of [update], not [setConfig] with a
    new [count], nor any of the other setters.  Whatever sequence of
    operations has run, the pool has the length it had, and at most
    that many particles are active. *)
Theorem pool_size_is_fixed (fuel : nat) (os : list Op) :
  ∀ (e : t num) (i : nat),
    match (ops Math fuel e os i).1 with
    | Some e' =>
        length (particles e') = length (particles e) ∧
        (activeCount e' ≤ length (particles e))%nat
    | None => True
    end.
Proof.
  induction os as [|o rest IH]; intros e i; cbn [ops].
  - cbn. split; [done | apply activeCount_le].
  - unfold rand_bind. pose proof (op_length Math fuel e o i) as H1.
    destruct (op Math fuel e o i) as [[e1|] j]; cbn [fst] in *; [|done].
    specialize (IH e1 j).
    destruct (ops Math fuel e1 rest j) as [[e'|] j']; cbn [fst] in *; [|done].
    destruct IH as [Hl Ha]. split; [congruence | by rewrite <- H1].
Qed.

Lemma frames_stopped (fuel : nat) (ds : list num) :
  ∀ (e : t num) (acc i : nat),
    active e = false → frames Math fuel e ds acc i = (Some (e, acc), i).
Proof.
  induction ds as [|d rest IH]; intros e acc i Hoff; cbn [frames]; [done|].
  unfold rand_bind, update. rewrite Hoff. cbn. rewrite IH by done.
  by rewrite Nat.add_0_r.
Qed.

(** X3. A stopped emitter ignores the ticker: whatever frames pass,
    with whatever fuel, it makes no emission, ages no particle and adds
    nothing to its timer, so that no time is owed when it is started
    again; and [start] after [stop] is [start]. *)
Theorem stop_freezes (fuel : nat) (e : t num) (ds : list num) (acc i : nat) :
  frames Math fuel (stop e) ds acc i = (Some (stop e, acc), i) ∧
  start (stop e) = start e.
Proof. split; [by apply frames_stopped | done]. Qed.

End PoolMore.

(** ** Every operation returns, in exact arithmetic *)

Section ReturnExact.
Variable Math : MathLib Q.

Import ParticleEmitter.

(** What the operations keep of the timer: it holds less than one
    emission interval. *)
Lemma op_returns_exact (fuel : nat) (e : t Q) (o : Op) (i : nat) :
  (0 < emitRate (config e))%Q →
  (0 <= emitTimer e)%Q → (emitTimer e < 1 / emitRate (config e))%Q →
  keeps_config o → within_fuel fuel (emitRate (config e)) o →
  ∃ e' i',
    op Math fuel e o i = (Some e', i') ∧ config e' = config e ∧
    (0 <= emitTimer e')%Q ∧ (emitTimer e' < 1 / emitRate (config e))%Q.
Proof.
  intros Hr Ht0 Ht1 Hk Hf.
  destruct o as [n|n|d|x y|w h|over| |]; cbn [op keeps_config within_fuel] in *;
    try done; unfold rand_bind; try (by eexists _, _).
  - pose proof (emit_spec Math e n i) as [(Hc & Ht & _) _].
    destruct (emit Math e n i) as [e1 j]. cbn [fst] in *.
    exists e1, j. by rewrite Hc, Ht.
  - pose proof (emit_spec Math e (Some (default 10 n)) i) as [(Hc & Ht & _) _].
    unfold burst. destruct (emit Math e (Some (default 10 n)) i) as [e1 j]. cbn [fst] in *.
    exists e1, j. by rewrite Hc, Ht.
  - destruct Hf as [Hd Hfuel].
    destruct (active e) eqn:Hact.
    + assert (Hpos : (0 < 1 / emitRate (config e))%Q) by (apply Qlt_shift_div_l; lra).
      destruct (update_exact Math fuel e d i Hact Hpos Ht0 Hd)
        as (k & e1 & i1 & -> & Hc & _ & _ & H0 & H1).
      * assert (Hq : (d / inject_Z 1000
                      == d / inject_Z 1000 * emitRate (config e) * (1 / emitRate (config e)))%Q)
          by (field; lra).
        assert (d / inject_Z 1000 * emitRate (config e) * (1 / emitRate (config e))
                <= inject_Z (Z.of_nat fuel) * (1 / emitRate (config e)))%Q
          by (apply Qmult_le_compat_r; lra).
        lra.
      * exists e1, i1. by rewrite Hc.
    + unfold update. rewrite Hact. by exists e, i.
Qed.

(** X22. In exact arithmetic every operation returns. For an emitter
    with a positive emission rate whose timer holds less than one
    interval (the constructor leaves it empty), any sequence of
    operations that leaves the
    configuration alone returns, when the loop of [update] is given a
    turn for each interval a frame can hold; and the timer again holds
    less than one interval. *)
Theorem operations_return (fuel : nat) (os : list Op) (e : t Q) (i : nat) :
  (0 < emitRate (config e))%Q →
  (0 <= emitTimer e)%Q → (emitTimer e < 1 / emitRate (config e))%Q →
  Forall keeps_config os →
  Forall (within_fuel fuel (emitRate (config e))) os →
  ∃ e' i',
    ops Math fuel e os i = (Some e', i') ∧ config e' = config e ∧
    (0 <= emitTimer e')%Q ∧ (emitTimer e' < 1 / emitRate (config e))%Q.
Proof.
  intros Hr Ht0 Ht1 Hk Hf. revert e i Hr Ht0 Ht1 Hf.
  induction Hk as [|o rest Ho _ IH]; intros e i Hr Ht0 Ht1 Hf.
  - by exists e, i.
  - apply Forall_cons in Hf as [Hf Hrest].
    destruct (op_returns_exact fuel e o i Hr Ht0 Ht1 Ho Hf)
      as (e1 & i1 & Hop & Hc & H0 & H1).
    cbn [ops]. unfold rand_bind. rewrite Hop.
    destruct (IH e1 i1) as (e' & i' & Hops & Hc' & H0' & H1'); rewrite ?Hc; try done.
    exists e', i'. rewrite Hc in Hc', H1'. by rewrite Hops.
Qed.

End ReturnExact.

(** ** A particle's life *)

Section LifeMore.
Context {num : Type} `{!JsNumber num}.

Import Particle.

Lemma steps_inactive (ds : list num) :
  ∀ p : Particle.t num, active p = false → steps p ds = p.
Proof.
  induction ds as [|d rest IH]; intros p Hp; [done|].
  unfold steps. cbn [foldl].
  assert (update p d = p) as -> by (unfold update; by rewrite Hp).
  by apply IH.
Qed.

Lemma update_keeps (p : Particle.t num) (d : num) :
  vx (update p d) = vx p ∧ gravity (update p d) = gravity p ∧
  maxLifetime (update p d) = maxLifetime p ∧
  alphaStart (update p d) = alphaStart p ∧ alphaEnd (update p d) = alphaEnd p ∧
  colorEnd (update p d) = colorEnd p ∧
  (active (update p d) = true → active p = true) ∧
  (colorEnd p = None → color (update p d) = color p).
Proof.
  unfold update. destruct (active p) eqn:Hact; cbn [negb]; [|repeat split; congruence].
  destruct (lifetime (advance p d) <= int 0)%js; cbn; repeat split; try done.
  by intros ->.
Qed.

Lemma steps_maxLifetime (ds : list num) :
  ∀ p : Particle.t num, maxLifetime (steps p ds) = maxLifetime p.
Proof.
  induction ds as [|d rest IH]; intros p; [done|].
  unfold steps. cbn [foldl].
  change (foldl update (update p d) rest) with (steps (update p d) rest).
  rewrite IH. by destruct (update_keeps p d) as (_ & _ & -> & _).
Qed.

(** X4. [update] never brings a particle back: an inactive particle is
    left exactly as it is by any number of frames, and a particle that
    is active after frames was active before them; frames never change
    a particle's horizontal velocity,
    gravity, full lifetime, alpha bounds and end colour, nor, when it
    has no end colour, its colour. *)
Theorem update_never_revives (p : Particle.t num) (ds : list num) :
  (active p = false → steps p ds = p) ∧
  (active (steps p ds) = true → active p = true) ∧
  vx (steps p ds) = vx p ∧ gravity (steps p ds) = gravity p ∧
  maxLifetime (steps p ds) = maxLifetime p ∧
  alphaStart (steps p ds) = alphaStart p ∧ alphaEnd (steps p ds) = alphaEnd p ∧
  colorEnd (steps p ds) = colorEnd p ∧
  (colorEnd p = None → color (steps p ds) = color p).
Proof.
  split; [apply steps_inactive|].
  revert p. induction ds as [|d rest IH]; intros p; [done|].
  unfold steps. cbn [foldl]. change (foldl update (update p d) rest) with (steps (update p d) rest).
  destruct (IH (update p d)) as (H1 & H2 & H3 & H4 & H5 & H6 & H7 & H8).
  destruct (update_keeps p d) as (K2 & K3 & K4 & K5 & K6 & K7 & K1 & K8).
  repeat split; try congruence.
  - intros H. by apply K1, H1.
  - intros Hc. rewrite H8 by congruence. by apply K8.
Qed.

End LifeMore.

(** ** Motion, size and colour of a particle, in exact arithmetic *)

Section MotionExact.
Import Particle.

(** Reads the operations of the interface as those of the rationals. *)
Ltac exact_ops :=
  change (@num_add Q Q_number) with Qplus in *;
  change (@num_sub Q Q_number) with Qminus in *;
  change (@num_mul Q Q_number) with Qmult in *;
  change (@num_div Q Q_number) with Qdiv in *.

Lemma total_nonneg (ds : list Q) : Forall (λ d, 0 <= d)%Q ds → (0 <= total ds)%Q.
Proof.
  induction 1 as [|d rest Hd _ IH]; [discriminate|].
  change (total (d :: rest)) with (d + total rest)%Q. lra.
Qed.

Lemma update_live (p : Particle.t Q) (d : Q) :
  active p = true → ¬ (lifetime p - d <= 0)%Q →
  update p d = fade (advance p d).
Proof.
  intros Hact Hl. unfold update. rewrite Hact. cbn [negb].
  assert ((lifetime (advance p d) <= int 0)%js = false) as ->; [|done].
  apply not_true_is_false. cbn. by rewrite Qle_bool_iff.
Qed.

Lemma update_dead (p : Particle.t Q) (d : Q) :
  active p = true → (lifetime p - d <= 0)%Q →
  update p d = deactivate (advance p d).
Proof.
  intros Hact Hl. unfold update. rewrite Hact. cbn [negb].
  assert ((lifetime (advance p d) <= int 0)%js = true) as ->; [|done].
  cbn. by rewrite Qle_bool_iff.
Qed.

Lemma steps_cons (p : Particle.t Q) (d : Q) (rest : list Q) :
  steps p (d :: rest) = steps (update p d) rest.
Proof. reflexivity. Qed.

(** X5. A particle that is active with time left lives exactly as long
    as its remaining lifetime: after frames of non-negative length it is
    still active if and only if their sum is less than the lifetime it
    had.  While it lives, the frames act as one: its remaining lifetime
    has gone down by their sum, its horizontal position has moved by the
    horizontal velocity times their sum, and its vertical velocity has
    grown by gravity times their sum. *)
Theorem particle_lives_its_lifetime (p : Particle.t Q) (ds : list Q) :
  active p = true → (0 < lifetime p)%Q → Forall (λ d, 0 <= d)%Q ds →
  (active (steps p ds) = true ↔ (total ds < lifetime p)%Q) ∧
  (active (steps p ds) = true →
   (lifetime (steps p ds) == lifetime p - total ds)%Q ∧
   (x (steps p ds) == x p + vx p * total ds)%Q ∧
   (vy (steps p ds) == vy p + gravity p * total ds)%Q).
Proof.
  revert p. induction ds as [|d rest IH]; intros p Hact Hl Hds.
  - change (total []) with 0%Q. unfold steps. cbn [foldl]. split.
    + by split.
    + intros _. repeat split; ring.
  - apply Forall_cons in Hds as [Hd Hrest].
    pose proof (total_nonneg rest Hrest) as Hsum.
    change (total (d :: rest)) with (d + total rest)%Q. rewrite steps_cons.
    destruct (Qlt_le_dec 0 (lifetime p - d)) as [Hlive|Hdead].
    + rewrite update_live by (done || lra).
      destruct (IH (fade (advance p d))) as [Hiff Hmotion]; [done | exact Hlive | done |].
      cbn [fade advance updateGraphics lifetime x vx vy gravity active] in Hiff, Hmotion.
      exact_ops. split.
      * rewrite Hiff. split; intros; lra.
      * intros Ha. destruct (Hmotion Ha) as (H1 & H2 & H3).
        rewrite H1, H2, H3. repeat split; ring.
    + rewrite update_dead by done.
      rewrite steps_inactive by done. cbn [deactivate active]. split.
      * split; [discriminate | intros; lra].
      * discriminate.
Qed.

(** X6. Frames never grow a particle: one that has a non-negative size
    keeps a non-negative size that is at most the size it had. *)
Theorem particle_never_grows (p : Particle.t Q) (ds : list Q) :
  (0 <= size p)%Q →
  (0 <= size (steps p ds))%Q ∧ (size (steps p ds) <= size p)%Q.
Proof.
  revert p. induction ds as [|d rest IH]; intros p Hs; [by split; [|apply Qle_refl]|].
  rewrite steps_cons.
  assert (H : (0 <= size (update p d))%Q ∧ (size (update p d) <= size p)%Q).
  { unfold update. destruct (active p); cbn [negb]; [|split; [done | apply Qle_refl]].
    destruct (lifetime (advance p d) <= int 0)%js; cbn.
    - split; [done | apply Qle_refl].
    - exact_ops.
      assert (Hk : (0 <= inject_Z 99 / inject_Z 100)%Q ∧ (inject_Z 99 / inject_Z 100 <= 1)%Q)
        by (split; discriminate).
      destruct Hk as [Hk0 Hk1]. revert Hk0 Hk1.
      generalize (inject_Z 99 / inject_Z 100)%Q. intros k Hk0 Hk1. split; nra. }
  destruct H as [H0 H1]. destruct (IH (update p d) H0) as [H2 H3].
  split; [done | lra].
Qed.

End MotionExact.

Section ColourExact.
Import Particle.

Lemma Qfloor_half (m : Z) : Qfloor (inject_Z m + (1 # 2)) = m.
Proof.
  apply Qfloor_unique; rewrite ?inject_Z_plus; change (inject_Z 1) with 1%Q; lra.
Qed.

(** A channel interpolated at a ratio between 0 and 1 lies between the
    two channels it is interpolated from. *)
Lemma lerpChannel_exact_between (a b : Z) (ratio : Q) :
  (0 <= ratio)%Q → (ratio <= 1)%Q → between a b (lerpChannel a b ratio).
Proof.
  intros H0 H1. rewrite lerpChannel_exact. unfold lerp, between.
  rewrite inject_Z_minus.
  set (x := (inject_Z a + (inject_Z b - inject_Z a) * ratio)%Q).
  destruct (Z.le_ge_cases a b) as [Hab|Hab].
  - rewrite Z.min_l, Z.max_r by done.
    assert (inject_Z a <= inject_Z b)%Q by (by rewrite <- Zle_Qle).
    assert (inject_Z a <= x)%Q by (subst x; nra).
    assert (x <= inject_Z b)%Q by (subst x; nra).
    assert (L : Qfloor (inject_Z a + (1 # 2)) ≤ Qfloor (x + (1 # 2)))
      by (apply Qfloor_resp_le; lra).
    assert (U : Qfloor (x + (1 # 2)) ≤ Qfloor (inject_Z b + (1 # 2)))
      by (apply Qfloor_resp_le; lra).
    rewrite Qfloor_half in L, U. lia.
  - rewrite Z.min_r, Z.max_l by done.
    assert (inject_Z b <= inject_Z a)%Q by (by rewrite <- Zle_Qle).
    assert (inject_Z b <= x)%Q by (subst x; nra).
    assert (x <= inject_Z a)%Q by (subst x; nra).
    assert (L : Qfloor (inject_Z b + (1 # 2)) ≤ Qfloor (x + (1 # 2)))
      by (apply Qfloor_resp_le; lra).
    assert (U : Qfloor (x + (1 # 2)) ≤ Qfloor (inject_Z a + (1 # 2)))
      by (apply Qfloor_resp_le; lra).
    rewrite Qfloor_half in L, U. lia.
Qed.

Lemma between_byte (a b x : Z) :
  0 ≤ a < 256 → 0 ≤ b < 256 → between a b x → 0 ≤ x < 256.
Proof. unfold between. lia. Qed.

Lemma between_trans (a b c x : Z) :
  between a b c → between a c x → between a b x.
Proof. unfold between. lia. Qed.

Lemma fading_colour_update (ce c0 : Z) (p : Particle.t Q) (d : Q) :
  0 ≤ ce < 2 ^ 24 → 0 ≤ c0 < 2 ^ 24 → (0 <= d)%Q →
  fading_colour ce c0 p → fading_colour ce c0 (update p d).
Proof.
  intros Hce Hc0 Hd Hp. pose proof Hp as (Hend & Hc & Hr & Hg & Hb & Hlife).
  unfold update. destruct (active p) eqn:Hact; cbn [negb]; [|exact Hp].
  specialize (Hlife eq_refl).
  destruct (lifetime (advance p d) <= int 0)%js eqn:Hdead.
  - unfold fading_colour. cbn [deactivate advance colorEnd color active].
    split; [done|]. split; [done|]. split; [done|]. split; [done|].
    split; [done|]. discriminate.
  - cbn in Hdead. apply not_true_iff_false in Hdead. rewrite Qle_bool_iff in Hdead.
    change (inject_Z 0) with 0%Q in Hdead.
    assert (Hratio : (0 <= (lifetime p - d) / maxLifetime p)%Q ∧
                     ((lifetime p - d) / maxLifetime p <= 1)%Q).
    { split; [apply Qle_shift_div_l | apply Qle_shift_div_r]; lra. }
    destruct Hratio as [Hr0 Hr1].
    destruct (channels_range ce Hce) as (Er & Eg & Eb).
    destruct (channels_range _ Hc) as (Cr & Cg & Cb).
    pose proof (lerpChannel_exact_between (red ce) (red (color p)) _ Hr0 Hr1) as Br.
    pose proof (lerpChannel_exact_between (green ce) (green (color p)) _ Hr0 Hr1) as Bg.
    pose proof (lerpChannel_exact_between (blue ce) (blue (color p)) _ Hr0 Hr1) as Bb.
    unfold fading_colour.
    cbn [fade advance updateGraphics colorEnd color active lifetime maxLifetime].
    rewrite Hend. rewrite lerpColor_pack.
    change (@num_sub Q Q_number) with Qminus. change (@num_div Q Q_number) with Qdiv.
    destruct (channels_of_pack _ _ _
                (between_byte _ _ _ Er Cr Br)
                (between_byte _ _ _ Eg Cg Bg)
                (between_byte _ _ _ Eb Cb Bb))
      as (Hpack & -> & -> & ->).
    split; [done|]. split; [exact Hpack|].
    split; [by eapply between_trans|]. split; [by eapply between_trans|].
    split; [by eapply between_trans|]. intros _. lra.
Qed.

Lemma fading_colour_steps (ce c0 : Z) (ds : list Q) :
  0 ≤ ce < 2 ^ 24 → 0 ≤ c0 < 2 ^ 24 → Forall (λ d, 0 <= d)%Q ds →
  ∀ p, fading_colour ce c0 p → fading_colour ce c0 (steps p ds).
Proof.
  intros Hce Hc0 Hds. induction Hds as [|d rest Hd _ IH]; intros p Hp; [done|].
  rewrite steps_cons. apply IH. by apply fading_colour_update.
Qed.

(** X7. The colour of a particle that has an end colour only ever moves
    towards it: after any frames of non-negative length each of its
    red, green and blue channels lies between that channel of the
    colour it had and that channel of the end colour, and the colour is
    still a 24-bit one. *)
Theorem colour_moves_towards_end (p : Particle.t Q) (ce : Z) (ds : list Q) :
  colorEnd p = Some ce → 0 ≤ ce < 2 ^ 24 → 0 ≤ color p < 2 ^ 24 →
  (active p = true → (lifetime p <= maxLifetime p)%Q) →
  Forall (λ d, 0 <= d)%Q ds →
  let c := color (steps p ds) in
  0 ≤ c < 2 ^ 24 ∧
  between (red ce) (red (color p)) (red c) ∧
  between (green ce) (green (color p)) (green c) ∧
  between (blue ce) (blue (color p)) (blue c).
Proof.
  intros Hend Hce Hc Hlife Hds c.
  destruct (fading_colour_steps ce (color p) ds Hce Hc Hds p) as (_ & H1 & H2 & H3 & H4 & _).
  { repeat split; try done; unfold between; lia. }
  subst c. split; [exact H1|]. split; [exact H2|]. split; [exact H3 | exact H4].
Qed.

End ColourExact.

(** ** Spawning *)

Section SpawnExact.
Variable Math : MathLib Q.

Import ParticleEmitter.

(** A sample is placed within 10 units of the emit position. *)
Lemma sample_position (e : t Q) (i : nat) :
  unit_random Math →
  let c := (getRandomParticleConfig Math e i).1 in
  ∃ x y,
    Particle.cfg_x c = Some x ∧ Particle.cfg_y c = Some y ∧
    (pt_x (emitPosition e) - 10 <= x)%Q ∧ (x <= pt_x (emitPosition e) + 10)%Q ∧
    (pt_y (emitPosition e) - 10 <= y)%Q ∧ (y <= pt_y (emitPosition e) + 10)%Q.
Proof.
  intros Hr c. subst c.
  destruct (Hr (S (S i))) as [Hx0 Hx1]. destruct (Hr (S (S (S i)))) as [Hy0 Hy1].
  unfold getRandomParticleConfig, rand_bind, randomRange, random, rand_bind, rand_ret.
  cbn [fst snd Particle.cfg_x Particle.cfg_y].
  change (int (-10) : Q) with (-10)%Q. change (int 10 : Q) with 10%Q.
  change (@num_add Q Q_number) with Qplus. change (@num_sub Q Q_number) with Qminus.
  change (@num_mul Q Q_number) with Qmult.
  eexists _, _. split; [reflexivity|]. split; [reflexivity|]. repeat split; lra.
Qed.

(** X8. A freshly sampled particle configuration lies where the emitter
    is set up to put it: its position within 10 units of the emit
    position on either axis, its size and its lifetime within the ranges
    of the configuration (when these are given with [min <= max]); the
    colours, alpha bounds and gravity are those of the configuration,
    and no [alpha] or [active] key is set.  Six random numbers are
    drawn. *)
Theorem spawn_within_ranges (e : t Q) (i : nat) :
  unit_random Math →
  (range_min (size (config e)) <= range_max (size (config e)))%Q →
  (range_min (lifetime (config e)) <= range_max (lifetime (config e)))%Q →
  let c := (getRandomParticleConfig Math e i).1 in
  (getRandomParticleConfig Math e i).2 = (i + 6)%nat ∧
  (∃ x y,
     Particle.cfg_x c = Some x ∧ Particle.cfg_y c = Some y ∧
     (pt_x (emitPosition e) - 10 <= x)%Q ∧ (x <= pt_x (emitPosition e) + 10)%Q ∧
     (pt_y (emitPosition e) - 10 <= y)%Q ∧ (y <= pt_y (emitPosition e) + 10)%Q) ∧
  (∃ s l,
     Particle.cfg_size c = Some s ∧ Particle.cfg_lifetime c = Some l ∧
     (range_min (size (config e)) <= s)%Q ∧ (s <= range_max (size (config e)))%Q ∧
     (range_min (lifetime (config e)) <= l)%Q ∧
     (l <= range_max (lifetime (config e)))%Q) ∧
  Particle.cfg_color c = Some (color (config e)) ∧
  Particle.cfg_colorEnd c = colorEnd (config e) ∧
  Particle.cfg_alphaStart c = Some (alpha_start (alpha (config e))) ∧
  Particle.cfg_alphaEnd c = Some (alpha_end (alpha (config e))) ∧
  Particle.cfg_gravity c = Some (gravity (config e)) ∧
  Particle.cfg_alpha c = None ∧ Particle.cfg_active c = None.
Proof.
  intros Hr Hsize Hlife c. subst c.
  destruct (Hr (S (S i))) as [Hx0 Hx1]. destruct (Hr (S (S (S i)))) as [Hy0 Hy1].
  destruct (Hr (S (S (S (S i))))) as [Hs0 Hs1].
  destruct (Hr (S (S (S (S (S i)))))) as [Hl0 Hl1].
  unfold getRandomParticleConfig, rand_bind, randomRange, random, rand_bind, rand_ret.
  cbn [fst snd Particle.cfg_x Particle.cfg_y Particle.cfg_size
       Particle.cfg_lifetime Particle.cfg_color Particle.cfg_colorEnd
       Particle.cfg_alphaStart Particle.cfg_alphaEnd Particle.cfg_gravity
       Particle.cfg_alpha Particle.cfg_active].
  change (int (-10) : Q) with (-10)%Q. change (int 10 : Q) with 10%Q.
  change (@num_add Q Q_number) with Qplus. change (@num_sub Q Q_number) with Qminus.
  change (@num_mul Q Q_number) with Qmult.
  split; [lia|]. split.
  { eexists _, _. split; [reflexivity|]. split; [reflexivity|]. repeat split; lra. }
  split.
  { eexists _, _. split; [reflexivity|]. split; [reflexivity|]. repeat split; nra. }
  by repeat split.
Qed.

End SpawnExact.

Section SpawnAny.
Context {num : Type} `{!JsNumber num}.
Variable Math : MathLib num.

Import ParticleEmitter.

(** A sample depends on the emitter through its configuration and its
    emit position only. *)
Lemma getRandomParticleConfig_frame (e e' : t num) (i : nat) :
  same_frame e e' →
  getRandomParticleConfig Math e' i = getRandomParticleConfig Math e i.
Proof.
  intros (Hc & _ & Hp & _ & _). unfold getRandomParticleConfig. by rewrite Hc, Hp.
Qed.

Lemma initParticlePool_loop_samples (e0 : t num) (n : nat) :
  ∀ (e : t num) (i : nat),
    same_frame e0 e →
    let made := λ p, ∃ j, p = Particle.new
                              (with_active (getRandomParticleConfig Math e0 j).1 false) in
    Forall made (particles e) →
    Forall made (particles (initParticlePool_loop Math n e i).1).
Proof.
  induction n as [|n IH]; intros e i Hf made Hall; cbn [initParticlePool_loop]; [done|].
  unfold rand_bind.
  pose proof (getRandomParticleConfig_frame e0 e i Hf) as Hsample.
  destruct (getRandomParticleConfig Math e i) as [c j].
  apply IH.
  - destruct Hf as (?&?&?&?&?). by repeat split.
  - cbn [particles set_particles]. apply Forall_app. split; [done|].
    apply Forall_singleton. exists i. by rewrite <- Hsample.
Qed.

(** X9. [{ ...base, ...over }] as the emitter uses it: an override
    without keys changes nothing, the same override twice is the same as
    once, and a whole preset as override gives that preset, except that
    a preset without an end colour leaves the end colour of the base in
    place.  [setConfig] touches nothing but the configuration. *)
Theorem merge_laws (base p : Config num) (over : Override num) (e : t num) :
  merge base no_override = base ∧
  merge (merge base over) over = merge base over ∧
  merge base (as_override p) =
    {| count := count p; lifetime := lifetime p; speed := speed p; size := size p;
       color := color p;
       colorEnd := match colorEnd p with Some c => Some c | None => colorEnd base end;
       alpha := alpha p; gravity := gravity p; spread := spread p;
       emitRate := emitRate p |} ∧
  particles (setConfig e over) = particles e ∧
  emitTimer (setConfig e over) = emitTimer e ∧
  active (setConfig e over) = active e.
Proof.
  split; [by destruct base|]. split; [|by repeat split].
  destruct over as [[?|] [?|] [?|] [?|] [?|] [?|] [?|] [?|] [?|] [?|]]; reflexivity.
Qed.

End SpawnAny.

Section HouseEmitterExact.
Variable Math : MathLib Q.

Import ParticleEmitter.

Lemma num_or_within (v d lo hi : Q) :
  (lo <= v)%Q → (v <= hi)%Q → (lo <= d)%Q → (d <= hi)%Q →
  (lo <= Particle.num_or (Some v) d)%Q ∧ (Particle.num_or (Some v) d <= hi)%Q.
Proof.
  intros. unfold Particle.num_or, or_default. by destruct (num_truthy v).
Qed.

(** X10. The emitter made for a house emits from the centre of the
    bounds it is given and records those bounds, with an empty timer and
    running.  The particles of its pool were placed by the constructor,
    before the emit position was set: they lie within 10 units of the
    origin on either axis, whatever the bounds. *)
Theorem house_emitter_geometry (house : string) (b : Bounds Q) (i : nat) :
  unit_random Math →
  let e := (createHouseEmitter Math house b i).1 in
  emitPosition e = {| pt_x := (width b / int 2)%js; pt_y := (height b / int 2)%js |} ∧
  width (bounds e) = width b ∧ height (bounds e) = height b ∧
  emitTimer e = int 0 ∧ active e = true ∧
  Forall (λ p, (-10 <= Particle.x p)%Q ∧ (Particle.x p <= 10)%Q ∧
               (-10 <= Particle.y p)%Q ∧ (Particle.y p <= 10)%Q) (particles e).
Proof.
  intros Hr e. subst e. unfold createHouseEmitter, rand_bind.
  match goal with |- context [new Math ?c i] => set (cfg := c) end.
  unfold new, initParticlePool.
  set (e0 := {| config := merge (sparkle Math) (default (as_override (sparkle Math)) cfg);
                particles := []; emitTimer := int 0;
                emitPosition := {| pt_x := int 0; pt_y := int 0 |};
                bounds := {| width := int 100; height := int 100 |};
                active := true |}).
  set (n := Z.to_nat (count (config e0))).
  destruct (initParticlePool_loop_spec Math n e0 i) as ((_ & Ht & _ & _ & Ha) & _ & _).
  pose proof (initParticlePool_loop_samples Math e0 n e0 i (same_frame_refl e0)
                (Forall_nil_2 _)) as Hmade.
  destruct (initParticlePool_loop Math n e0 i) as [e j].
  cbn [fst rand_ret setBounds setEmitPosition emitPosition bounds width height
       emitTimer active particles] in *.
  repeat split; try done.
  eapply Forall_impl; [exact Hmade|]. intros p [k ->].
  destruct (sample_position Math e0 k Hr) as (x & y & Hx & Hy & Hx0 & Hx1 & Hy0 & Hy1).
  cbn [emitPosition e0 pt_x pt_y] in Hx0, Hx1, Hy0, Hy1.
  change (int 0 : Q) with 0%Q in *.
  cbn [Particle.new Particle.updateGraphics Particle.x Particle.y with_active
       Particle.cfg_x Particle.cfg_y].
  rewrite Hx, Hy.
  destruct (num_or_within x 0 (-10) 10) as [? ?]; [lra | lra | discriminate | discriminate |].
  destruct (num_or_within y 0 (-10) 10) as [? ?]; [lra | lra | discriminate | discriminate |].
  done.
Qed.

End HouseEmitterExact.

(** ** Emitting spares the live particles *)

Section EmitMore.
Context {num : Type} `{!JsNumber num}.
Variable Math : MathLib num.

Import ParticleEmitter.

Lemma emit_one_spares (e : t num) (i k : nat) (p : Particle.t num) :
  particles e !! k = Some p → Particle.active p = true →
  particles (emit_one Math e i).1 !! k = Some p.
Proof.
  intros Hk Ha. unfold emit_one.
  destruct (list_find _ (particles e)) as [[j q]|] eqn:Hf; [|done].
  apply list_find_Some in Hf as (Hj & Hq & _).
  unfold rand_bind. destruct (getRandomParticleConfig Math e i) as [c i'].
  cbn [rand_ret fst set_particles particles].
  rewrite list_lookup_insert_ne; [done|]. intros ->. congruence.
Qed.

Lemma emit_loop_spares (n : nat) :
  ∀ (e : t num) (i k : nat) (p : Particle.t num),
    particles e !! k = Some p → Particle.active p = true →
    particles (emit_loop Math n e i).1 !! k = Some p.
Proof.
  induction n as [|n IH]; intros e i k p Hk Ha; [done|].
  cbn [emit_loop]. unfold rand_bind.
  pose proof (emit_one_spares e i k p Hk Ha) as H1.
  destruct (emit_one Math e i) as [e1 i1]. by apply IH.
Qed.

(** X11. Emitting recycles idle particles only: a particle that is
    active keeps its place in the pool and its whole state through
    [emit] and [burst], whatever the count. *)
Theorem emit_spares_active (e : t num) (n : option Z) (i k : nat) (p : Particle.t num) :
  particles e !! k = Some p → Particle.active p = true →
  particles (emit Math e n i).1 !! k = Some p ∧
  particles (burst Math e n i).1 !! k = Some p.
Proof.
  intros Hk Ha. split; by apply emit_loop_spares.
Qed.

End EmitMore.

(** ** Pointer events in sequence *)

Section PointerFacts.
Context {num : Type} `{!JsNumber num}.

Import PremiumCard.

Lemma handle_all_app (p : Props) (evs evs' : list (Event (num := num))) :
  ∀ h : Hover num,
    handle_all p h (evs ++ evs') =
    ((handle_all p (handle_all p h evs).1 evs').1,
     (handle_all p h evs).2 ++ (handle_all p (handle_all p h evs).1 evs').2).
Proof.
  induction evs as [|ev evs IH]; intros h.
  - cbn. by destruct (handle_all p h evs').
  - cbn [app handle_all fst snd]. rewrite IH. cbn [fst snd]. by rewrite app_assoc.
Qed.

Lemma handle_calls (p : Props) (h h' : Hover num) (ev : Event) :
  (handle p h ev).2 = (handle p h' ev).2.
Proof. destruct ev as [[r|] x y| | |]; reflexivity. Qed.

Lemma handle_all_calls (p : Props) (evs : list Event) :
  ∀ h h' : Hover num,
    (handle_all p h evs).2 = evs ≫= λ ev, (handle p h' ev).2.
Proof.
  induction evs as [|ev evs IH]; intros h h'; [done|].
  cbn [handle_all snd mbind list_bind]. f_equal; [apply handle_calls | apply IH].
Qed.

Lemma handle_all_stays (p : Props) (evs : list Event) :
  ∀ h : Hover num,
    Forall stays evs →
    isHovered (handle_all p h evs).1 = isHovered h ∧
    Forall (λ c, callback c = OnClick ∧ args c = [Plain (VCard (card p))])
           (handle_all p h evs).2.
Proof.
  induction evs as [|ev evs IH]; intros h Hs; [by split|].
  apply Forall_cons in Hs as [Hev Hs].
  cbn [handle_all fst snd].
  destruct (IH (handle p h ev).1 Hs) as [IH1 IH2]. rewrite IH1. split.
  - destruct ev as [[r|] x y| | |]; done.
  - apply Forall_app. split; [|done].
    destruct ev as [[r|] x y| | |]; try done; cbn.
    destruct (onClick p); by repeat constructor.
Qed.

(** X12. Pointer events in any sequence. The calls the host receives
    are those each event makes by itself, in order: they do not depend
    on the hover state. Mouse moves and clicks leave the hover flag as it
    is, and the only calls they make are [onClick] with the card. After
    a mouse leave, the state is the resting one (not hovered, pointer at
    the centre) whatever came before; after a mouse enter, the card is
    hovered. A host that passes no callback is never called. *)
Theorem pointer_sequences (p : Props) (h : Hover num) (evs : list Event) :
  (∀ h0, (handle_all p h evs).2 = evs ≫= λ ev, (handle p h0 ev).2) ∧
  (Forall stays evs →
   isHovered (handle_all p h evs).1 = isHovered h ∧
   Forall (λ c, callback c = OnClick ∧ args c = [Plain (VCard (card p))])
          (handle_all p h evs).2) ∧
  (handle_all p h (evs ++ [MouseLeave])).1 =
    {| isHovered := false; mousePos := (dec 5 10, dec 5 10) |} ∧
  isHovered (handle_all p h (evs ++ [MouseEnter])).1 = true ∧
  (onMouseOver p = false → onMouseOut p = false → onClick p = false →
   (handle_all p h evs).2 = []).
Proof.
  split; [intros h0; apply handle_all_calls|].
  split; [apply handle_all_stays|].
  split; [by rewrite handle_all_app|].
  split; [by rewrite handle_all_app|].
  intros Hover Hout Hclick. rewrite (handle_all_calls p evs h h).
  induction evs as [|ev evs IH]; [done|].
  cbn [mbind list_bind]. rewrite IH, app_nil_r.
  destruct ev as [[r|] x y| | |]; cbn; by rewrite ?Hover, ?Hout, ?Hclick.
Qed.

End PointerFacts.

(** ** What a scene holds *)

Section SceneFacts.
Context {num : Type} `{!JsNumber num}.

Import PremiumCard.

(** The card container the [try] block builds when nothing throws. *)
Lemma buildScene_children (p : Props) (o : Outcome) (c : Card)
    (st : list (StageChild (option num))) :
  buildScene p o c = Some st →
  ∃ glow toks,
    st = [CardContainer
            ([Shadow (width (cardSize p)) (height (cardSize p));
              Sprite (width (cardSize p)) (height (cardSize p))
                     (isPremium p && negb (facedown c));
              Frame glow (width (cardSize p)) (height (cardSize p))]
             ++ (if bool_decide (type c = Some "creature") && negb (facedown c)
                 then [createStatsOverlay c (cardSize p)] else [])
             ++ toks)] ∧
    match tokens c with
    | Some (_ :: _) => ∃ discs, toks = [Tokens discs]
    | _ => toks = []
    end.
Proof.
  unfold buildScene.
  destruct (isPremium p && negb (facedown c) && negb (filterBuilds o)); [done|].
  destruct (createCardFrame p (cardSize p) (houseColors p)) as [frame|] eqn:Hframe;
    cbn [mbind option_bind]; [|done].
  assert (∃ glow, frame = Frame glow (width (cardSize p)) (height (cardSize p)))
    as [glow ->].
  { unfold createCardFrame in Hframe.
    destruct (isPremium p); [destruct (houseColors p); [|done]|];
      injection Hframe as <-; by eexists. }
  destruct (tokens c) as [[|t ts]|]; cbn [mbind option_bind].
  - intros [= <-]. by eexists _, _.
  - unfold createTokenOverlay.
    destruct (tokenLoop _ _ _) as [discs|];
      cbn [fmap option_fmap option_map mbind option_bind]; [|done].
    intros [= <-]. eexists _, _. split; [reflexivity|]. by eexists.
  - intros [= <-]. by eexists _, _.
Qed.

(** X13. What [loadCard] draws for a card. A statement of the [try]
    block throws when the shader of a premium face-up card cannot be
    built, when the card is premium and its house is a name of
    [Object.prototype], or when a token entry with a positive count is
    filed under such a name. When the texture does not load, the two
    placeholders are added to what the stage held; when it loads and a
    statement throws, the stage holds the placeholders alone. Otherwise
    the stage holds the card container alone, and in it: a stats
    overlay exactly for a face-up creature, a token overlay exactly for
    a card with at least one token entry, and a sprite that is filtered
    exactly for a premium face-up card. *)
Theorem scene_contents (p : Props) (o : Outcome) (stage : list (StageChild (option num)))
    (c : Card) :
  card p = Some c →
  let throws :=
    (isPremium p = true ∧ facedown c = false ∧ filterBuilds o = false) ∨
    (isPremium p = true ∧ ∃ h, house c = Some h ∧ h ∈ Object_prototype) ∨
    (∃ ty n, (ty, n) ∈ default [] (tokens c) ∧ 0 < n ∧ ty ∈ Object_prototype) in
  (textureLoads o = false → loadCard p o stage = stage ++ createFallbackCard p []) ∧
  (textureLoads o = true → throws → loadCard p o stage = createFallbackCard p []) ∧
  (textureLoads o = true → ¬ throws →
   ∃ children,
     loadCard p o stage = [CardContainer children] ∧
     ((∃ texts, Stats texts ∈ children) ↔ type c = Some "creature" ∧ facedown c = false) ∧
     ((∃ discs, Tokens discs ∈ children) ↔ ∃ entry rest, tokens c = Some (entry :: rest)) ∧
     (∀ w h holo, Sprite w h holo ∈ children →
                  holo = true ↔ isPremium p = true ∧ facedown c = false)).
Proof.
  intros Hc throws. unfold loadCard. rewrite Hc. split; [|split].
  - by intros ->.
  - intros -> Ht. cbn [negb]. apply (buildScene_throws (num:=num) p o c Hc) in Ht.
    by rewrite Ht.
  - intros -> Ht. cbn [negb].
    destruct (buildScene p o c) as [st|] eqn:Hst;
      [|by apply (buildScene_throws (num:=num) p o c Hc) in Hst].
    apply buildScene_children in Hst as (glow & toks & -> & Htoks).
    cbn [default]. eexists. split; [reflexivity|].
    unfold createStatsOverlay.
    split; [|split].
    + split.
      * intros [texts Hin].
        destruct (bool_decide (type c = Some "creature")) eqn:Hty;
          destruct (facedown c); cbn [negb andb] in *;
          (destruct (tokens c) as [[|? ?]|]; [| destruct Htoks as [discs ->] |]);
          subst; cbn [app] in Hin;
          repeat (apply elem_of_cons in Hin as [Hin|Hin]; [try discriminate|]);
          try (by apply elem_of_nil in Hin);
          by apply bool_decide_eq_true in Hty.
      * intros [Hty ->]. rewrite bool_decide_eq_true_2 by done.
        cbn [negb andb app]. eexists. do 3 apply list_elem_of_further.
        apply list_elem_of_here.
    + split.
      * intros [discs' Hin].
        destruct (bool_decide (type c = Some "creature") && negb (facedown c));
          (destruct (tokens c) as [[|? ?]|]; [| destruct Htoks as [discs ->] |]);
          subst; cbn [app] in Hin;
          repeat (apply elem_of_cons in Hin as [Hin|Hin]; [try discriminate|]);
          try (by apply elem_of_nil in Hin); by eexists _, _.
      * intros (entry & rest & Hts). rewrite Hts in Htoks. destruct Htoks as [discs ->].
        exists discs.
        destruct (bool_decide (type c = Some "creature") && negb (facedown c));
          cbn [app]; repeat (first [apply list_elem_of_here | apply list_elem_of_further]).
    + intros w h holo Hin.
      assert (holo = isPremium p && negb (facedown c)) as ->.
      { destruct (bool_decide (type c = Some "creature") && negb (facedown c));
          (destruct (tokens c) as [[|? ?]|]; [| destruct Htoks as [discs ->] |]);
          subst; cbn [app] in Hin;
          repeat (apply elem_of_cons in Hin as [Hin|Hin]; [try discriminate|]);
          try (by apply elem_of_nil in Hin); by injection Hin. }
      rewrite andb_true_iff, negb_true_iff. done.
Qed.

(** X14. Loading again. When the texture loads, what the stage held
    before does not matter, so that loading twice is loading once. When
    it does not load, nothing is cleared: each failed load adds two
    placeholders to what is there. Without a card, the stage is left as
    it is. *)
Theorem loadCard_again (p : Props) (o : Outcome) (stage : list (StageChild (option num))) :
  (card p = None → loadCard p o stage = stage) ∧
  (card p ≠ None → textureLoads o = true →
   loadCard p o stage = loadCard p o [] ∧
   loadCard p o (loadCard p o stage) = loadCard p o stage) ∧
  (card p ≠ None → textureLoads o = false →
   loadCard p o stage = stage ++ loadCard p o [] ∧
   length (loadCard p o (loadCard p o stage)) = (length stage + 4)%nat).
Proof.
  unfold loadCard. destruct (card p) as [c|]; [|done].
  split; [done|]. split; intros _ ->; cbn [negb].
  - done.
  - unfold createFallbackCard. split; [done|].
    rewrite !length_app. cbn [length]. lia.
Qed.

End SceneFacts.

(** ** Token discs keep apart *)

Section TokenFacts.
Import PremiumCard.

Lemma tokenLoop_lookup (sz : CardSize Q) (entries : list (string * Z))
    (discs : list (TokenDisc Q)) (i : nat) (d : TokenDisc Q) :
  tokenLoop sz entries O = Some discs → discs !! i = Some d →
  ∃ colour count, d = tokenDisc sz i colour count.
Proof.
  rewrite tokenLoop_spec. destruct (existsb inherits entries); [done|].
  intros [= <-]. rewrite list_lookup_imap.
  destruct (omap recognized entries !! i) as [[colour count]|]; [|done].
  intros [= <-]. by eexists _, _.
Qed.

(** X15. Two discs of a token overlay never overlap: on a card of
    positive scale, the centres of any two of them are more than the sum
    of their radii apart, across or down. *)
Theorem token_discs_apart (c : Card) (sz : CardSize Q) (discs : list (TokenDisc Q))
    (i j : nat) (d1 d2 : TokenDisc Q) :
  (0 < scale sz)%Q →
  createTokenOverlay c sz = Some (Tokens discs) →
  discs !! i = Some d1 → discs !! j = Some d2 → i ≠ j →
  (td_radius d1 + td_radius d2 < Qabs (td_x d1 - td_x d2))%Q ∨
  (td_radius d1 + td_radius d2 < Qabs (td_y d1 - td_y d2))%Q.
Proof.
  intros Hs Ho H1 H2 Hij. unfold createTokenOverlay in Ho.
  destruct (tokenLoop sz (default [] (tokens c)) 0) as [discs'|] eqn:Hloop; [|done].
  injection Ho as ->.
  destruct (tokenLoop_lookup _ _ _ _ _ Hloop H1) as (c1 & n1 & ->).
  destruct (tokenLoop_lookup _ _ _ _ _ Hloop H2) as (c2 & n2 & ->).
  unfold tokenDisc. cbn [td_radius td_x td_y].
  change (@num_add Q Q_number) with Qplus. change (@num_mul Q Q_number) with Qmult.
  change (@num_div Q Q_number) with Qdiv.
  change (int 10 : Q) with 10%Q. change (int 22 : Q) with 22%Q.
  change (int 15 : Q) with 15%Q. change (int 2 : Q) with 2%Q.
  unfold int. cbn [num_of_Z Q_number].
  set (s := scale sz) in *.
  destruct (decide (Z.of_nat i / 3 = Z.of_nat j / 3)) as [Hrow|Hrow].
  - left.
    assert (Z.of_nat i mod 3 ≠ Z.of_nat j mod 3) as Hcol.
    { intros Hcol. apply Hij. apply Nat2Z.inj.
      rewrite (Z.div_mod (Z.of_nat i) 3), (Z.div_mod (Z.of_nat j) 3) by lia. congruence. }
    set (a := Z.of_nat i mod 3) in *. set (b := Z.of_nat j mod 3) in *.
    destruct (Z.lt_ge_cases a b) as [Hlt|Hge].
    + assert (inject_Z a + 1 <= inject_Z b)%Q.
      { change 1%Q with (inject_Z 1). rewrite <- inject_Z_plus, <- Zle_Qle. lia. }
      eapply Qlt_le_trans; [|rewrite <- Qabs_opp; apply Qle_Qabs]. nra.
    + assert (inject_Z b + 1 <= inject_Z a)%Q.
      { change 1%Q with (inject_Z 1). rewrite <- inject_Z_plus, <- Zle_Qle. lia. }
      eapply Qlt_le_trans; [|apply Qle_Qabs]. nra.
  - right.
    set (a := Z.of_nat i / 3) in *. set (b := Z.of_nat j / 3) in *.
    destruct (Z.lt_ge_cases a b) as [Hlt|Hge].
    + assert (inject_Z a + 1 <= inject_Z b)%Q.
      { change 1%Q with (inject_Z 1). rewrite <- inject_Z_plus, <- Zle_Qle. lia. }
      eapply Qlt_le_trans; [|rewrite <- Qabs_opp; apply Qle_Qabs]. nra.
    + assert (inject_Z b + 1 <= inject_Z a)%Q.
      { change 1%Q with (inject_Z 1). rewrite <- inject_Z_plus, <- Zle_Qle. lia. }
      eapply Qlt_le_trans; [|apply Qle_Qabs]. nra.
Qed.

End TokenFacts.

(** ** The pointer position and the tilt *)

Section TiltExact.
Import PremiumCard.

(** A quotient of two literals, as the fraction it is. *)
Lemma Qdiv_literal (a : Z) (b : positive) : (Qmake a 1 / Qmake (Zpos b) 1 == Qmake a b)%Q.
Proof. unfold Qdiv, Qinv, Qmult, Qeq. cbn. lia. Qed.

Lemma fraction_in_unit (a l w : Q) :
  (0 < w)%Q → (l <= a)%Q → (a <= l + w)%Q →
  (0 <= (a - l) / w)%Q ∧ ((a - l) / w <= 1)%Q.
Proof.
  intros Hw Hl Hr. split.
  - apply Qle_shift_div_l; [done|]. lra.
  - apply Qle_shift_div_r; [done|]. lra.
Qed.

Lemma handle_in_unit_square (p : Props) (h : Hover Q) (ev : Event) :
  in_unit_square (mousePos h) → inside ev →
  in_unit_square (mousePos (handle p h ev).1).
Proof.
  intros Hh Hev. destruct ev as [[rect|] x y| | |]; try done.
  destruct Hev as (Hw & Hh' & Hl & Hr & Ht & Hb).
  cbn [handle handleMouseMove fst mousePos]. unfold in_unit_square. cbn [fst snd].
  change (@num_sub Q Q_number) with Qminus. change (@num_div Q Q_number) with Qdiv.
  destruct (fraction_in_unit x (rect_left rect) (rect_width rect)) as [? ?]; try done.
  destruct (fraction_in_unit y (rect_top rect) (rect_height rect)) as [? ?]; done.
Qed.

(** X16. The pointer position the component keeps stays in the unit
    square: through any sequence of events whose mouse moves fall inside
    the container's rectangle (of positive width and height), from a
    state whose position is in the unit square. *)
Theorem pointer_stays_in_unit_square (p : Props) (h : Hover Q) (evs : list Event) :
  in_unit_square (mousePos h) → Forall inside evs →
  in_unit_square (mousePos (handle_all p h evs).1).
Proof.
  intros Hh Hevs. revert h Hh.
  induction Hevs as [|ev evs Hev _ IH]; intros h Hh; [done|].
  cbn [handle_all fst]. apply IH. by apply handle_in_unit_square.
Qed.

Import Animation.

Section Loop.
Variable Math : MathLib Q.

Lemma animate_iter (h : Hover Q) (n : nat) (a : Animation.t Q) :
  let r := Nat.iter n (animate Math h) a in
  (time r == time a + inject_Z (Z.of_nat n) * (16 / 1000))%Q ∧
  length (filters r) = length (filters a) ∧
  (uIntensity <$> filters r) = (uIntensity <$> filters a) ∧
  (cardContainer r = None ↔ cardContainer a = None) ∧
  (isHovered h = false → skew <$> cardContainer r = skew <$> cardContainer a).
Proof.
  induction n as [|n IH]; intros r; subst r.
  - cbn [Nat.iter nat_rect]. change (inject_Z (Z.of_nat 0)) with 0%Q.
    split; [ring|]. done.
  - destruct IH as (IHt & IHl & IHi & IHc & IHs).
    change (Nat.iter (S n) (animate Math h) a)
      with (animate Math h (Nat.iter n (animate Math h) a)).
    set (r := Nat.iter n (animate Math h) a) in *. clearbody r.
    unfold animate. cbn [time filters cardContainer].
    split; [|split; [|split; [|split]]].
    + change (@num_add Q Q_number) with Qplus.
      change (dec 16 1000 : Q) with (16 / 1000)%Q.
      rewrite Nat2Z.inj_succ. unfold Z.succ. rewrite inject_Z_plus.
      change (inject_Z 1) with 1%Q. lra.
    + by rewrite length_fmap.
    + rewrite <- IHi, <- list_fmap_compose. by apply list_fmap_ext.
    + rewrite <- IHc. destruct (cardContainer r); [|done].
      by destruct (isHovered h).
    + intros Hh. rewrite <- (IHs Hh), Hh. by destruct (cardContainer r).
Qed.

(** X17. The animation loop. After [startAnimationLoop] and [n] more
    frames the clock has advanced by [n + 1] steps of 0.016; each
    holographic filter carries that time and, in its [Float32Array],
    the two coordinates of the pointer position the loop sees, each
    rounded to single precision, at its unchanged intensity; a stage
    without a card container gets none. While the loop sees the card as not hovered, it
    never touches the skew, and the rotation is a hundredth of half the
    sine of twice the time. *)
Theorem animation_loop (h : Hover Q) (n : nat) (a : Animation.t Q) :
  let r := startAnimationLoop Math h n a in
  (time r == time a + inject_Z (Z.of_nat (n + 1)) * (16 / 1000))%Q ∧
  filters r =
    ((λ u, {| uTime := time r; uIntensity := uIntensity u;
              uMouse := (fround (mousePos h).1, fround (mousePos h).2) |})
       <$> filters a) ∧
  (cardContainer r = None ↔ cardContainer a = None) ∧
  (isHovered h = false →
   skew <$> cardContainer r = skew <$> cardContainer a ∧
   rotation <$> cardContainer r =
     (λ _, (Math_sin Math (time r * int 2) * dec 5 10 * dec 1 100)%js) <$> cardContainer a).
Proof.
  intros r. subst r. unfold startAnimationLoop.
  pose proof (animate_iter h (S n) a) as (Ht & _ & _ & Hc & Hs).
  replace (n + 1)%nat with (S n) by lia.
  split; [done|]. split; [|split; [done|]].
  - pose proof (animate_iter h n a) as (_ & Hl & Hi & _).
    change (Nat.iter (S n) (animate Math h) a)
      with (animate Math h (Nat.iter n (animate Math h) a)).
    set (r := Nat.iter n (animate Math h) a) in *. clearbody r.
    unfold animate. cbn [time filters].
    clear -Hl Hi. revert Hl Hi. generalize (filters r) as fs, (filters a) as fs0.
    induction fs as [|u fs IH]; intros [|u0 fs0] Hl Hi; try done.
    cbn in Hl, Hi. injection Hi as Hu Hi. cbn [fmap list_fmap]. rewrite Hu.
    f_equal. apply IH; [lia | done].
  - intros Hh. split; [by apply Hs|].
    pose proof (animate_iter h n a) as (_ & _ & _ & Hc' & _).
    change (Nat.iter (S n) (animate Math h) a)
      with (animate Math h (Nat.iter n (animate Math h) a)).
    set (r := Nat.iter n (animate Math h) a) in *. clearbody r.
    unfold animate. cbn [time cardContainer]. rewrite Hh.
    destruct (cardContainer r) as [tr|], (cardContainer a) as [tr0|]; try done.
    + destruct Hc' as [_ Hc']. by specialize (Hc' eq_refl).
    + destruct Hc' as [Hc' _]. by specialize (Hc' eq_refl).
Qed.

(** X18. The tilt of a hovered card is bounded: with the pointer in
    the unit square, the rotation is at most 0.075 and each skew at most
    0.0375, either way. *)
Theorem tilt_is_bounded (h : Hover Q) (n : nat) (a : Animation.t Q) (tr : Transform Q) :
  isHovered h = true → in_unit_square (mousePos h) →
  cardContainer (startAnimationLoop Math h n a) = Some tr →
  (Qabs (rotation tr) <= 75 / 1000)%Q ∧
  (Qabs (skew tr).1 <= 375 / 10000)%Q ∧
  (Qabs (skew tr).2 <= 375 / 10000)%Q.
Proof.
  intros Hh (Hx0 & Hx1 & Hy0 & Hy1). unfold startAnimationLoop.
  change (Nat.iter (S n) (animate Math h) a)
    with (animate Math h (Nat.iter n (animate Math h) a)).
  set (r := Nat.iter n (animate Math h) a). clearbody r.
  unfold animate. cbn [cardContainer]. rewrite Hh.
  destruct (cardContainer r); [|done]. intros [= <-]. cbn [rotation skew fst snd].
  change (@num_sub Q Q_number) with Qminus. change (@num_mul Q Q_number) with Qmult.
  change (dec 5 10 : Q) with (5 / 10)%Q. change (dec 1 100 : Q) with (1 / 100)%Q.
  change (dec 5 1000 : Q) with (5 / 1000)%Q.
  change (int 15 : Q) with 15%Q. change (int (-15) : Q) with (-15)%Q.
  destruct (mousePos h) as [x y]. cbn [fst snd] in *.
  unfold inject_Z. rewrite !Qdiv_literal.
  repeat split; apply Qabs_Qle_condition; split; lra.
Qed.

End Loop.
End TiltExact.

(** ** The image of a card *)

Section ImageFacts.
Import Stdlib.Strings.Ascii.
Import PremiumCard CardImage.

Lemma chars_app (s s' : string) :
  Stdlib.Strings.String.list_ascii_of_string (s +:+ s') = Stdlib.Strings.String.list_ascii_of_string s ++ Stdlib.Strings.String.list_ascii_of_string s'.
Proof.
  induction s as [|a s IH]; [done|].
  change (String a s +:+ s') with (String a (s +:+ s')). cbn. by rewrite IH.
Qed.

Lemma replace_stars_clean (s : string) :
  "*"%char ∉ Stdlib.Strings.String.list_ascii_of_string (replace_stars s).
Proof.
  induction s as [|a s IH]; cbn; [apply not_elem_of_nil|].
  apply not_elem_of_cons. split; [|done].
  destruct (Ascii.eqb_spec a "*"); [discriminate | congruence].
Qed.

(** X19. The image a card is drawn from. A face-down card is drawn
    from the card back and nothing of its own. A face-up card is drawn
    from a path under [/img/cards/] that holds no asterisk, whatever the
    card's image name is. *)
Theorem image_url (c : Card) (image cardBack : option string) (halfSize : bool) :
  (facedown c = true → imageUrl c image cardBack halfSize = cardBack) ∧
  (facedown c = false →
   ∃ url, imageUrl c image cardBack halfSize = Some url ∧
          (∃ rest, url = "/img/cards/" +:+ rest) ∧
          "*"%char ∉ Stdlib.Strings.String.list_ascii_of_string url).
Proof.
  unfold imageUrl. split; intros ->; [done|].
  eexists. split; [reflexivity|]. split; [by eexists|].
  rewrite !chars_app, !not_elem_of_app.
  split; [by apply (bool_decide_unpack _)|].
  split; [destruct halfSize; by apply (bool_decide_unpack _)|].
  split; [|split; [|destruct halfSize]; by apply (bool_decide_unpack _)].
  destruct image as [s|]; [apply replace_stars_clean | by apply (bool_decide_unpack _)].
Qed.

End ImageFacts.

(** ** Dropping a card on a zone *)

Section DropFacts.
Import Droppable.

Lemma validTargets_known (src : string) (targets : list string) :
  validTargets !! src = Some targets →
  src ∈ zones ∧ ∀ tgt, tgt ∈ targets ↔ tgt ∈ zones ∧ tgt ≠ src.
Proof.
  intros H. apply elem_of_list_to_map_2 in H.
  repeat (apply elem_of_cons in H as [H|H];
    [injection H as -> ->; split; [unfold zones; set_solver|];
     intros tgt; unfold zones; rewrite !elem_of_cons, !elem_of_nil;
     intuition (subst; first [done | congruence])|]).
  by apply elem_of_nil in H.
Qed.

Lemma validTargets_zone (src : string) :
  src ∈ zones → is_Some (validTargets !! src).
Proof.
  unfold zones. rewrite !elem_of_cons, elem_of_nil.
  intros [->|[->|[->|[->|[->|[->|[]]]]]]]; by eexists.
Qed.

Lemma validTargets_inherited (src : string) :
  src ∈ Object_prototype → validTargets !! src = None.
Proof.
  unfold Object_prototype. rewrite !elem_of_cons, elem_of_nil.
  intros H. repeat (destruct H as [->|H]; [by vm_compute|]). done.
Qed.

(** X20. Where a card may be dropped. In manual mode [canDrop] allows
    any zone but the one the card comes from: exactly when the two are
    different zones of the six; it throws exactly when the item's source
    is a name of [Object.prototype]. Otherwise it never throws, and
    allows dropping only from the hand onto the play area or the discard
    pile, and only a card that can be played. *)
Theorem canDrop_zones (source : string) (item : Item) :
  (canDrop true source item = Some true ↔
   item_source item ∈ zones ∧ source ∈ zones ∧ source ≠ item_source item) ∧
  (canDrop true source item = None ↔ item_source item ∈ Object_prototype) ∧
  (canDrop false source item = Some true ↔
   item_source item = "hand" ∧ (source = "play area" ∨ source = "discard") ∧
   item_canPlay item = true) ∧
  is_Some (canDrop false source item).
Proof.
  split; [|split; [|split]].
  - unfold canDrop, read.
    destruct (validTargets !! item_source item) as [targets|] eqn:Hv.
    + destruct (validTargets_known _ _ Hv) as [Hsrc Htg].
      split.
      * intros [= Hex]. apply existsb_exists in Hex as (tgt & Hin & Heq).
        apply bool_decide_eq_true in Heq as ->.
        apply list_elem_of_In, Htg in Hin. by destruct Hin.
      * intros (_ & Hin & Hne). f_equal. apply existsb_exists.
        exists source. split.
        -- apply list_elem_of_In, Htg. done.
        -- by apply bool_decide_eq_true.
    + split.
      * by destruct (bool_decide (item_source item ∈ Object_prototype)).
      * intros (Hsrc & _). apply validTargets_zone in Hsrc as [? ?]. congruence.
  - unfold canDrop, read.
    destruct (validTargets !! item_source item) as [targets|] eqn:Hv.
    + split; [done|]. intros Hin. apply validTargets_inherited in Hin. congruence.
    + destruct (bool_decide (item_source item ∈ Object_prototype)) eqn:Hin.
      * by apply bool_decide_eq_true in Hin.
      * by apply bool_decide_eq_false in Hin.
  - unfold canDrop.
    destruct (bool_decide (item_source item = "hand")) eqn:Hs;
      destruct (bool_decide (source = "play area")) eqn:Hp;
      destruct (bool_decide (source = "discard")) eqn:Hd;
      cbn [andb orb];
      repeat match goal with
             | H : bool_decide _ = true |- _ => apply bool_decide_eq_true in H
             | H : bool_decide _ = false |- _ => apply bool_decide_eq_false in H
             end; intuition (subst; first [done | congruence]).
  - unfold canDrop.
    by destruct ((bool_decide (item_source item = "hand") && bool_decide (source = "play area"))
                 || (bool_decide (item_source item = "hand") && bool_decide (source = "discard"))).
Qed.

End DropFacts.

(** ** What the constructor and [reset] make of falsy fields *)

Section Defaults.
Context {num : Type} `{!JsNumber num}.

Import Particle.

Lemma num_or_truthy (v : option num) (d : num) :
  num_truthy d = true → num_truthy (num_or v d) = true.
Proof.
  intros Hd. unfold num_or, or_default. destruct v as [a|]; [|done].
  by destruct (num_truthy a) eqn:Ha.
Qed.

Lemma colour_or_truthy (v : option Z) (d : Z) :
  Z_truthy d = true → Z_truthy (or_default Z_truthy v d) = true.
Proof.
  intros Hd. unfold or_default. destruct v as [a|]; [|done].
  by destruct (Z_truthy a) eqn:Ha.
Qed.

(** X21. Fields that [||] guards never stay falsy. In a number model
    where the literals 1 and 2 are truthy, whatever the configuration, a
    particle made by the constructor or recycled by [reset] has a size,
    a lifetime, an alpha and a starting alpha that are truthy (neither
    zero nor NaN) and a colour other than black (0 is replaced by
    white); it is active, at its full lifetime. The full lifetime stays
    truthy through any frames: the life ratio of [update] never divides
    by zero. *)
Theorem falsy_fields_take_defaults (q : Particle.t num) (c : Config num) (ds : list num) :
  num_truthy (int 1 : num) = true → num_truthy (int 2 : num) = true →
  well_started (new c) ∧ well_started (reset q c) ∧
  num_truthy (maxLifetime (steps (new c) ds)) = true ∧
  num_truthy (maxLifetime (steps (reset q c) ds)) = true.
Proof.
  intros H1 H2. rewrite !steps_maxLifetime.
  repeat split; cbn [new reset updateGraphics size lifetime alpha alphaStart color
                     maxLifetime active];
    first [by apply num_or_truthy | by apply colour_or_truthy].
Qed.

End Defaults.

(** ** Instances of the further properties *)

Section FurtherInstances.

Lemma Math_Q_unit_random : unit_random Math_Q.
Proof.
  intros k. cbn [Math_random Math_Q].
  pose proof (Z.mod_pos_bound (Z.of_nat k) 8 eq_refl) as [H0 H1].
  split.
  - apply Qle_shift_div_l; [done|]. rewrite Qmult_0_l.
    change 0%Q with (inject_Z 0). by rewrite <- Zle_Qle.
  - apply Qlt_shift_div_r; [done|]. rewrite Qmult_1_l.
    change 8%Q with (inject_Z 8). by rewrite <- Zlt_Qlt.
Qed.

Lemma particle_lives_its_lifetime_witness :
  let p := Particle.new sparkle_sample in
  let ds := [1 # 10; 2 # 10]%Q in
  (Particle.active p = true ∧ (0 < Particle.lifetime p)%Q ∧ Forall (λ d, 0 <= d)%Q ds) ∧
  (Particle.active (steps p ds) = true ↔ (total ds < Particle.lifetime p)%Q) ∧
  (Particle.active (steps p ds) = true →
   (Particle.lifetime (steps p ds) == Particle.lifetime p - total ds)%Q ∧
   (Particle.x (steps p ds) == Particle.x p + Particle.vx p * total ds)%Q ∧
   (Particle.vy (steps p ds) == Particle.vy p + Particle.gravity p * total ds)%Q).
Proof.
  assert (Hds : Forall (λ d, 0 <= d)%Q [1 # 10; 2 # 10]%Q).
  { repeat constructor; discriminate. }
  split; [by repeat split|].
  exact (particle_lives_its_lifetime (Particle.new sparkle_sample) [1 # 10; 2 # 10]%Q
           eq_refl eq_refl Hds).
Defined.

Lemma colour_moves_towards_end_witness :
  let p := Particle.new fire_sample in
  let ds := [1 # 10; 1 # 10]%Q in
  (Particle.colorEnd p = Some 0xff0000 ∧ 0 ≤ 0xff0000 < 2 ^ 24 ∧
   0 ≤ Particle.color p < 2 ^ 24 ∧
   (Particle.active p = true → (Particle.lifetime p <= Particle.maxLifetime p)%Q) ∧
   Forall (λ d, 0 <= d)%Q ds) ∧
  let c := Particle.color (steps p ds) in
  0 ≤ c < 2 ^ 24 ∧
  between (red 0xff0000) (red (Particle.color p)) (red c) ∧
  between (green 0xff0000) (green (Particle.color p)) (green c) ∧
  between (blue 0xff0000) (blue (Particle.color p)) (blue c).
Proof.
  assert (Hds : Forall (λ d, 0 <= d)%Q [1 # 10; 1 # 10]%Q).
  { repeat constructor; discriminate. }
  assert (Hce : 0 ≤ 0xff0000 < 2 ^ 24) by lia.
  assert (Hc : 0 ≤ Particle.color (Particle.new fire_sample) < 2 ^ 24) by (by vm_compute).
  assert (Hl : Particle.active (Particle.new fire_sample) = true →
               (Particle.lifetime (Particle.new fire_sample)
                <= Particle.maxLifetime (Particle.new fire_sample))%Q).
  { intros _. apply Qle_refl. }
  split; [by repeat split|].
  exact (colour_moves_towards_end (Particle.new fire_sample) 0xff0000 [1 # 10; 1 # 10]%Q
           eq_refl Hce Hc Hl Hds).
Defined.

Lemma particle_never_grows_witness :
  let p := Particle.new sparkle_sample in
  let ds := [1 # 10; 2 # 10]%Q in
  (0 <= Particle.size p)%Q ∧
  (0 <= Particle.size (steps p ds))%Q ∧ (Particle.size (steps p ds) <= Particle.size p)%Q.
Proof.
  assert (Hs : (0 <= Particle.size (Particle.new sparkle_sample))%Q) by discriminate.
  split; [done|].
  exact (particle_never_grows (Particle.new sparkle_sample) [1 # 10; 2 # 10]%Q Hs).
Defined.

Lemma spawn_within_ranges_witness :
  let e := two_particles in
  (unit_random Math_Q ∧
   (ParticleEmitter.range_min (ParticleEmitter.size (ParticleEmitter.config e))
    <= ParticleEmitter.range_max (ParticleEmitter.size (ParticleEmitter.config e)))%Q ∧
   (ParticleEmitter.range_min (ParticleEmitter.lifetime (ParticleEmitter.config e))
    <= ParticleEmitter.range_max (ParticleEmitter.lifetime (ParticleEmitter.config e)))%Q) ∧
  (ParticleEmitter.getRandomParticleConfig Math_Q e 3%nat).2 = 9%nat.
Proof.
  assert (Hs : (ParticleEmitter.range_min
                  (ParticleEmitter.size (ParticleEmitter.config two_particles))
                <= ParticleEmitter.range_max
                     (ParticleEmitter.size (ParticleEmitter.config two_particles)))%Q)
    by discriminate.
  assert (Hl : (ParticleEmitter.range_min
                  (ParticleEmitter.lifetime (ParticleEmitter.config two_particles))
                <= ParticleEmitter.range_max
                     (ParticleEmitter.lifetime (ParticleEmitter.config two_particles)))%Q)
    by discriminate.
  split; [by repeat split; try apply Math_Q_unit_random|].
  exact (proj1 (spawn_within_ranges Math_Q two_particles 3%nat Math_Q_unit_random Hs Hl)).
Defined.

Lemma house_emitter_geometry_witness :
  unit_random Math_Q ∧
  let e := (ParticleEmitter.createHouseEmitter Math_Q "mars" card_bounds O).1 in
  ParticleEmitter.emitPosition e =
    {| ParticleEmitter.pt_x := (ParticleEmitter.width card_bounds / int 2)%js;
       ParticleEmitter.pt_y := (ParticleEmitter.height card_bounds / int 2)%js |} ∧
  ParticleEmitter.width (ParticleEmitter.bounds e) = ParticleEmitter.width card_bounds ∧
  ParticleEmitter.height (ParticleEmitter.bounds e) = ParticleEmitter.height card_bounds ∧
  ParticleEmitter.emitTimer e = int 0 ∧ ParticleEmitter.active e = true ∧
  Forall (λ p, (-10 <= Particle.x p)%Q ∧ (Particle.x p <= 10)%Q ∧
               (-10 <= Particle.y p)%Q ∧ (Particle.y p <= 10)%Q)
         (ParticleEmitter.particles e).
Proof.
  split; [apply Math_Q_unit_random|].
  exact (house_emitter_geometry Math_Q "mars" card_bounds O Math_Q_unit_random).
Defined.

Lemma emit_spares_active_witness :
  let p := Particle.new sparkle_sample in
  (ParticleEmitter.particles two_particles !! O = Some p ∧ Particle.active p = true) ∧
  ParticleEmitter.particles (ParticleEmitter.emit Math_Q two_particles (Some 5) O).1 !! O
    = Some p ∧
  ParticleEmitter.particles (ParticleEmitter.burst Math_Q two_particles (Some 5) O).1 !! O
    = Some p.
Proof.
  split; [by split|].
  exact (emit_spares_active Math_Q two_particles (Some 5) O O (Particle.new sparkle_sample)
           eq_refl eq_refl).
Defined.

Lemma scene_contents_witness :
  let p := show ember_imp None true in
  PremiumCard.card p = Some ember_imp ∧
  ∃ children : list (PremiumCard.Node (option Q)),
    PremiumCard.loadCard p loaded [] = [PremiumCard.CardContainer children] ∧
    (∃ texts, PremiumCard.Stats texts ∈ children) ∧
    (∃ discs, PremiumCard.Tokens discs ∈ children).
Proof.
  cbv zeta. split; [reflexivity|].
  pose proof (scene_contents (num := Q) (show ember_imp None true) loaded [] ember_imp
                eq_refl) as P.
  cbv zeta in P. destruct P as (_ & _ & H).
  destruct (H eq_refl) as (children & Hload & Hstats & Htokens & _).
  { intros [(_ & _ & Hf) | [(_ & h & Hh & Hin) | (ty & n & Hin & _ & Hty)]].
    - discriminate.
    - injection Hh as <-. apply list_elem_of_In in Hin. cbn in Hin.
      intuition discriminate.
    - apply list_elem_of_In in Hin. cbn in Hin.
      destruct Hin as [Hin | [Hin | []]]; injection Hin as <- <-;
        apply list_elem_of_In in Hty; cbn in Hty; intuition discriminate. }
  exists children. split; [exact Hload|]. split.
  - apply Hstats. by split.
  - apply Htokens. by eexists _, _.
Defined.

Lemma token_discs_apart_witness :
  let sz := PremiumCard.size_normal (num := Q) in
  let d1 := PremiumCard.tokenDisc sz 0 0xff0000 1 in
  let d2 := PremiumCard.tokenDisc sz 1 0xffd700 2 in
  ((0 < PremiumCard.scale sz)%Q ∧
   PremiumCard.createTokenOverlay ember_imp sz = Some (PremiumCard.Tokens [d1; d2])) ∧
  ((PremiumCard.td_radius d1 + PremiumCard.td_radius d2
    < Qabs (PremiumCard.td_x d1 - PremiumCard.td_x d2))%Q ∨
   (PremiumCard.td_radius d1 + PremiumCard.td_radius d2
    < Qabs (PremiumCard.td_y d1 - PremiumCard.td_y d2))%Q).
Proof.
  assert (Hs : (0 < PremiumCard.scale (PremiumCard.size_normal (num := Q)))%Q) by done.
  assert (Ho : PremiumCard.createTokenOverlay ember_imp (PremiumCard.size_normal (num := Q))
               = Some (PremiumCard.Tokens
                   [ PremiumCard.tokenDisc PremiumCard.size_normal 0 0xff0000 1;
                     PremiumCard.tokenDisc PremiumCard.size_normal 1 0xffd700 2 ]))
    by reflexivity.
  split; [by split|].
  exact (token_discs_apart ember_imp PremiumCard.size_normal _ 0 1 _ _
           Hs Ho eq_refl eq_refl (O_S 0)).
Defined.

Lemma pointer_stays_in_unit_square_witness :
  let evs := [MouseEnter; MouseMove (Some card_rect) 30%Q 40%Q; Click] in
  (in_unit_square (PremiumCard.mousePos at_rest) ∧ Forall inside evs) ∧
  in_unit_square (PremiumCard.mousePos (handle_all (show ember_imp None true) at_rest evs).1).
Proof.
  assert (H0 : in_unit_square (PremiumCard.mousePos at_rest)).
  { repeat split; discriminate. }
  assert (Hevs : Forall inside [MouseEnter; MouseMove (Some card_rect) 30%Q 40%Q; Click]).
  { repeat constructor; discriminate. }
  split; [by split|].
  exact (pointer_stays_in_unit_square (show ember_imp None true) at_rest _ H0 Hevs).
Defined.

Lemma tilt_is_bounded_witness :
  (PremiumCard.isHovered hovering = true ∧
   in_unit_square (PremiumCard.mousePos hovering) ∧
   Animation.cardContainer (Animation.startAnimationLoop Math_Q hovering 2 drawn)
     = Some tilted) ∧
  (Qabs (Animation.rotation tilted) <= 75 / 1000)%Q ∧
  (Qabs (Animation.skew tilted).1 <= 375 / 10000)%Q ∧
  (Qabs (Animation.skew tilted).2 <= 375 / 10000)%Q.
Proof.
  assert (H0 : in_unit_square (PremiumCard.mousePos hovering)).
  { repeat split; discriminate. }
  split; [by repeat split|].
  exact (tilt_is_bounded Math_Q hovering 2 drawn tilted eq_refl H0 eq_refl).
Defined.

Lemma operations_return_witness :
  let e := (ParticleEmitter.new Math_Q None O).1 in
  let os := replicate 20 (OFrame 100%Q)
            ++ [OEmit (Some 3); OStop; OFrame 16%Q; OStart; OBurst None; OFrame 16%Q] in
  ((0 < ParticleEmitter.emitRate (ParticleEmitter.config e))%Q ∧
   (0 <= ParticleEmitter.emitTimer e)%Q ∧
   (ParticleEmitter.emitTimer e
    < 1 / ParticleEmitter.emitRate (ParticleEmitter.config e))%Q ∧
   Forall keeps_config os ∧
   Forall (within_fuel 1 (ParticleEmitter.emitRate (ParticleEmitter.config e))) os) ∧
  ∃ e' i',
    ops Math_Q 1 e os 90%nat = (Some e', i') ∧
    ParticleEmitter.config e' = ParticleEmitter.config e ∧
    (0 <= ParticleEmitter.emitTimer e')%Q ∧
    (ParticleEmitter.emitTimer e'
     < 1 / ParticleEmitter.emitRate (ParticleEmitter.config e))%Q.
Proof.
  cbv zeta.
  assert (Hr : (0 < ParticleEmitter.emitRate
                      (ParticleEmitter.config (ParticleEmitter.new Math_Q None O).1))%Q)
    by (by vm_compute).
  assert (H0 : (0 <= ParticleEmitter.emitTimer (ParticleEmitter.new Math_Q None O).1)%Q)
    by (by vm_compute).
  assert (H1 : (ParticleEmitter.emitTimer (ParticleEmitter.new Math_Q None O).1
                < 1 / ParticleEmitter.emitRate
                        (ParticleEmitter.config (ParticleEmitter.new Math_Q None O).1))%Q)
    by (by vm_compute).
  assert (Hk : Forall (keeps_config (num := Q))
                 (replicate 20 (OFrame 100%Q)
                  ++ [OEmit (Some 3); OStop; OFrame 16%Q; OStart; OBurst None; OFrame 16%Q])).
  { apply Forall_app. split; [by apply Forall_replicate | repeat constructor]. }
  assert (Hf : Forall (within_fuel 1 (ParticleEmitter.emitRate
                         (ParticleEmitter.config (ParticleEmitter.new Math_Q None O).1)))
                 (replicate 20 (OFrame 100%Q)
                  ++ [OEmit (Some 3); OStop; OFrame 16%Q; OStart; OBurst None; OFrame 16%Q])).
  { apply Forall_app.
    split; [apply Forall_replicate | repeat apply Forall_cons_2; try apply Forall_nil_2];
      cbn [within_fuel]; try exact I; split; by vm_compute. }
  split; [by repeat split|].
  exact (operations_return Math_Q 1 _ _ 90%nat Hr H0 H1 Hk Hf).
Defined.

Lemma falsy_fields_take_defaults_witness :
  (num_truthy (int 1 : float) = true ∧ num_truthy (int 2 : float) = true) ∧
  well_started (Particle.new zero_config) ∧
  Particle.size (Particle.new zero_config) = int 2 ∧
  Particle.color (Particle.new zero_config) = 0xffffff ∧
  Particle.lifetime (Particle.new zero_config) = int 1.
Proof.
  split; [by split|].
  split; [|by repeat split].
  exact (proj1 (falsy_fields_take_defaults (Particle.new no_config) zero_config []
                  eq_refl eq_refl)).
Defined.

End FurtherInstances.
